(** * FOAM core: contexts, classes and axioms, publish/subscribe, slots

    A shallow embedding of the FOAM (foam2) core runtime and the proofs of
    the properties its specification states about it.

    - [Context]       : Context.js (lookup, register, createSubContext and the
                        [foam.lookup] / [foam.register] short-cuts);
    - [AbstractClass] : AbstractClass.js and [buildClass] of Boot.js;
    - [PubSub]        : the per-topic subscriber list of FObject;
    - [Slot]          : Slot.js ([linkFrom], [relateTo], [follow], [mapFrom])
                        over property slots;
    - [FoamStdlib]    : the flyweight types [foam.String], [foam.Array] and
                        [foam.Number] of foam/core/stdlib.js;
    - [FoamObject]    : [$UID], [foam.Object.freeze], [foam.Object.compare]
                        and [foam.package].

    JavaScript objects that the code uses as dictionaries are finite maps;
    objects that are shared and mutated live in an explicit store and are
    referred to by their location. *)

From stdpp Require Import gmap strings list.

Set Default Proof Using "Type".
Set Warnings "-register-all".

(** ** Failures and the state-and-exception monad

    [console.assert] and [throw] abort the running call; what was written
    to the store before the failure stays written.  The last failure,
    [OutOfFuel], is not one of the program's: a run is given a bound on the
    depth of its calls or on the turns of its loops, and [OutOfFuel] says
    that the bound was reached (in JavaScript, a stack overflow or a loop
    that has not ended yet). *)

Inductive Failure :=
  | InvalidAxiom
  | MissingIdentity
  | UnknownAxiom
  | DuplicateRegistration
  | UnresolvedReference
  | DivergentRelation
  | InvalidArgument
  | TypeError
  | OutOfFuel.

Inductive Outcome (A : Type) :=
  | Return (a : A)
  | Throw (f : Failure).
Arguments Return {A} a.
Arguments Throw {A} f.

Definition M (S A : Type) : Type := S → Outcome A * S.

Definition ret {S A} (a : A) : M S A := λ s, (Return a, s).
Definition throw {S A} (f : Failure) : M S A := λ s, (Throw f, s).
Definition bind {S A B} (m : M S A) (k : A → M S B) : M S B :=
  λ s, match m s with
       | (Return a, s') => k a s'
       | (Throw f, s') => (Throw f, s')
       end.
Definition get_state {S} : M S S := λ s, (Return s, s).
Definition put_state {S} (s : S) : M S unit := λ _, (Return tt, s).
Definition assert {S} (b : bool) (f : Failure) : M S unit :=
  if b then ret tt else throw f.

Declare Scope js_scope.
Delimit Scope js_scope with js.
Notation "'let!' x ':=' m 'in' k" := (bind m (λ x, k))
  (at level 10, x name, m at level 100, k at level 200) : js_scope.
Notation "'run!' m 'in' k" := (bind m (λ _, k))
  (at level 10, m at level 100, k at level 200) : js_scope.

(** [for ( ... ) body] over the elements of a list. *)
Fixpoint for_each {S A} (l : list A) (body : A → M S unit) : M S unit :=
  match l with
  | [] => ret tt
  | a :: l' => bind (body a) (λ _, for_each l' body)
  end.

Definition succeeds {S A} (r : Outcome A * S) : Prop :=
  ∃ a, r.1 = Return a.
Definition fails_with {S A} (f : Failure) (r : Outcome A * S) : Prop :=
  r.1 = Throw f.

(** ** Context.js *)

Module Context.

Abbreviation loc := nat (only parsing).

(** What [register] reads of a class: [cls.id], [cls.package], [cls.name]. *)
Record Class := mkClass {
  cls_id : string;
  cls_package : option string;
  cls_name : string;
}.

#[export] Instance Class_eq_dec : EqDecision Class.
Proof. solve_decision. Defined.

(** A [__cache__] object: its own keys, the cache it delegates to
    ([Object.create(this.__cache__)]), and whether it has been frozen. *)
Record CacheObj := mkCache {
  cache_proto : option loc;
  cache_own : gmap string Class;
  cache_frozen : bool;
}.

(** A context object.  [ctx_cache] is the non-enumerable [__cache__]
    property, [ctx_proto] the [__proto__] link to the parent context. *)
Inductive ContextObj := mkContext {
  ctx_NAME : option string;
  ctx_bindings : gmap string string;
  ctx_cache : loc;
  ctx_UID : nat;
  ctx_proto : option ContextObj;
  ctx_frozen : bool;
}.

(** The mutable part of the program: the cache objects, the allocator and
    the counter behind [foam.next$UID]. *)
Record World := mkWorld {
  caches : gmap loc CacheObj;
  next_loc : loc;
  next_uid : nat;
}.

Local Open Scope js_scope.

(** [foam.next$UID()]: [return id++]. *)
Definition next_UID : M World nat :=
  λ w, (Return (next_uid w),
        mkWorld (caches w) (next_loc w) (S (next_uid w))).

(** Allocation of a new object. *)
Definition alloc_cache (o : CacheObj) : M World loc :=
  λ w, (Return (next_loc w),
        mkWorld (<[next_loc w := o]> (caches w)) (S (next_loc w)) (next_uid w)).

(** [cache[id]]: the own key if there is one, else the prototype's.  A
    prototype is always an older object, so [S l] steps are enough from
    location [l]. *)
Fixpoint cache_get_from (fuel : nat) (cs : gmap loc CacheObj) (l : loc)
    (id : string) : option Class :=
  match fuel with
  | O => None
  | S fuel' =>
      match cs !! l with
      | None => None
      | Some o =>
          match cache_own o !! id with
          | Some c => Some c
          | None =>
              match cache_proto o with
              | Some p => cache_get_from fuel' cs p id
              | None => None
              end
          end
      end
  end.

Definition cache_get (cs : gmap loc CacheObj) (l : loc) (id : string)
    : option Class :=
  cache_get_from (S l) cs l id.

(** [cache.hasOwnProperty(name)]. *)
Definition hasOwnProperty (cs : gmap loc CacheObj) (l : loc) (name : string)
    : bool :=
  match cs !! l with
  | Some o => bool_decide (is_Some (cache_own o !! name))
  | None => false
  end.

(** [cache[name] = cls]: an assignment to a frozen object is ignored. *)
Definition cache_assign (l : loc) (name : string) (cls : Class) : M World unit :=
  λ w, match caches w !! l with
       | Some o =>
           if cache_frozen o then (Return tt, w)
           else (Return tt,
                 mkWorld (<[l := mkCache (cache_proto o)
                                         (<[name := cls]> (cache_own o))
                                         (cache_frozen o)]> (caches w))
                         (next_loc w) (next_uid w))
       | None => (Throw TypeError, w)
       end.

(** [lookup: function(id, opt_suppress)]. *)
Definition lookup (this : ContextObj) (id : string) (opt_suppress : bool)
    : M World (option Class) :=
  let! w := get_state in
  let r := cache_get (caches w) (ctx_cache this) id in
  run! (if opt_suppress then ret tt
        else assert (bool_decide (is_Some r)) UnresolvedReference) in
  ret r.

(** The inner [doRegister(cache, name)] of [register]. *)
Definition doRegister (cls : Class) (cache : loc) (name : string)
    : M World unit :=
  let! w := get_state in
  run! assert (negb (hasOwnProperty (caches w) cache name))
              DuplicateRegistration in
  cache_assign cache name cls.

(** [register: function(cls)]. *)
Definition register (this : ContextObj) (cls : Class) : M World unit :=
  run! doRegister cls (ctx_cache this) (cls_id cls) in
  if bool_decide (cls_package cls = Some "foam.core")
  then doRegister cls (ctx_cache this) (cls_name cls)
  else ret tt.

(** [ctx[key] = v] on a context object: ignored once the object is frozen. *)
Definition ctx_assign (c : ContextObj) (key v : string) : ContextObj :=
  if ctx_frozen c then c
  else mkContext (ctx_NAME c) (<[key := v]> (ctx_bindings c)) (ctx_cache c)
                 (ctx_UID c) (ctx_proto c) (ctx_frozen c).

(** [Object.freeze(o)] freezes the object itself, not the objects its
    properties refer to. *)
Definition Object_freeze (c : ContextObj) : ContextObj :=
  mkContext (ctx_NAME c) (ctx_bindings c) (ctx_cache c) (ctx_UID c)
            (ctx_proto c) true.

(** [createSubContext: function(opt_args, opt_name)].  [NAME] is defined
    only for a truthy (non-empty) name; [for ( var key in opt_args )
    sub[key] = opt_args[key]] copies the bindings; the new [__cache__]
    delegates to this context's; the object is frozen before it is
    returned.  The keys of [opt_args] are taken to be other than [NAME],
    [__cache__] and [$UID__]. *)
Definition createSubContext (this : ContextObj) (opt_args : gmap string string)
    (opt_name : option string) : M World ContextObj :=
  let name := match opt_name with
              | Some n => if bool_decide (n = "") then None else Some n
              | None => None
              end in
  let! c := alloc_cache (mkCache (Some (ctx_cache this)) ∅ false) in
  let! uid := next_UID in
  let sub := mkContext name ∅ c uid (Some this) false in
  let sub := map_fold (λ key v s, ctx_assign s key v) sub opt_args in
  ret (Object_freeze sub).

(** The root context: the [__context__] literal, its [__cache__ = {}],
    its [$UID__], and [Object.freeze(__context__)]. *)
Definition create_root : M World ContextObj :=
  let! c := alloc_cache (mkCache None ∅ false) in
  let! uid := next_UID in
  ret (Object_freeze (mkContext None ∅ c uid None false)).

Definition empty_world : World := mkWorld ∅ 0 1.

(** The [foam] short-cuts.  [foam.lookup = function(id) { return
    foam.__context__.lookup(id); }] takes one parameter: a second argument
    is dropped, and the inner call runs with [opt_suppress] undefined. *)
Definition foam_lookup (root : ContextObj) (id : string) (_extra : bool)
    : M World (option Class) :=
  lookup root id false.

Definition foam_register (root : ContextObj) (cls : Class) : M World unit :=
  register root cls.

Definition foam_createSubContext (root : ContextObj)
    (opt_args : gmap string string) (opt_name : option string)
    : M World ContextObj :=
  createSubContext root opt_args opt_name.

(** [foam.lookup(a.class, true) || foam.core.Property], by which the
    bootstrap [installModel] of AbstractClass.js picks the class of a
    property.  An absent [a.class] does not pass [lookup]'s check that the
    id is a string. *)
Definition installModel_property_type (root : ContextObj)
    (a_class : option string) (Property : Class) : M World Class :=
  match a_class with
  | Some id =>
      let! r := foam_lookup root id true in
      ret (default Property r)
  | None => throw InvalidArgument
  end.

(** The context's chain of ancestors, nearest first, and what each
    context binds in its own cache. *)
Fixpoint ctx_chain (c : ContextObj) : list ContextObj :=
  match c with
  | mkContext _ _ _ _ p _ =>
      c :: match p with
           | Some p' => ctx_chain p'
           | None => []
           end
  end.

Definition own_binding (w : World) (c : ContextObj) (id : string)
    : option Class :=
  match caches w !! ctx_cache c with
  | Some o => cache_own o !! id
  | None => None
  end.

Fixpoint nearest_binding (w : World) (chain : list ContextObj) (id : string)
    : option Class :=
  match chain with
  | [] => None
  | c :: rest =>
      match own_binding w c id with
      | Some cls => Some cls
      | None => nearest_binding w rest id
      end
  end.

(** The states the program reaches: the root context is created once, then
    contexts are derived from existing ones and classes are registered
    (a registration that fails keeps what it wrote before failing). *)
Inductive reachable : World → list ContextObj → Prop :=
  | reach_root w root :
      create_root empty_world = (Return root, w) →
      reachable w [root]
  | reach_createSubContext w cs this opt_args opt_name sub w' :
      reachable w cs →
      this ∈ cs →
      createSubContext this opt_args opt_name w = (Return sub, w') →
      reachable w' (sub :: cs)
  | reach_register w cs this cls r w' :
      reachable w cs →
      this ∈ cs →
      register this cls w = (r, w') →
      reachable w' cs.

(** Well-formed stores: every cache is unfrozen and delegates to an older
    cache; a context is frozen and its cache delegates to its parent's. *)
Definition wf_world (w : World) : Prop :=
  ∀ l o, caches w !! l = Some o →
    l < next_loc w ∧ cache_frozen o = false ∧
    ∀ p, cache_proto o = Some p → p < l ∧ is_Some (caches w !! p).

Fixpoint wf_ctx (w : World) (c : ContextObj) : Prop :=
  match c with
  | mkContext _ _ l _ p fr =>
      fr = true ∧
      ∃ o, caches w !! l = Some o ∧
           match p with
           | Some p' => cache_proto o = Some (ctx_cache p') ∧ wf_ctx w p'
           | None => cache_proto o = None
           end
  end.

(** When [register] meets a key that is already taken: the class id, or,
    for a class of package [foam.core], its short name. *)
Definition register_collides (w : World) (c : ContextObj) (cls : Class)
    : Prop :=
  is_Some (own_binding w c (cls_id cls)) ∨
  (cls_package cls = Some "foam.core" ∧
   (cls_name cls = cls_id cls ∨ is_Some (own_binding w c (cls_name cls)))).

(** The keys under which [register] stores a class. *)
Definition registered_keys (cls : Class) : list string :=
  if bool_decide (cls_package cls = Some "foam.core")
  then [cls_id cls; cls_name cls]
  else [cls_id cls].

(** A small run: the root, the class [Slot] without a package registered in
    it, a sub-context, and the class [foam.core.Slot]. *)
Definition ex_root : ContextObj := mkContext None ∅ 0 1 None true.
Definition ex_w0 : World := (create_root empty_world).2.
Definition ex_Slot : Class := mkClass "Slot" None "Slot".
Definition ex_core_Slot : Class :=
  mkClass "foam.core.Slot" (Some "foam.core") "Slot".
Definition ex_w1 : World := (register ex_root ex_Slot ex_w0).2.
Definition ex_sub : ContextObj :=
  mkContext (Some "sub") ∅ 1 2 (Some ex_root) true.
Definition ex_w2 : World := (createSubContext ex_root ∅ (Some "sub") ex_w1).2.

End Context.

(** ** AbstractClass.js, and [buildClass] and the final [installModel] of
    Boot.js *)

Module AbstractClass.

Abbreviation loc := nat (only parsing).

(** What axioms install, by name, on a class or on its prototype. *)
Abbreviation Members := (gmap string string) (only parsing).

(** An axiom object: its name, its identity, and its two optional hooks.
    [installInClass] receives the class and [installInProto] the
    prototype; they are read as transformers of the members they define. *)
Record AxiomObj := mkAxiom {
  ax_name : string;
  ax_ref : nat;
  ax_installInClass : option (Members → Members);
  ax_installInProto : option (Members → Members);
}.

(** What [getAxiomsByClass(cls)] uses of its argument: [cls.id] and
    [cls.isInstance(a)]. *)
Record Capability := mkCapability {
  cap_id : string;
  cap_isInstance : AxiomObj → bool;
}.

(** [private_]: the axiom cache, from a key to an array, and the
    [isSubClass] memo, which exists only once [isSubClass] has run. *)
Record Private := mkPrivate {
  axiomCache : gmap string loc;
  isSubClassCache : option (gmap string bool);
}.

(** A class object made by [buildClass].  [cls_parent] is its [__proto__]
    when that is another built class; [None] stands for
    [foam.AbstractClass], whose [axiomMap_] is empty.  [axiomMap_] holds
    the own keys of the class's axiom map in the order of their insertion;
    the keys of the parent's map are reached by delegation. *)
Record ClassObj := mkClassObj {
  cls_id : string;
  cls_package : option string;
  cls_name : string;
  cls_parent : option loc;
  axiomMap_ : list (string * AxiomObj);
  private_ : Private;
  cls_statics : Members;
  cls_prototype : Members;
}.

Record Store := mkStore {
  classes : gmap loc ClassObj;
  arrays : gmap loc (list AxiomObj);
  next_loc : loc;
}.

Definition set_axiomMap_ (f : list (string * AxiomObj) → list (string * AxiomObj))
    (c : ClassObj) : ClassObj :=
  mkClassObj (cls_id c) (cls_package c) (cls_name c) (cls_parent c)
             (f (axiomMap_ c)) (private_ c) (cls_statics c) (cls_prototype c).
Definition set_private_ (f : Private → Private) (c : ClassObj) : ClassObj :=
  mkClassObj (cls_id c) (cls_package c) (cls_name c) (cls_parent c)
             (axiomMap_ c) (f (private_ c)) (cls_statics c) (cls_prototype c).
Definition set_statics (f : Members → Members) (c : ClassObj) : ClassObj :=
  mkClassObj (cls_id c) (cls_package c) (cls_name c) (cls_parent c)
             (axiomMap_ c) (private_ c) (f (cls_statics c)) (cls_prototype c).
Definition set_prototype (f : Members → Members) (c : ClassObj) : ClassObj :=
  mkClassObj (cls_id c) (cls_package c) (cls_name c) (cls_parent c)
             (axiomMap_ c) (private_ c) (cls_statics c) (f (cls_prototype c)).
Definition set_axiomCache (f : gmap string loc → gmap string loc)
    (p : Private) : Private :=
  mkPrivate (f (axiomCache p)) (isSubClassCache p).
Definition set_isSubClassCache
    (f : option (gmap string bool) → option (gmap string bool))
    (p : Private) : Private :=
  mkPrivate (axiomCache p) (f (isSubClassCache p)).

(** Own keys of an object in insertion order: [o[k]], [o[k] = v] (a key
    that is already there keeps its place), and [for ( key in o )]. *)
Fixpoint alist_get {A} (k : string) (l : list (string * A)) : option A :=
  match l with
  | [] => None
  | (k', v) :: l' => if decide (k = k') then Some v else alist_get k l'
  end.

Fixpoint alist_set {A} (k : string) (v : A) (l : list (string * A))
    : list (string * A) :=
  match l with
  | [] => [(k, v)]
  | (k', v') :: l' =>
      if decide (k = k') then (k, v) :: l' else (k', v') :: alist_set k v l'
  end.

Definition alist_keys {A} (l : list (string * A)) : list string := l.*1.

Local Open Scope js_scope.

Definition get_class (l : loc) : M Store ClassObj :=
  λ s, match classes s !! l with
       | Some c => (Return c, s)
       | None => (Throw TypeError, s)
       end.

Definition update_class (l : loc) (f : ClassObj → ClassObj) : M Store unit :=
  λ s, match classes s !! l with
       | Some c => (Return tt,
                    mkStore (<[l := f c]> (classes s)) (arrays s) (next_loc s))
       | None => (Throw TypeError, s)
       end.

Definition alloc_class (c : ClassObj) : M Store loc :=
  λ s, (Return (next_loc s),
        mkStore (<[next_loc s := c]> (classes s)) (arrays s) (S (next_loc s))).

Definition alloc_array (a : list AxiomObj) : M Store loc :=
  λ s, (Return (next_loc s),
        mkStore (classes s) (<[next_loc s := a]> (arrays s)) (S (next_loc s))).

(** [this.axiomMap_[name]]: the own key, else the parent's map. *)
Fixpoint axiomMap_get_from (fuel : nat) (cs : gmap loc ClassObj) (l : loc)
    (name : string) : option AxiomObj :=
  match fuel with
  | O => None
  | S fuel' =>
      match cs !! l with
      | None => None
      | Some c =>
          match alist_get name (axiomMap_ c) with
          | Some a => Some a
          | None =>
              match cls_parent c with
              | Some p => axiomMap_get_from fuel' cs p name
              | None => None
              end
          end
      end
  end.

(** [for ( var key in this.axiomMap_ ) ... this.axiomMap_[key]]: the own
    keys first, then those keys of the parent's map that are not
    shadowed, each with the value that the map yields for it. *)
Fixpoint axiom_entries_from (fuel : nat) (cs : gmap loc ClassObj) (l : loc)
    : list (string * AxiomObj) :=
  match fuel with
  | O => []
  | S fuel' =>
      match cs !! l with
      | None => []
      | Some c =>
          axiomMap_ c ++
          match cls_parent c with
          | Some p =>
              filter (λ kv, kv.1 ∉ alist_keys (axiomMap_ c))
                     (axiom_entries_from fuel' cs p)
          | None => []
          end
      end
  end.

Definition axiom_entries (cs : gmap loc ClassObj) (l : loc)
    : list (string * AxiomObj) :=
  axiom_entries_from (S l) cs l.

Definition axiomMap_get (cs : gmap loc ClassObj) (l : loc) (name : string)
    : option AxiomObj :=
  axiomMap_get_from (S l) cs l name.

(** [installAxiom(a)]. *)
Definition run_hooks (this : loc) (a : AxiomObj) : M Store unit :=
  run! match ax_installInClass a with
       | Some h => update_class this (set_statics h)
       | None => ret tt
       end in
  match ax_installInProto a with
  | Some h => update_class this (set_prototype h)
  | None => ret tt
  end.

Definition has_hook (a : AxiomObj) : bool :=
  bool_decide (is_Some (ax_installInClass a) ∨ is_Some (ax_installInProto a)).

Definition installAxiom (this : loc) (a : AxiomObj) : M Store unit :=
  run! assert (has_hook a) InvalidAxiom in
  run! update_class this (set_axiomMap_ (alist_set (ax_name a) a)) in
  run! update_class this (set_private_ (set_axiomCache (λ _, ∅))) in
  run_hooks this a.

(** The values [c] takes in [isSubClass(c)] as it climbs [c.__proto__]: a
    built class, [foam.AbstractClass], [Object.prototype], [null]. *)
Inductive ClassRef :=
  | CRef (l : loc)
  | CAbstractClass
  | CObjectPrototype
  | CNull.

#[export] Instance ClassRef_eq_dec : EqDecision ClassRef.
Proof. solve_decision. Defined.

Definition proto_of (c : ClassRef) : M Store ClassRef :=
  match c with
  | CRef l =>
      let! o := get_class l in
      ret match cls_parent o with
          | Some p => CRef p
          | None => CAbstractClass
          end
  | CAbstractClass => ret CObjectPrototype
  | CObjectPrototype => ret CNull
  | CNull => throw TypeError
  end.

(** [c.id] as a key of the memo; an absent id is the key ["undefined"]. *)
Definition id_key (c : ClassRef) : M Store string :=
  match c with
  | CRef l => let! o := get_class l in ret (cls_id o)
  | _ => ret "undefined"
  end.

Definition depth (c : ClassRef) : nat :=
  match c with
  | CRef l => l + 3
  | CAbstractClass => 2
  | CObjectPrototype => 1
  | CNull => 0
  end.

(** [isSubClass(c)]. *)
Fixpoint isSubClass_from (fuel : nat) (this : loc) (c : ClassRef)
    : M Store bool :=
  match fuel with
  | O => throw OutOfFuel
  | S fuel' =>
      if decide (c = CNull) then ret false
      else
        run! update_class this
               (set_private_ (set_isSubClassCache
                  (λ m, match m with Some m' => Some m' | None => Some ∅ end))) in
        let! key := id_key c in
        let! o := get_class this in
        match default ∅ (isSubClassCache (private_ o)) !! key with
        | Some b => ret b
        | None =>
            let! b := (if decide (c = CRef this) then ret true
                       else let! p := proto_of c in
                            isSubClass_from fuel' this p) in
            run! update_class this
                   (set_private_ (set_isSubClassCache
                      (λ m, Some (<[key := b]> (default ∅ m))))) in
            ret b
        end
  end.

Definition isSubClass (this : loc) (c : ClassRef) : M Store bool :=
  isSubClass_from (S (depth c)) this c.

(** [isInstance(o)], with [o.cls_] when [o] has one. *)
Definition isInstance (this : loc) (o_cls_ : option loc) : M Store bool :=
  match o_cls_ with
  | Some c => isSubClass this (CRef c)
  | None => ret false
  end.

(** [getAxiomByName(name)]. *)
Definition getAxiomByName (this : loc) (name : string)
    : M Store (option AxiomObj) :=
  let! s := get_state in
  ret (axiomMap_get (classes s) this name).

(** [getAxiomsByClass(cls)]. *)
Definition getAxiomsByClass (this : loc) (cls : Capability) : M Store loc :=
  let! c := get_class this in
  match axiomCache (private_ c) !! cap_id cls with
  | Some r => ret r
  | None =>
      let! s := get_state in
      let! r := alloc_array
                  (filter (λ a, cap_isInstance cls a = true)
                          (axiom_entries (classes s) this).*2) in
      run! update_class this
             (set_private_ (set_axiomCache (<[cap_id cls := r]>))) in
      ret r
  end.

(** [hasOwnAxiom(name)]. *)
Definition hasOwnAxiom (this : loc) (name : string) : M Store bool :=
  let! c := get_class this in
  ret (bool_decide (is_Some (alist_get name (axiomMap_ c)))).

(** [getAxioms()]: the whole list, cached under the key ['']. *)
Definition getAxioms (this : loc) : M Store loc :=
  let! c := get_class this in
  match axiomCache (private_ c) !! "" with
  | Some r => ret r
  | None =>
      let! s := get_state in
      let! r := alloc_array (axiom_entries (classes s) this).*2 in
      run! update_class this (set_private_ (set_axiomCache (<["" := r]>))) in
      ret r
  end.

(** A model, as [buildClass] and the final [installModel] read it. *)
Record Model := mkModel {
  m_id : string;
  m_package : option string;
  m_name : string;
  m_extends : option string;
  m_refines : option string;
  m_axioms_ : list AxiomObj;
}.

(** The final [installModel] (Boot.js, [phase3]): a first pass enters the
    axioms in the axiom map, a second pass runs their hooks. *)
Definition installModel (this : loc) (m : Model) : M Store unit :=
  run! update_class this (set_private_ (set_axiomCache (λ _, ∅))) in
  run! for_each (m_axioms_ m) (λ a,
         run! assert (has_hook a) InvalidAxiom in
         update_class this (set_axiomMap_ (alist_set (ax_name a) a))) in
  for_each (m_axioms_ m) (run_hooks this).

(** A string that is absent or empty is falsy. *)
Definition truthy (o : option string) : option string :=
  match o with
  | Some s => if bool_decide (s = "") then None else Some s
  | None => None
  end.

(** [buildClass()] of Boot.js.  [lookup] is [context.lookup] of the root
    context, from an id to the class object registered under it. *)
Definition buildClass (lookup : string → option loc) (m : Model)
    : M Store loc :=
  let! cls :=
    match truthy (m_refines m) with
    | Some r =>
        match lookup r with
        | Some cls => ret cls
        | None => throw UnresolvedReference
        end
    | None =>
        run! assert (negb (bool_decide (m_id m = ""))) MissingIdentity in
        run! assert (negb (bool_decide (m_name m = ""))) MissingIdentity in
        let! parent :=
          match truthy (m_extends m) with
          | Some e =>
              match lookup e with
              | Some p => ret (Some p)
              | None => throw UnresolvedReference
              end
          | None => ret None
          end in
        alloc_class (mkClassObj (m_id m) (m_package m) (m_name m) parent []
                                (mkPrivate ∅ None) ∅ ∅)
    end in
  run! installModel cls m in
  ret cls.

(** The class object after a successful [installAxiom(a)]. *)
Definition apply_hook (h : option (Members → Members)) (m : Members)
    : Members :=
  match h with
  | Some g => g m
  | None => m
  end.

Definition installed (a : AxiomObj) (c : ClassObj) : ClassObj :=
  mkClassObj (cls_id c) (cls_package c) (cls_name c) (cls_parent c)
             (alist_set (ax_name a) a (axiomMap_ c))
             (mkPrivate ∅ (isSubClassCache (private_ c)))
             (apply_hook (ax_installInClass a) (cls_statics c))
             (apply_hook (ax_installInProto a) (cls_prototype c)).

(** The operations on classes, as steps of the store. *)
Inductive Op :=
  | OpBuildClass (lookup : string → option loc) (m : Model)
  | OpInstallAxiom (this : loc) (a : AxiomObj)
  | OpInstallModel (this : loc) (m : Model)
  | OpIsSubClass (this : loc) (c : loc)
  | OpGetAxiomsByClass (this : loc) (cls : Capability)
  | OpGetAxioms (this : loc).

Definition run_op (o : Op) (s : Store) : Store :=
  match o with
  | OpBuildClass lookup m => (buildClass lookup m s).2
  | OpInstallAxiom this a => (installAxiom this a s).2
  | OpInstallModel this m => (installModel this m s).2
  | OpIsSubClass this c => (isSubClass this (CRef c) s).2
  | OpGetAxiomsByClass this cls => (getAxiomsByClass this cls s).2
  | OpGetAxioms this => (getAxioms this s).2
  end.

Definition run_ops (os : list Op) (s : Store) : Store :=
  foldl (λ s o, run_op o s) s os.

(** The steps that install axioms on the class [C]. *)
Definition installs_on (C : loc) (o : Op) : Prop :=
  match o with
  | OpInstallAxiom this _ => this = C
  | OpInstallModel this _ => this = C
  | OpBuildClass lookup m =>
      ∃ r, truthy (m_refines m) = Some r ∧ lookup r = Some C
  | _ => False
  end.

(** Every object of the store is older than the next one to be made. *)
Definition bounded (s : Store) : Prop :=
  (∀ l c, classes s !! l = Some c → l < next_loc s) ∧
  (∀ r a, arrays s !! r = Some a → r < next_loc s).

(** [s'] keeps what [s] has cached for the class [C], and every array. *)
Definition keeps (C : loc) (s s' : Store) : Prop :=
  (∀ c, classes s !! C = Some c →
     ∃ c', classes s' !! C = Some c' ∧
           axiomCache (private_ c) ⊆ axiomCache (private_ c')) ∧
  (∀ r a, arrays s !! r = Some a → arrays s' !! r = Some a).

Definition frames {A} (C : loc) (m : M Store A) : Prop :=
  ∀ s, bounded s → bounded (m s).2 ∧ keeps C s (m s).2.

(** A class's parent is an older class. *)
Definition parents_older (cs : gmap loc ClassObj) : Prop :=
  ∀ l c p, cs !! l = Some c → cls_parent c = Some p → p < l.

(** Well-formed stores: beside [bounded], parents are older, and an axiom
    map has no own key twice. *)
Definition wf_store (s : Store) : Prop :=
  bounded s ∧ parents_older (classes s) ∧
  ∀ l c, classes s !! l = Some c → NoDup (alist_keys (axiomMap_ c)).

Definition preserves_wf {A} (m : M Store A) : Prop :=
  ∀ s, wf_store s → wf_store (m s).2.

(** The class that a model extends, when [context.lookup] finds one, is a
    class of the store. *)
Definition lookup_ok (s : Store) (o : Op) : Prop :=
  match o with
  | OpBuildClass lookup m =>
      ∀ e p, truthy (m_extends m) = Some e → lookup e = Some p →
             is_Some (classes s !! p)
  | _ => True
  end.

Fixpoint lookups_ok (os : list Op) (s : Store) : Prop :=
  match os with
  | [] => True
  | o :: os' => lookup_ok s o ∧ lookups_ok os' (run_op o s)
  end.

Definition empty_store : Store := mkStore ∅ ∅ 0.

(** A small run: [Person], [Employee] that extends it, a capability that
    accepts every axiom, and a property-like axiom. *)
Definition ex_lookup (id : string) : option loc :=
  if bool_decide (id = "Person") then Some 0
  else if bool_decide (id = "Employee") then Some 1 else None.
Definition ex_Person : Model :=
  mkModel "Person" None "Person" None None [].
Definition ex_Employee : Model :=
  mkModel "Employee" None "Employee" (Some "Person") None [].
Definition ex_Property : Capability :=
  mkCapability "foam.core.Property" (λ _, true).
Definition ex_age : AxiomObj := mkAxiom "age" 7 None (Some id).
Definition ex_s2 : Store :=
  run_ops [OpBuildClass ex_lookup ex_Person;
           OpBuildClass ex_lookup ex_Employee] empty_store.
Definition ex_s3 : Store := run_op (OpIsSubClass 0 1) ex_s2.
Definition ex_s4 : Store := run_op (OpGetAxiomsByClass 1 ex_Property) ex_s3.
Definition ex_s5 : Store := run_op (OpInstallAxiom 0 ex_age) ex_s4.

(** The chain of a class: the class, its parent, its parent's parent, up
    to the class that extends [foam.AbstractClass]. *)
Fixpoint cls_chain_from (fuel : nat) (cs : gmap loc ClassObj) (l : loc)
    : list loc :=
  match fuel with
  | O => []
  | S fuel' =>
      match cs !! l with
      | None => []
      | Some c =>
          l :: match cls_parent c with
               | Some p => cls_chain_from fuel' cs p
               | None => []
               end
      end
  end.

Definition cls_chain (cs : gmap loc ClassObj) (l : loc) : list loc :=
  cls_chain_from (S l) cs l.

(** The own key [name] of the nearest class of a chain that has one. *)
Definition own_axiom (cs : gmap loc ClassObj) (l : loc) (name : string)
    : option AxiomObj :=
  match cs !! l with
  | Some c => alist_get name (axiomMap_ c)
  | None => None
  end.

Fixpoint nearest_axiom (cs : gmap loc ClassObj) (chain : list loc)
    (name : string) : option AxiomObj :=
  match chain with
  | [] => None
  | l :: rest =>
      match own_axiom cs l name with
      | Some a => Some a
      | None => nearest_axiom cs rest name
      end
  end.

(** Whether [c] is the class [this] or descends from it. *)
Definition descends (cs : gmap loc ClassObj) (this : loc) (c : ClassRef)
    : bool :=
  match c with
  | CRef l => bool_decide (this ∈ cls_chain cs l)
  | _ => false
  end.

(** The parent of a class of the store is a class of the store. *)
Definition parents_exist (cs : gmap loc ClassObj) : Prop :=
  ∀ l c p, cs !! l = Some c → cls_parent c = Some p → is_Some (cs !! p).

(** No two classes of the store have the same id, and none has the id
    that the memo uses for a class without one. *)
Definition ids_distinct (s : Store) : Prop :=
  ∀ l1 l2 c1 c2,
    classes s !! l1 = Some c1 → classes s !! l2 = Some c2 →
    (cls_id c1 = cls_id c2 → l1 = l2) ∧ cls_id c1 ≠ "undefined".

(** What the memo of [this] holds is true: the entry under a class's id
    says whether the class descends from [this], and the entry under the
    key of an object without an id is [false]. *)
Definition memo_sound (s : Store) (this : loc) : Prop :=
  ∀ o m key b,
    classes s !! this = Some o →
    isSubClassCache (private_ o) = Some m →
    m !! key = Some b →
    (key = "undefined" → b = false) ∧
    (∀ l c, classes s !! l = Some c → cls_id c = key →
            b = bool_decide (this ∈ cls_chain (classes s) l)).

(** [s'] is [s] but for the [isSubClass] memo of the class [this]. *)
Definition erase_memo (c : ClassObj) : ClassObj :=
  set_private_ (set_isSubClassCache (λ _, None)) c.

Definition memo_update (this : loc) (s s' : Store) : Prop :=
  arrays s' = arrays s ∧ next_loc s' = next_loc s ∧
  (∀ l, l ≠ this → classes s' !! l = classes s !! l) ∧
  erase_memo <$> classes s' !! this = erase_memo <$> classes s !! this.

(** What [installModel] makes of a class: the axioms of the model entered
    in the axiom map in their order, then their hooks run in their order,
    the axiom cache being emptied first. *)
Definition enter_axioms (axs : list AxiomObj) (mp : list (string * AxiomObj))
    : list (string * AxiomObj) :=
  foldl (λ mp a, alist_set (ax_name a) a mp) mp axs.

Definition hooks_of (a : AxiomObj) (c : ClassObj) : ClassObj :=
  set_prototype (apply_hook (ax_installInProto a))
    (set_statics (apply_hook (ax_installInClass a)) c).

Definition model_installed (axs : list AxiomObj) (c : ClassObj) : ClassObj :=
  foldl (λ c a, hooks_of a c)
        (set_axiomMap_ (enter_axioms axs)
           (set_private_ (set_axiomCache (λ _, ∅)) c))
        axs.

(** The last axiom of a list that has the name [name]. *)
Definition last_named (name : string) (axs : list AxiomObj)
    : option AxiomObj :=
  last (filter (λ a, ax_name a = name) axs).

(** The class that [buildClass] takes as the parent of a new class:
    [this.extends ? context.lookup(this.extends) : foam.AbstractClass]. *)
Definition extends_of (lookup : string → option loc) (m : Model)
    : option (option loc) :=
  match truthy (m_extends m) with
  | Some e => match lookup e with
              | Some p => Some (Some p)
              | None => None
              end
  | None => Some None
  end.

(** The class object that [buildClass] makes before it installs the
    model. *)
Definition new_class (m : Model) (parent : option loc) : ClassObj :=
  mkClassObj (m_id m) (m_package m) (m_name m) parent []
             (mkPrivate ∅ None) ∅ ∅.

End AbstractClass.

(** ** Publish and subscribe *)

Module PubSub.

Abbreviation loc := nat (only parsing).

(** What [prev] refers to: the node of the topic tree that holds the list,
    for the first subscription of a list, or the subscription before. *)
Inductive Link :=
  | TreeNode (path : list string)
  | Sub (l : loc).

#[export] Instance Link_eq_dec : EqDecision Link.
Proof. solve_decision. Defined.

(** Modelled from the spec: the subscription node of FObject's pub/sub
    (FObject.js is not among the sources, only its tests are): a node of a
    per-topic-path doubly-linked list, [{callback, prev, next, destroyed}].
    A callback is given by what it can do to the subscriber lists during a
    delivery: the subscriptions it destroys, its own or others. *)
Record Subscription := mkSubscription {
  callback : list loc;
  prev : Link;
  next : option loc;
  destroyed : bool;
}.

(** Modelled from the spec: an instance's subscriber state.  The topic
    tree is keyed by the path from its root; each of its nodes holds the
    head of a newest-first list.  Two fields are there for the statements
    only: [delivered] records the subscriptions whose callback was invoked,
    latest first, and [subscribed] the subscriptions made on each path,
    newest first. *)
Record Instance := mkInstance {
  subs : gmap loc Subscription;
  tree : gmap (list string) loc;
  next_loc : loc;
  delivered : list loc;
  subscribed : gmap (list string) (list loc);
}.

Definition set_prev (l : Link) (n : Subscription) : Subscription :=
  mkSubscription (callback n) l (next n) (destroyed n).
Definition set_next (x : option loc) (n : Subscription) : Subscription :=
  mkSubscription (callback n) (prev n) x (destroyed n).
Definition set_destroyed (n : Subscription) : Subscription :=
  mkSubscription (callback n) (prev n) (next n) true.

Local Open Scope js_scope.

Definition update_sub (l : loc) (f : Subscription → Subscription)
    : M Instance unit :=
  λ st, (Return tt,
         mkInstance (alter f l (subs st)) (tree st) (next_loc st)
                    (delivered st) (subscribed st)).

Definition set_head (path : list string) (x : option loc) : M Instance unit :=
  λ st, (Return tt,
         mkInstance (subs st)
                    (match x with
                     | Some n => <[path := n]> (tree st)
                     | None => delete path (tree st)
                     end)
                    (next_loc st) (delivered st) (subscribed st)).

(** Modelled from the spec: [subscribe(topic-segments..., callback)]
    inserts a new node at the head of the list of the path's tree node and
    returns the handle that destroys it. *)
Definition sub (path : list string) (cb : list loc) : M Instance loc :=
  let! st := get_state in
  let n := next_loc st in
  let first := tree st !! path in
  run! put_state (mkInstance
         (<[n := mkSubscription cb (TreeNode path) first false]> (subs st))
         (tree st) (S n) (delivered st)
         (<[path := n :: default [] (subscribed st !! path)]>
            (subscribed st))) in
  run! match first with
       | Some x => update_sub x (set_prev (Sub n))
       | None => ret tt
       end in
  run! set_head path (Some n) in
  ret n.

(** Modelled from the spec: destroying a subscription unlinks it from its
    neighbours and marks it destroyed; it keeps its own [next], so that a
    delivery that holds it as its next-pointer goes on from there.
    Destroying it again does nothing. *)
Definition destroy (n : loc) : M Instance unit :=
  let! st := get_state in
  match subs st !! n with
  | None => ret tt
  | Some nd =>
      if destroyed nd then ret tt
      else
        run! match next nd with
             | Some x => update_sub x (set_prev (prev nd))
             | None => ret tt
             end in
        run! match prev nd with
             | Sub p => update_sub p (set_next (next nd))
             | TreeNode path => set_head path (next nd)
             end in
        update_sub n set_destroyed
  end.

(** The callback of subscription [n] runs: it is recorded, and it destroys
    the subscriptions it holds. *)
Definition invoke (n : loc) (nd : Subscription) : M Instance unit :=
  run! (λ st, (Return tt,
               mkInstance (subs st) (tree st) (next_loc st)
                          (n :: delivered st) (subscribed st))) in
  for_each (callback nd) destroy.

(** Modelled from the spec: the delivery loop over one list.  The
    next-pointer is captured before the callback is invoked; a node that
    is destroyed by then is passed over. *)
Fixpoint notify_from (fuel : nat) (cur : option loc) : M Instance nat :=
  match cur with
  | None => ret 0
  | Some n =>
      match fuel with
      | O => throw OutOfFuel
      | S fuel' =>
          let! st := get_state in
          match subs st !! n with
          | None => throw TypeError
          | Some nd =>
              let nxt := next nd in
              let! k := (if destroyed nd then ret 0
                         else run! invoke n nd in ret 1) in
              let! k' := notify_from fuel' nxt in
              ret (k + k')
          end
      end
  end.

(** A list is at most as long as the store is old. *)
Definition notify (path : list string) : M Instance nat :=
  let! st := get_state in
  notify_from (next_loc st) (tree st !! path).

(** The prefixes of a path, the empty one first. *)
Fixpoint inits {A} (l : list A) : list (list A) :=
  [] :: match l with
        | [] => []
        | x :: l' => map (cons x) (inits l')
        end.

Fixpoint notify_all (paths : list (list string)) : M Instance nat :=
  match paths with
  | [] => ret 0
  | p :: ps =>
      let! k := notify p in
      let! k' := notify_all ps in
      ret (k + k')
  end.

(** Modelled from the spec: [publish(topic-segments...)] delivers to the
    list without topic and then to the list of each prefix of the path,
    each from its current head, and returns the number of callbacks
    invoked. *)
Definition pub (path : list string) : M Instance nat :=
  notify_all (inits path).

Definition empty_instance : Instance := mkInstance ∅ ∅ 0 [] ∅.

(** The run of the regression test "unsub during pub does not lose
    events": two subscriptions to the topic [a], each of which destroys
    itself when it is invoked. *)
Definition ex_two_self_destroying : Instance :=
  (sub ["a"] [1] (sub ["a"] [0] empty_instance).2).2.

(** *** What a delivery should do, on lists *)

(** The subscriptions of [L] that a delivery invokes, in order, when
    those of [dead] are destroyed already: a subscription is invoked when
    it is reached alive, and its callback then destroys what it holds. *)
Fixpoint deliver (cbs : loc → list loc) (dead : gset loc) (L : list loc)
    : list loc :=
  match L with
  | [] => []
  | n :: L' =>
      if decide (n ∈ dead) then deliver cbs dead L'
      else n :: deliver cbs (dead ∪ list_to_set (cbs n)) L'
  end.

(** What is destroyed once the delivery over [L] is done. *)
Fixpoint dead_after (cbs : loc → list loc) (dead : gset loc) (L : list loc)
    : gset loc :=
  match L with
  | [] => dead
  | n :: L' =>
      if decide (n ∈ dead) then dead_after cbs dead L'
      else dead_after cbs (dead ∪ list_to_set (cbs n)) L'
  end.

Definition callback_of (st : Instance) (n : loc) : list loc :=
  match subs st !! n with
  | Some nd => callback nd
  | None => []
  end.

(** A live subscription: one that exists and is not destroyed. *)
Definition live (st : Instance) (n : loc) : bool :=
  match subs st !! n with
  | Some nd => negb (destroyed nd)
  | None => false
  end.

Definition lives (st : Instance) (L : list loc) : list loc :=
  filter (λ n, live st n = true) L.

Definition dead_set (st : Instance) : gset loc :=
  dom (filter (λ kv, destroyed kv.2 = true) (subs st)).

(** The subscriptions made on the prefixes of a path, in the order of
    their delivery. *)
Definition subscribed_on (st : Instance) (p : list string) : list loc :=
  default [] (subscribed st !! p).

Definition candidates (st : Instance) (path : list string) : list loc :=
  concat (subscribed_on st <$> inits path).

(** A set of locations that tells which subscriptions are not live. *)
Definition agree (st : Instance) (D : gset loc) : Prop :=
  ∀ n, is_Some (subs st !! n) → (n ∈ D ↔ live st n = false).

(** *** The shape of the lists *)

(** [reaches st post cur]: the pointer [cur] leads into the rest [post] of
    a list, past subscriptions that are not live only. *)
Definition reaches (st : Instance) (post : list loc) (cur : option loc)
    : Prop :=
  match cur with
  | None => Forall (λ m, live st m = false) post
  | Some m => ∃ mid post', post = mid ++ m :: post' ∧
                           Forall (λ m, live st m = false) mid
  end.

Definition link_of (path : list string) (q : option loc) : Link :=
  match q with
  | Some q' => Sub q'
  | None => TreeNode path
  end.

(** The list [L] of all subscriptions made on [path], newest first, is
    laid out in the store: the live ones are chained in both directions
    from the tree node, and the [next] of a destroyed one leads on into
    the rest of the list. *)
Definition list_ok (st : Instance) (path : list string) (L : list loc)
    : Prop :=
  NoDup L ∧
  tree st !! path = head (lives st L) ∧
  ∀ pre n post, L = pre ++ n :: post →
    ∃ nd, subs st !! n = Some nd ∧
          if destroyed nd then reaches st post (next nd)
          else next nd = head (lives st post) ∧
               prev nd = link_of path (last (lives st pre)).

(** The invariant of an instance. *)
Definition inv (st : Instance) : Prop :=
  (∀ path L, subscribed st !! path = Some L → list_ok st path L) ∧
  (∀ path, subscribed st !! path = None → tree st !! path = None) ∧
  (∀ p1 p2 L1 L2 n, subscribed st !! p1 = Some L1 →
     subscribed st !! p2 = Some L2 → n ∈ L1 → n ∈ L2 → p1 = p2) ∧
  (∀ n nd, subs st !! n = Some nd →
     ∃ path L, subscribed st !! path = Some L ∧ n ∈ L) ∧
  (∀ path L n, subscribed st !! path = Some L → n ∈ L → n < next_loc st).

(** The states an instance reaches by subscribing, destroying and
    publishing. *)
Inductive reachable : Instance → Prop :=
  | reach_empty : reachable empty_instance
  | reach_sub st path cb :
      reachable st → reachable (sub path cb st).2
  | reach_destroy st n :
      reachable st → reachable (destroy n st).2
  | reach_pub st path :
      reachable st → reachable (pub path st).2.

End PubSub.

(** ** Slot.js: [linkFrom] and [relateTo] over two property slots *)

Module Slot.

(** Calls of the two slots' [set], in the order in which they are made. *)
Inductive SetCall (V : Type) :=
  | Set1 (v : V)
  | Set2 (v : V).
Arguments Set1 {V} v.
Arguments Set2 {V} v.

Definition is_Set1 {V} (c : SetCall V) : bool :=
  match c with Set1 _ => true | Set2 _ => false end.
Definition is_Set2 {V} (c : SetCall V) : bool :=
  match c with Set1 _ => false | Set2 _ => true end.

(** A setter that stores what it is offered. *)
Definition accept {V} (old v : V) : V := v.

Section Slots.
Context {V : Type} `{EqDecision V}.

(** Modelled from the spec: the setters of the two property slots
    (Property.js and FObject.js are not among the sources).  A setter may
    reject or coerce the value it is offered: [adapt old v] is what it
    stores.  Setting a property to its current value publishes nothing;
    setting it to a new value publishes one change, which reaches the
    slot's subscriber. *)
Variables adapt1 adapt2 : V → V → V.

Local Open Scope js_scope.

(** *** [linkFrom]

    [s1] is [this] and [s2] the argument of [s1.linkFrom(s2)]; [l1] is
    subscribed to [s1] and [l2] to [s2]. *)
Record LinkState := mkLinkState {
  s1_value : V;
  s2_value : V;
  feedback1 : bool;
  feedback2 : bool;
  link_calls : list (SetCall V);
}.

Inductive LinkCall :=
  | S1_set (v : V)
  | S2_set (v : V)
  | L1
  | L2.

Definition link_log (c : SetCall V) : M LinkState unit :=
  λ st, (Return tt,
         mkLinkState (s1_value st) (s2_value st) (feedback1 st) (feedback2 st)
                     (link_calls st ++ [c])).
Definition put_s1 (v : V) : M LinkState unit :=
  λ st, (Return tt,
         mkLinkState v (s2_value st) (feedback1 st) (feedback2 st)
                     (link_calls st)).
Definition put_s2 (v : V) : M LinkState unit :=
  λ st, (Return tt,
         mkLinkState (s1_value st) v (feedback1 st) (feedback2 st)
                     (link_calls st)).
Definition put_feedback1 (b : bool) : M LinkState unit :=
  λ st, (Return tt,
         mkLinkState (s1_value st) (s2_value st) b (feedback2 st)
                     (link_calls st)).
Definition put_feedback2 (b : bool) : M LinkState unit :=
  λ st, (Return tt,
         mkLinkState (s1_value st) (s2_value st) (feedback1 st) b
                     (link_calls st)).

(** The two setters and the two listeners of [linkFrom]; [fuel] bounds
    the depth of the calls. *)
Fixpoint link_run (fuel : nat) (c : LinkCall) : M LinkState unit :=
  match fuel with
  | O => throw OutOfFuel
  | S fuel' =>
      match c with
      | S1_set v =>
          run! link_log (Set1 v) in
          let! st := get_state in
          let v' := adapt1 (s1_value st) v in
          if decide (v' = s1_value st) then ret tt
          else run! put_s1 v' in link_run fuel' L1
      | S2_set v =>
          run! link_log (Set2 v) in
          let! st := get_state in
          let v' := adapt2 (s2_value st) v in
          if decide (v' = s2_value st) then ret tt
          else run! put_s2 v' in link_run fuel' L2
      | L1 =>
          let! st := get_state in
          if feedback1 st then ret tt
          else if decide (s1_value st = s2_value st) then ret tt
          else
            run! put_feedback1 true in
            run! link_run fuel' (S2_set (s1_value st)) in
            let! st := get_state in
            run! (if decide (s1_value st = s2_value st) then ret tt
                  else link_run fuel' (S1_set (s2_value st))) in
            put_feedback1 false
      | L2 =>
          let! st := get_state in
          if feedback2 st then ret tt
          else if decide (s1_value st = s2_value st) then ret tt
          else
            run! put_feedback2 true in
            run! link_run fuel' (S1_set (s2_value st)) in
            let! st := get_state in
            run! (if decide (s1_value st = s2_value st) then ret tt
                  else link_run fuel' (S2_set (s1_value st))) in
            put_feedback2 false
      end
  end.

(** [s1.linkFrom(s2)] on slots that hold [a] and [b]: the listeners are
    subscribed, then [l2()] runs. *)
Definition linkFrom (fuel : nat) (a b : V) : Outcome unit * LinkState :=
  link_run fuel L2 (mkLinkState a b false false []).

(** A later [s1.set(v)] or [s2.set(v)], with the calls counted afresh. *)
Definition linked (a b : V) : LinkState := mkLinkState a b false false [].

(** *** [relateTo]

    [self] is [this] and [other] the argument of
    [self.relateTo(other, f, fPrime, expectUnstable)]; [Set1] is a call of
    [self.set] and [Set2] one of [other.set]. *)
Variables f fPrime : V → V.
Variable expectUnstable : bool.

Record RelState := mkRelState {
  self_value : V;
  other_value : V;
  feedback : bool;
  feedbackCounter : Z;
  rel_calls : list (SetCall V);
}.

Inductive RelCall :=
  | Self_set (v : V)
  | Other_set (v : V)
  | R1
  | R2.

Definition rel_log (c : SetCall V) : M RelState unit :=
  λ st, (Return tt,
         mkRelState (self_value st) (other_value st) (feedback st)
                    (feedbackCounter st) (rel_calls st ++ [c])).
Definition put_self (v : V) : M RelState unit :=
  λ st, (Return tt,
         mkRelState v (other_value st) (feedback st) (feedbackCounter st)
                    (rel_calls st)).
Definition put_other (v : V) : M RelState unit :=
  λ st, (Return tt,
         mkRelState (self_value st) v (feedback st) (feedbackCounter st)
                    (rel_calls st)).
Definition put_feedback (b : bool) : M RelState unit :=
  λ st, (Return tt,
         mkRelState (self_value st) (other_value st) b (feedbackCounter st)
                    (rel_calls st)).
Definition add_feedbackCounter (d : Z) : M RelState unit :=
  λ st, (Return tt,
         mkRelState (self_value st) (other_value st) (feedback st)
                    (feedbackCounter st + d) (rel_calls st)).

(** The two setters and the listeners [l1] (on [self]) and [l2] (on
    [other]) of [relateTo]. *)
Fixpoint rel_run (fuel : nat) (c : RelCall) : M RelState unit :=
  match fuel with
  | O => throw OutOfFuel
  | S fuel' =>
      match c with
      | Self_set v =>
          run! rel_log (Set1 v) in
          let! st := get_state in
          let v' := adapt1 (self_value st) v in
          if decide (v' = self_value st) then ret tt
          else run! put_self v' in rel_run fuel' R1
      | Other_set v =>
          run! rel_log (Set2 v) in
          let! st := get_state in
          let v' := adapt2 (other_value st) v in
          if decide (v' = other_value st) then ret tt
          else run! put_other v' in rel_run fuel' R2
      | R1 =>
          let! st := get_state in
          if feedback st then ret tt
          else
            run! put_feedback expectUnstable in
            run! (if negb expectUnstable && bool_decide (5 < feedbackCounter st)%Z
                  then throw DivergentRelation else ret tt) in
            run! add_feedbackCounter 1 in
            run! rel_run fuel' (Other_set (f (self_value st))) in
            run! put_feedback false in
            add_feedbackCounter (-1)
      | R2 =>
          let! st := get_state in
          if feedback st then ret tt
          else
            run! put_feedback expectUnstable in
            run! add_feedbackCounter 1 in
            run! rel_run fuel' (Self_set (fPrime (other_value st))) in
            run! put_feedback false in
            add_feedbackCounter (-1)
      end
  end.

(** The state in which no propagation is under way. *)
Definition related (a b : V) : RelState := mkRelState a b false 0 [].

(** [self.relateTo(other, f, fPrime, expectUnstable)] on slots that hold
    [a] and [b]: the listeners are subscribed, then [l1()] runs. *)
Definition relateTo (fuel : nat) (a b : V) : Outcome unit * RelState :=
  rel_run fuel R1 (related a b).

End Slots.

(** Transforms that never give back what they were given: [fPrime] does
    not undo [f] anywhere, nor [f] undo [fPrime]. *)
Definition never_settles {V} (f fPrime : V → V) : Prop :=
  (∀ x, fPrime (f x) ≠ x) ∧ (∀ y, f (fPrime y) ≠ y).

(** Setters that keep a number in a range, and the transforms of the
    examples. *)
Definition at_most (hi : Z) (old v : Z) : Z := Z.min v hi.
Definition at_least (lo : Z) (old v : Z) : Z := Z.max v lo.
Definition zero (x : Z) : Z := 0%Z.

Local Open Scope js_scope.

(** *** [follow] and [mapFrom]

    [this] is the slot that follows or is mapped into, [other] the slot it
    takes its value from; the listener [l] is subscribed to [other], and
    [this] has no listener of these relations.  [Set1] is a call of
    [this.set] and [Set2] one of [other.set]. *)
Section Flow.
Context {V : Type} `{EqDecision V}.
Variables adapt1 adapt2 : V → V → V.
Variable f : V → V.

Record FlowState := mkFlowState {
  this_value : V;
  src_value : V;
  flow_calls : list (SetCall V);
}.

Definition this_set (v : V) : M FlowState unit :=
  λ st, (Return tt,
         mkFlowState (adapt1 (this_value st) v) (src_value st)
                     (flow_calls st ++ [Set1 v])).

(** The listener of [follow]. *)
Definition follow_l : M FlowState unit :=
  let! st := get_state in
  if decide (this_value st = src_value st) then ret tt
  else this_set (src_value st).

(** The listener of [mapFrom]. *)
Definition mapFrom_l : M FlowState unit :=
  let! st := get_state in
  this_set (f (src_value st)).

(** [other.set(v)], with the listener [l] subscribed to [other]. *)
Definition other_set (l : M FlowState unit) (v : V) : M FlowState unit :=
  λ st,
    let v' := adapt2 (src_value st) v in
    let st' := mkFlowState (this_value st) v' (flow_calls st ++ [Set2 v]) in
    if decide (v' = src_value st) then (Return tt, st') else l st'.

(** [this.follow(other)] and [this.mapFrom(other, f)] on slots that hold
    [a] and [b]: the listener runs once, then it is subscribed. *)
Definition follow (a b : V) : Outcome unit * FlowState :=
  follow_l (mkFlowState a b []).

Definition mapFrom (a b : V) : Outcome unit * FlowState :=
  mapFrom_l (mkFlowState a b []).

(** Later calls of [set] from outside. *)
Inductive FlowOp :=
  | ThisSet (v : V)
  | OtherSet (v : V).

Definition flow_op (l : M FlowState unit) (op : FlowOp) : M FlowState unit :=
  match op with
  | ThisSet v => this_set v
  | OtherSet v => other_set l v
  end.

Definition flow_run (l : M FlowState unit) (ops : list FlowOp)
    : M FlowState unit :=
  for_each ops (flow_op l).

(** What the sets from outside alone make of [other]'s value, and the
    calls of [other.set] among them. *)
Definition src_after (b : V) (ops : list FlowOp) : V :=
  foldl (λ v op, match op with
                 | OtherSet x => adapt2 v x
                 | ThisSet _ => v
                 end) b ops.

Definition other_sets (ops : list FlowOp) : list (SetCall V) :=
  omap (λ op, match op with
              | OtherSet x => Some (Set2 x)
              | ThisSet _ => None
              end) ops.

Definition is_OtherSet (op : FlowOp) : bool :=
  match op with OtherSet _ => true | ThisSet _ => false end.

End Flow.

(** *** The reversed forms

    [a.linkTo(b)] is [b.linkFrom(a)], and [a.relateFrom(b, f, fPrime)] is
    [b.relateTo(a, fPrime, f)], which passes no [expectUnstable].  In the
    states of these runs the first slot is [b], the receiver of the inner
    call. *)
Definition linkTo {V} `{EqDecision V} (adapt1 adapt2 : V → V → V)
    (fuel : nat) (a b : V) : Outcome unit * LinkState :=
  linkFrom adapt2 adapt1 fuel b a.

Definition relateFrom {V} `{EqDecision V} (adapt1 adapt2 : V → V → V)
    (f fPrime : V → V) (fuel : nat) (a b : V) : Outcome unit * RelState :=
  relateTo adapt2 adapt1 fPrime f false fuel b a.

End Slot.

(** ** stdlib.js: the flyweight types [foam.String], [foam.Array],
    [foam.Number], [foam.Object], and [foam.package] *)

Module FoamStdlib.

Local Open Scope Z_scope.

(** *** Numbers with integer values, and the 32-bit operators

    [ToInt32] is the conversion that [<<] and [&] apply to their operands
    and to their result; the other arithmetic is exact on the values that
    occur here, which stay far below 2^53. *)
Definition ToInt32 (x : Z) : Z :=
  (x + 2147483648) mod 4294967296 - 2147483648.

(** [x << n] and [x & y]. *)
Definition shl (x n : Z) : Z :=
  ToInt32 (Z.shiftl (ToInt32 x) (n mod 32)).

Definition band (x y : Z) : Z :=
  ToInt32 (Z.land (ToInt32 x) (ToInt32 y)).

(** [foam.String.hashCode(s)]; a string is the list of its UTF-16 code
    units, which [charCodeAt] reads. *)
Definition String_hashCode (s : list Z) : Z :=
  foldl (λ hash code,
           let hash := (shl hash 5 - hash) + code in
           band hash hash)
        0 s.

(** [foam.Number.hashCode(n)]: [n & n]. *)
Definition Number_hashCode (n : Z) : Z := band n n.

(** [foam.Number.compare(a, b)]; [None] is a [b] that is [null] or
    [undefined]. *)
Definition Number_compare (a : Z) (b : option Z) : Z :=
  match b with
  | None => 1
  | Some b => if decide (a < b) then -1 else if decide (a > b) then 1 else 0
  end.

(** The polynomial in 31 that Java's [String.hashCode] computes. *)
Definition poly31 (s : list Z) : Z :=
  foldl (λ h c, 31 * h + c) 0 s.

(** *** [foam.Array]: arrays as lists; [foam.util.equals],
    [foam.util.compare] and [foam.util.hashCode] on the elements are
    given. *)
Section Arrays.
Context {V : Type}.
Variable equals : V → V → bool.
Variable compare : V → V → Z.
Variable hashCode : V → Z.

(** The inner loop of [diff], from [j = length pre] on: the value of [j]
    and the array [added] when the loop is left.  On a match the element
    is spliced out, [j] is decremented and the loop is left by [break];
    without one the loop ends with [j === added.length]. *)
Fixpoint diff_scan (x : V) (pre post : list V) : Z * list V :=
  match post with
  | [] => (Z.of_nat (length pre), pre)
  | y :: post' =>
      if equals x y then (Z.of_nat (length pre) - 1, pre ++ post')
      else diff_scan x (pre ++ [y]) post'
  end.

(** [foam.Array.diff(a, b)]: the pair of [added] and [removed]. *)
Definition Array_diff (a b : list V) : list V * list V :=
  foldl (λ '(added, removed) x,
           let '(j, added') := diff_scan x [] added in
           (added',
            if decide (j = Z.of_nat (length added')) then removed ++ [x]
            else removed))
        (b, []) a.

(** [foam.Array.equals(a, b)] for an array [b]. *)
Fixpoint all_equal (a b : list V) : bool :=
  match a, b with
  | x :: a', y :: b' => if equals x y then all_equal a' b' else false
  | _, _ => true
  end.

Definition Array_equals (a b : list V) : bool :=
  if decide (length a ≠ length b) then false else all_equal a b.

(** [foam.Array.compare(a, b)]; [None] is a [b] that is falsy or not an
    array. *)
Fixpoint first_nonzero (cs : list Z) : option Z :=
  match cs with
  | [] => None
  | c :: cs' => if decide (c ≠ 0) then Some c else first_nonzero cs'
  end.

Definition Array_compare (a : list V) (b : option (list V)) : Z :=
  match b with
  | None => 1
  | Some b =>
      let l := Nat.min (length a) (length b) in
      match first_nonzero (zip_with compare (take l a) (take l b)) with
      | Some c => c
      | None =>
          if decide (length a = length b) then 0
          else if decide (length a < length b)%nat then -1 else 1
      end
  end.

(** [foam.Array.hashCode(a)]: as for strings, but without [hash &= hash]. *)
Definition Array_hashCode (a : list V) : Z :=
  foldl (λ hash x, (shl hash 5 - hash) + hashCode x) 0 a.

(** [foam.Array.remove(a, o)]: the array after the loop that starts at
    index [i]; [a.splice(i, 1)] deletes the element at [i], and the
    index moves on all the same.  [None] is a loop that has not ended
    within [fuel] turns. *)
Fixpoint remove_from (fuel : nat) (o : V) (a : list V) (i : nat)
    : option (list V) :=
  match a !! i with
  | None => Some a
  | Some x =>
      match fuel with
      | O => None
      | S fuel' =>
          if equals o x then remove_from fuel' o (delete i a) (S i)
          else remove_from fuel' o a (S i)
      end
  end.

Definition Array_remove (a : list V) (o : V) : option (list V) :=
  remove_from (length a) o a 0.

(** What that loop leaves of a list: an element that matches is dropped,
    and the element after it is passed over. *)
Fixpoint skip_remove (o : V) (l : list V) : list V :=
  match l with
  | [] => []
  | x :: l' =>
      if equals o x then
        match l' with
        | [] => []
        | y :: l'' => y :: skip_remove o l''
        end
      else x :: skip_remove o l'
  end.

(** No two neighbours of the list both match [o]. *)
Fixpoint no_adjacent (o : V) (l : list V) : Prop :=
  match l with
  | x :: (y :: _) as l' =>
      (equals o x = true → equals o y = false) ∧ no_adjacent o l'
  | _ => True
  end.

End Arrays.

(** *** [foam.String.pad]: a string as the list of its code units *)
Section Pad.
Context {C : Type}.
Variable space : C.

(** [new Array(n).join(' ')] for an [n] with an integer value: [n - 1]
    separators, none for [n = 0]; [None] is the [RangeError] of an array
    length that is not below 2^32. *)
Definition spaces (n : Z) : option (list C) :=
  if decide (0 ≤ n < 4294967296)
  then Some (replicate (Z.to_nat n - 1) space)
  else None.

(** [str.slice(start)] with a negative [start], and [str.substring(0,
    end)]. *)
Definition slice_from (s : list C) (start : Z) : list C :=
  drop (Z.to_nat (Z.max (Z.of_nat (length s) + start) 0)) s.

Definition substring_to (s : list C) (e : Z) : list C :=
  take (Z.to_nat e) s.

(** [foam.String.pad(str, size)] for a [size] with an integer value. *)
Definition String_pad (str : list C) (size : Z) : option (list C) :=
  if decide (size < 0)
  then sp ← spaces (- size); Some (slice_from (sp ++ str) size)
  else sp ← spaces size; Some (substring_to (str ++ sp) size).

End Pad.

End FoamStdlib.

(** ** stdlib.js: [$UID] and [foam.next$UID] of core/stdlib.js,
    [foam.Object.freeze], [foam.Object.compare] and [foam.package] *)

Module FoamObject.
Import Stdlib.Strings.Ascii FoamStdlib.
Local Open Scope js_scope.

(** *** [$UID], [foam.Object.freeze] and [foam.Object.compare]

    What the getter uses of an object: its own [$UID__] when it has one,
    and whether the object is frozen.  [uid_counter] is the variable [id]
    of [foam.next$UID]. *)
Abbreviation loc := nat (only parsing).

Record JSObject := mkJSObject {
  obj_UID__ : option Z;
  obj_frozen : bool;
}.

Record UHeap := mkUHeap {
  uobjects : gmap loc JSObject;
  unext_loc : loc;
  uid_counter : Z;
}.

Definition empty_uheap : UHeap := mkUHeap ∅ 0 1.

(** [foam.next$UID()]: [return id++]. *)
Definition next_UID : M UHeap Z :=
  λ h, (Return (uid_counter h),
        mkUHeap (uobjects h) (unext_loc h) (uid_counter h + 1)%Z).

(** A new object, [{}]. *)
Definition new_object : M UHeap loc :=
  λ h, (Return (unext_loc h),
        mkUHeap (<[unext_loc h := mkJSObject None false]> (uobjects h))
                (S (unext_loc h)) (uid_counter h)).

(** The getter of [$UID] on [Object.prototype].  The argument of
    [Object.defineProperty] is evaluated first, so an id is taken before
    the definition fails on a frozen object. *)
Definition get_UID (o : loc) : M UHeap Z :=
  let! h := get_state in
  match uobjects h !! o with
  | None => throw TypeError
  | Some ob =>
      match obj_UID__ ob with
      | Some u => ret u
      | None =>
          let! u := next_UID in
          if obj_frozen ob then throw TypeError
          else
            λ h', (Return u,
                   mkUHeap (<[o := mkJSObject (Some u) false]> (uobjects h'))
                           (unext_loc h') (uid_counter h'))
      end
  end.

(** [Object.freeze(o)]. *)
Definition Object_freeze (o : loc) : M UHeap unit :=
  λ h, match uobjects h !! o with
       | None => (Throw TypeError, h)
       | Some ob =>
           (Return tt,
            mkUHeap (<[o := mkJSObject (obj_UID__ ob) true]> (uobjects h))
                    (unext_loc h) (uid_counter h))
       end.

(** [foam.Object.freeze(o)]: [o.$UID; Object.freeze(o);]. *)
Definition foam_Object_freeze (o : loc) : M UHeap unit :=
  run! get_UID o in
  Object_freeze o.

(** [foam.Object.compare(a, b)]: [foam.Number.compare(a.$UID, b ? b.$UID
    : -1)]; [None] is a falsy [b]. *)
Definition Object_compare (a : loc) (b : option loc) : M UHeap Z :=
  let! ua := get_UID a in
  let! ub := match b with
             | Some b => get_UID b
             | None => ret (-1)%Z
             end in
  ret (Number_compare ua (Some ub)).

(** The steps of a program on the objects. *)
Inductive UOp :=
  | UNew
  | UTake
  | UGet (o : loc)
  | UFreeze (o : loc)
  | UFoamFreeze (o : loc)
  | UCompare (a : loc) (b : option loc).

Definition run_uop (op : UOp) (h : UHeap) : UHeap :=
  match op with
  | UNew => (new_object h).2
  | UTake => (next_UID h).2
  | UGet o => (get_UID o h).2
  | UFreeze o => (Object_freeze o h).2
  | UFoamFreeze o => (foam_Object_freeze o h).2
  | UCompare a b => (Object_compare a b h).2
  end.

Definition run_uops (ops : list UOp) : UHeap :=
  foldl (λ h op, run_uop op h) empty_uheap ops.

(** Ids in use are positive, below the counter, and not shared. *)
Definition uid_inv (h : UHeap) : Prop :=
  (1 ≤ uid_counter h)%Z ∧
  (∀ o ob u, uobjects h !! o = Some ob → obj_UID__ ob = Some u →
     (1 ≤ u < uid_counter h)%Z) ∧
  (∀ o1 o2 ob1 ob2 u,
     uobjects h !! o1 = Some ob1 → uobjects h !! o2 = Some ob2 →
     obj_UID__ ob1 = Some u → obj_UID__ ob2 = Some u → o1 = o2) ∧
  (∀ o ob, uobjects h !! o = Some ob → o < unext_loc h).

(** *** [foam.package]: [ensurePackage] and [registerClass]

    The objects of the global name space, each with its properties; a
    property holds an object, so that what [node[key]] yields is truthy
    when the key is there. *)
Record PHeap := mkPHeap {
  pobjects : gmap loc (gmap string loc);
  pnext_loc : loc;
}.

(** [path.split('.')]. *)
Fixpoint split_dots (s : string) : list string :=
  match s with
  | EmptyString => [EmptyString]
  | String c s' =>
      if decide (c = "."%char) then EmptyString :: split_dots s'
      else match split_dots s' with
           | [] => [String c EmptyString]
           | w :: ws => String c w :: ws
           end
  end.

(** [node = node[key] || ( node[key] = {} )]. *)
Definition ensure_step (node : loc) (key : string) : M PHeap loc :=
  λ h, match pobjects h !! node with
       | None => (Throw TypeError, h)
       | Some o =>
           match o !! key with
           | Some v => (Return v, h)
           | None =>
               (Return (pnext_loc h),
                mkPHeap (<[pnext_loc h := ∅]>
                           (<[node := <[key := pnext_loc h]> o]> (pobjects h)))
                        (S (pnext_loc h)))
           end
       end.

Fixpoint ensure_walk (node : loc) (keys : list string) : M PHeap loc :=
  match keys with
  | [] => ret node
  | key :: keys' =>
      let! node' := ensure_step node key in
      ensure_walk node' keys'
  end.

(** [ensurePackage(root, path)]; [None] is a [path] that is [null] or
    [undefined]. *)
Definition ensurePackage (root : loc) (path : option string) : M PHeap loc :=
  match path with
  | None => ret root
  | Some p =>
      if decide (p = "") then ret root
      else ensure_walk root (split_dots p)
  end.

(** [pkg[name] = cls]. *)
Definition set_property (node : loc) (key : string) (v : loc) : M PHeap unit :=
  λ h, match pobjects h !! node with
       | None => (Throw TypeError, h)
       | Some o =>
           (Return tt,
            mkPHeap (<[node := <[key := v]> o]> (pobjects h)) (pnext_loc h))
       end.

(** [registerClass(cls)], with [cls.name] (when it is a string) and
    [cls.package] as [registerClass] reads them from the class;
    [foam.assert] fails with [InvalidArgument]. *)
Definition registerClass (global : loc) (cls : loc) (cls_name : option string)
    (cls_package : option string) : M PHeap unit :=
  match cls_name with
  | None => throw InvalidArgument
  | Some name =>
      run! assert (negb (bool_decide (name = ""))) InvalidArgument in
      let! pkg := ensurePackage global cls_package in
      set_property pkg name cls
  end.

(** Reading a path of properties from an object. *)
Fixpoint resolve (h : PHeap) (node : loc) (keys : list string) : option loc :=
  match keys with
  | [] => Some node
  | key :: keys' =>
      match pobjects h !! node with
      | None => None
      | Some o =>
          match o !! key with
          | None => None
          | Some v => resolve h v keys'
          end
      end
  end.

(** The keys of a package path, as [ensurePackage] walks them. *)
Definition package_keys (path : option string) : list string :=
  match path with
  | None => []
  | Some p => if decide (p = "") then [] else split_dots p
  end.

(** Every property holds an object of the heap, and every object is older
    than the next one. *)
Definition pheap_wf (h : PHeap) : Prop :=
  ∀ l o, pobjects h !! l = Some o →
    l < pnext_loc h ∧
    ∀ k v, o !! k = Some v → is_Some (pobjects h !! v).

(** [h'] has what [h] has, and more. *)
Definition pheap_extends (h h' : PHeap) : Prop :=
  ∀ l o, pobjects h !! l = Some o →
    ∃ o', pobjects h' !! l = Some o' ∧ o ⊆ o'.

(** A heap with a global object and one class object, both without
    properties. *)
Definition ex_pheap : PHeap := mkPHeap {[0 := ∅; 1 := ∅]} 2.

End FoamObject.

(** * Properties *)

Module ContextTheory.
Import Context.
Local Open Scope js_scope.

Lemma cache_get_from_enough cs l id n :
  (∀ l o, cs !! l = Some o → ∀ p, cache_proto o = Some p → p < l) →
  l < n →
  cache_get_from n cs l id = cache_get cs l id.
Proof.
  intros Hwf. unfold cache_get.
  revert n. induction l as [l IH] using lt_wf_ind. intros n Hn.
  destruct n as [|n]; [lia|]. simpl.
  destruct (cs !! l) as [o|] eqn:Hl; [|done].
  destruct (cache_own o !! id); [done|].
  destruct (cache_proto o) as [p|] eqn:Hp; [|done].
  pose proof (Hwf _ _ Hl _ Hp) as Hlt.
  rewrite (IH p Hlt n) by lia.
  destruct l as [|l]; [lia|].
  rewrite (IH p Hlt (S l)) by lia. done.
Qed.

Lemma cache_get_unfold w l id o :
  wf_world w →
  caches w !! l = Some o →
  cache_get (caches w) l id =
    match cache_own o !! id with
    | Some c => Some c
    | None => match cache_proto o with
              | Some p => cache_get (caches w) p id
              | None => None
              end
    end.
Proof.
  intros Hwf Hl. unfold cache_get at 1. simpl. rewrite Hl.
  destruct (cache_own o !! id); [done|].
  destruct (cache_proto o) as [p|] eqn:Hp; [|done].
  apply cache_get_from_enough.
  - intros l' o' Hl' p' Hp'. by apply (Hwf _ _ Hl').
  - by apply (Hwf _ _ Hl).
Qed.

Lemma ContextObj_parent_ind (P : ContextObj → Prop) :
  (∀ n b l u fr, P (mkContext n b l u None fr)) →
  (∀ n b l u p fr, P p → P (mkContext n b l u (Some p) fr)) →
  ∀ c, P c.
Proof.
  intros Hroot Hsub. fix IH 1.
  intros [n b l u [p|] fr]; [apply Hsub, IH | apply Hroot].
Qed.

(** A later store extends an earlier one when every cache is still there
    and still delegates to the same prototype. *)
Lemma wf_ctx_extend w w' c :
  (∀ l o, caches w !! l = Some o →
     ∃ o', caches w' !! l = Some o' ∧ cache_proto o' = cache_proto o) →
  wf_ctx w c → wf_ctx w' c.
Proof.
  intros Hext. induction c as [n b l u fr|n b l u p fr IH]
    using ContextObj_parent_ind; simpl.
  - intros (-> & o & Hl & Hp). split; [done|].
    destruct (Hext _ _ Hl) as (o' & Hl' & Hp'). exists o'. split; congruence.
  - intros (-> & o & Hl & Hp & Hwf). split; [done|].
    destruct (Hext _ _ Hl) as (o' & Hl' & Hp'). exists o'.
    split; [done|]. split; [congruence|]. auto.
Qed.

Lemma wf_ctx_frozen w c : wf_ctx w c → ctx_frozen c = true.
Proof. destruct c; simpl. tauto. Qed.

Lemma wf_ctx_cache w c :
  wf_ctx w c → ∃ o, caches w !! ctx_cache c = Some o ∧
    cache_proto o = ctx_cache <$> ctx_proto c.
Proof.
  destruct c as [n b l u [p|] fr]; simpl.
  - intros (_ & o & Hl & Hp & _). eauto.
  - intros (_ & o & Hl & Hp). eauto.
Qed.

Lemma wf_ctx_parent w c p :
  wf_ctx w c → ctx_proto c = Some p → wf_ctx w p.
Proof.
  destruct c as [n b l u [p'|] fr]; simpl; [|done].
  intros (_ & o & _ & _ & Hp) [= ->]. done.
Qed.

(** *** What the primitive steps do *)

Lemma alloc_cache_wf o w :
  wf_world w →
  cache_frozen o = false →
  (∀ p, cache_proto o = Some p → is_Some (caches w !! p)) →
  wf_world (alloc_cache o w).2.
Proof.
  intros Hwf Hfr Hp l o'. simpl. rewrite lookup_insert.
  case_decide as Hl; simplify_eq.
  - intros [= <-]. split; [lia|]. split; [done|].
    intros p Hpo. destruct (Hp _ Hpo) as [op Hop].
    split; [by apply (Hwf _ _ Hop)|].
    rewrite lookup_insert_ne; [eauto|].
    pose proof (Hwf _ _ Hop) as [? _]. lia.
  - intros Hl'. destruct (Hwf _ _ Hl') as (Hlt & Hf & Hpr).
    split; [lia|]. split; [done|].
    intros p Hpo. destruct (Hpr _ Hpo) as [Hpl Hsome]. split; [done|].
    rewrite lookup_insert_ne; [done|]. lia.
Qed.

Lemma alloc_cache_extend o w l o0 :
  wf_world w →
  caches w !! l = Some o0 →
  caches (alloc_cache o w).2 !! l = Some o0.
Proof.
  intros Hwf Hl. simpl. rewrite lookup_insert_ne; [done|].
  pose proof (Hwf _ _ Hl) as [? _]. lia.
Qed.

Lemma doRegister_eq cls l name w o :
  caches w !! l = Some o →
  cache_frozen o = false →
  doRegister cls l name w =
    if bool_decide (is_Some (cache_own o !! name))
    then (Throw DuplicateRegistration, w)
    else (Return tt,
          mkWorld (<[l := mkCache (cache_proto o)
                                  (<[name := cls]> (cache_own o)) false]>
                     (caches w))
                  (next_loc w) (next_uid w)).
Proof.
  intros Hl Hfr.
  unfold doRegister, bind, get_state, assert, hasOwnProperty, cache_assign.
  rewrite Hl. case_bool_decide; simpl; [done|]. by rewrite Hl, Hfr.
Qed.

Lemma doRegister_wf cls l name w :
  wf_world w → wf_world (doRegister cls l name w).2.
Proof.
  intros Hwf. destruct (caches w !! l) as [o|] eqn:Hl.
  - destruct (Hwf _ _ Hl) as (Hlt & Hfr & Hpr).
    rewrite (doRegister_eq _ _ _ _ _ Hl Hfr).
    case_bool_decide; simpl; [done|].
    intros l' o'. simpl. rewrite lookup_insert.
    case_decide as Hll; simplify_eq.
    + intros [= <-]. simpl. split; [done|]. split; [done|].
      intros p Hp. destruct (Hpr _ Hp) as [? [op Hop]]. split; [done|].
      rewrite lookup_insert. case_decide; eauto.
    + intros Hl'. destruct (Hwf _ _ Hl') as (? & ? & Hpr').
      split; [done|]. split; [done|].
      intros p Hp. destruct (Hpr' _ Hp) as [? [op Hop]]. split; [done|].
      rewrite lookup_insert. case_decide; eauto.
  - unfold doRegister, bind, get_state, assert, hasOwnProperty, cache_assign.
    rewrite Hl. simpl. by rewrite Hl.
Qed.

Lemma doRegister_extend cls l name w l' o :
  caches w !! l' = Some o →
  ∃ o', caches (doRegister cls l name w).2 !! l' = Some o' ∧
        cache_proto o' = cache_proto o.
Proof.
  intros Hl'.
  unfold doRegister, bind, get_state, assert, hasOwnProperty, cache_assign.
  destruct (caches w !! l) as [ol|] eqn:Hl; simpl.
  - case_bool_decide; simpl; [eauto|]. rewrite Hl.
    destruct (cache_frozen ol); simpl; [eauto|].
    rewrite lookup_insert. case_decide; simplify_eq; eauto.
  - rewrite Hl. simpl. eauto.
Qed.

Lemma doRegister_other cls l name w l' :
  l' ≠ l →
  caches (doRegister cls l name w).2 !! l' = caches w !! l'.
Proof.
  intros Hne.
  unfold doRegister, bind, get_state, assert, hasOwnProperty, cache_assign.
  destruct (caches w !! l) as [ol|] eqn:Hl; simpl.
  - case_bool_decide; simpl; [done|]. rewrite Hl.
    destruct (cache_frozen ol); simpl; [done|].
    by rewrite lookup_insert_ne.
  - by rewrite Hl.
Qed.

Lemma register_snd this cls w :
  (register this cls w).2 =
    let w1 := (doRegister cls (ctx_cache this) (cls_id cls) w).2 in
    match (doRegister cls (ctx_cache this) (cls_id cls) w).1 with
    | Return _ =>
        if bool_decide (cls_package cls = Some "foam.core")
        then (doRegister cls (ctx_cache this) (cls_name cls) w1).2
        else w1
    | Throw _ => w1
    end.
Proof.
  unfold register, bind.
  destruct (doRegister cls (ctx_cache this) (cls_id cls) w) as [[[]|f] w1];
    simpl; [|done].
  by case_bool_decide.
Qed.

Lemma register_wf this cls w : wf_world w → wf_world (register this cls w).2.
Proof.
  intros Hwf. rewrite register_snd. simpl.
  pose proof (doRegister_wf cls (ctx_cache this) (cls_id cls) w Hwf) as Hwf1.
  destruct (doRegister cls (ctx_cache this) (cls_id cls) w).1; [|done].
  case_bool_decide; [|done]. by apply doRegister_wf.
Qed.

Lemma register_extend this cls w l o :
  caches w !! l = Some o →
  ∃ o', caches (register this cls w).2 !! l = Some o' ∧
        cache_proto o' = cache_proto o.
Proof.
  intros Hl. rewrite register_snd. simpl.
  destruct (doRegister_extend cls (ctx_cache this) (cls_id cls) w _ _ Hl)
    as (o1 & Hl1 & Hp1).
  destruct (doRegister cls (ctx_cache this) (cls_id cls) w).1; [|eauto].
  case_bool_decide; [|eauto].
  destruct (doRegister_extend cls (ctx_cache this) (cls_name cls) _ _ _ Hl1)
    as (o2 & Hl2 & Hp2).
  exists o2. split; [done|congruence].
Qed.

Lemma register_other this cls w l :
  l ≠ ctx_cache this →
  caches (register this cls w).2 !! l = caches w !! l.
Proof.
  intros Hne. rewrite register_snd. simpl.
  pose proof (doRegister_other cls (ctx_cache this) (cls_id cls) w l Hne) as H1.
  destruct (doRegister cls (ctx_cache this) (cls_id cls) w).1; [|done].
  case_bool_decide; [|done]. by rewrite doRegister_other.
Qed.

Lemma copy_bindings n l u p (args : gmap string string) :
  map_fold (λ key v s, ctx_assign s key v) (mkContext n ∅ l u p false) args =
  mkContext n args l u p false.
Proof.
  apply (map_fold_weak_ind
           (λ r (m : gmap string string), r = mkContext n m l u p false)).
  - done.
  - intros i x m r _ ->. done.
Qed.

Lemma createSubContext_eq this opt_args opt_name w :
  createSubContext this opt_args opt_name w =
    (Return (mkContext
               match opt_name with
               | Some n => if bool_decide (n = "") then None else Some n
               | None => None
               end
               opt_args (next_loc w) (next_uid w) (Some this) true),
     mkWorld (<[next_loc w := mkCache (Some (ctx_cache this)) ∅ false]>
                (caches w))
             (S (next_loc w)) (S (next_uid w))).
Proof.
  unfold createSubContext, bind, alloc_cache, next_UID, ret. simpl.
  by rewrite copy_bindings.
Qed.

Lemma create_root_eq :
  create_root empty_world =
    (Return (mkContext None ∅ 0 1 None true),
     mkWorld {[0 := mkCache None ∅ false]} 1 2).
Proof. done. Qed.

(** *** The invariant of the reachable states *)

Lemma reachable_wf w cs :
  reachable w cs → wf_world w ∧ ∀ c, c ∈ cs → wf_ctx w c.
Proof.
  induction 1 as [w root Hroot
                 |w cs this args name sub w' _ [IHw IHc] Hin Hsub
                 |w cs this cls r w' _ [IHw IHc] Hin Hreg].
  - rewrite create_root_eq in Hroot. simplify_eq. split.
    + intros l o. simpl. rewrite lookup_singleton.
      case_decide; [|done]. intros [= <-]. simpl.
      split; [lia|]. split; [done|]. done.
    + intros c ->%list_elem_of_singleton. simpl. split; [done|].
      eexists. split; [apply lookup_singleton_eq|done].
  - rewrite createSubContext_eq in Hsub. simplify_eq.
    destruct (wf_ctx_cache _ _ (IHc _ Hin)) as (o & Ho & _).
    set (w1 := mkWorld _ _ _).
    split.
    { intros l o'. apply (alloc_cache_wf
        (mkCache (Some (ctx_cache this)) ∅ false) w); [done..|].
      intros p [= <-]. eauto. }
    assert (Hext : ∀ c, c ∈ cs → wf_ctx w1 c).
    { intros c Hc. apply (wf_ctx_extend w); [|by apply IHc].
      intros l o' Hl. exists o'. split; [|done].
      by apply (alloc_cache_extend
        (mkCache (Some (ctx_cache this)) ∅ false) w). }
    intros c [->|Hc]%elem_of_cons; [|by apply Hext].
    simpl. split; [done|]. eexists. split; [apply lookup_insert_eq|].
    simpl. split; [done|]. by apply Hext.
  - assert (w' = (register this cls w).2) as -> by by rewrite Hreg.
    split; [by apply register_wf|].
    intros c Hc. apply (wf_ctx_extend w); [|by apply IHc].
    intros l o Hl. by apply register_extend.
Qed.

(** *** Lookup follows the chain of contexts *)

Lemma cache_get_chain w c id :
  wf_world w → wf_ctx w c →
  cache_get (caches w) (ctx_cache c) id = nearest_binding w (ctx_chain c) id.
Proof.
  intros Hwf. induction c as [n b l u fr|n b l u p fr IH]
    using ContextObj_parent_ind.
  - intros (_ & o & Hl & Hp). simpl in *.
    rewrite (cache_get_unfold _ _ _ _ Hwf Hl).
    unfold own_binding. simpl. rewrite Hl, Hp.
    by destruct (cache_own o !! id).
  - intros (_ & o & Hl & Hp & Hwfp). simpl in *.
    rewrite (cache_get_unfold _ _ _ _ Hwf Hl).
    unfold own_binding at 1. simpl. rewrite Hl, Hp.
    destruct (cache_own o !! id); [done|]. rewrite IH by done.
    by destruct p.
Qed.

Lemma lookup_eq this id opt_suppress w :
  lookup this id opt_suppress w =
    match cache_get (caches w) (ctx_cache this) id with
    | Some cls => (Return (Some cls), w)
    | None => if opt_suppress then (Return None, w)
              else (Throw UnresolvedReference, w)
    end.
Proof.
  unfold lookup, bind, get_state, assert, ret, throw.
  destruct opt_suppress; simpl.
  - by destruct (cache_get _ _ _).
  - by destruct (cache_get _ _ _).
Qed.

Lemma register_eq this cls w o :
  caches w !! ctx_cache this = Some o →
  cache_frozen o = false →
  register this cls w =
    if bool_decide (is_Some (cache_own o !! cls_id cls))
    then (Throw DuplicateRegistration, w)
    else
      let own1 := <[cls_id cls := cls]> (cache_own o) in
      let w1 := mkWorld (<[ctx_cache this := mkCache (cache_proto o) own1 false]>
                           (caches w)) (next_loc w) (next_uid w) in
      if bool_decide (cls_package cls = Some "foam.core")
      then if bool_decide (is_Some (own1 !! cls_name cls))
           then (Throw DuplicateRegistration, w1)
           else (Return tt,
                 mkWorld (<[ctx_cache this :=
                              mkCache (cache_proto o)
                                      (<[cls_name cls := cls]> own1) false]>
                            (caches w)) (next_loc w) (next_uid w))
      else (Return tt, w1).
Proof.
  intros Hl Hfr. unfold register, bind.
  rewrite (doRegister_eq _ _ _ _ _ Hl Hfr).
  case_bool_decide as Hid; [done|]. simpl.
  case_bool_decide as Hpkg; [|done].
  erewrite doRegister_eq; [|apply lookup_insert_eq|done]. simpl.
  case_bool_decide; [done|]. by rewrite insert_insert_eq.
Qed.

Lemma register_collides_own this cls w o :
  caches w !! ctx_cache this = Some o →
  register_collides w this cls ↔
    is_Some (cache_own o !! cls_id cls) ∨
    (cls_package cls = Some "foam.core" ∧
     is_Some (<[cls_id cls := cls]> (cache_own o) !! cls_name cls)).
Proof.
  intros Hl. unfold register_collides, own_binding. rewrite Hl.
  rewrite lookup_insert. case_decide as Heq.
  - split; (intros [?|[? ?]]; [by left|right; split; [done|]]); eauto.
  - split; (intros [?|[? H]]; [by left|right; split; [done|]]).
    + destruct H; [congruence|done].
    + by right.
Qed.

Lemma register_facts w cs c cls :
  reachable w cs → c ∈ cs →
  (fails_with DuplicateRegistration (register c cls w) ↔
     register_collides w c cls) ∧
  (succeeds (register c cls w) ↔ ¬ register_collides w c cls) ∧
  (∀ l, l ≠ ctx_cache c →
     caches (register c cls w).2 !! l = caches w !! l) ∧
  (¬ register_collides w c cls →
     ∀ id, own_binding (register c cls w).2 c id =
             if bool_decide (id ∈ registered_keys cls) then Some cls
             else own_binding w c id) ∧
  (succeeds (register c cls w) →
     ∀ id, id ∈ registered_keys cls →
       lookup c id false (register c cls w).2 =
         (Return (Some cls), (register c cls w).2)).
Proof.
  intros Hreach Hin.
  destruct (reachable_wf _ _ Hreach) as [Hwf Hctx].
  assert (Hreach' : reachable (register c cls w).2 cs).
  { eapply reach_register; [done..|]. apply surjective_pairing. }
  destruct (reachable_wf _ _ Hreach') as [Hwf' Hctx'].
  destruct (wf_ctx_cache _ _ (Hctx _ Hin)) as (o & Hl & _).
  destruct (Hwf _ _ Hl) as (_ & Hfr & _).
  pose proof (register_collides_own _ cls _ _ Hl) as Hcol.
  pose proof (register_eq _ cls _ _ Hl Hfr) as Heq.
  assert (Hown : ¬ register_collides w c cls →
     ∀ id, own_binding (register c cls w).2 c id =
             if bool_decide (id ∈ registered_keys cls) then Some cls
             else own_binding w c id).
  { intros Hno id. rewrite Hcol in Hno. rewrite Heq. clear Heq Hcol.
    unfold registered_keys, own_binding. rewrite Hl.
    rewrite bool_decide_eq_false_2 by tauto. simpl.
    destruct (decide (cls_package cls = Some "foam.core")) as [Hpkg|Hpkg].
    - rewrite !(bool_decide_eq_true_2 _ Hpkg).
      rewrite bool_decide_eq_false_2 by tauto. simpl.
      rewrite lookup_insert_eq. simpl. rewrite !lookup_insert.
      case_bool_decide as Hmem.
      + apply elem_of_cons in Hmem as [->|Hmem].
        * case_decide; [done|]. by rewrite decide_True.
        * apply list_elem_of_singleton in Hmem as ->. by rewrite decide_True.
      + rewrite !decide_False; [done|..];
          intros <-; apply Hmem; set_solver.
    - rewrite !(bool_decide_eq_false_2 _ Hpkg). simpl.
      rewrite lookup_insert_eq. simpl. rewrite lookup_insert.
      case_bool_decide as Hmem.
      + apply list_elem_of_singleton in Hmem as ->. by rewrite decide_True.
      + rewrite decide_False; [done|]. intros <-. apply Hmem. set_solver. }
  assert (Hsucc : succeeds (register c cls w) ↔ ¬ register_collides w c cls).
  { rewrite Hcol, Heq. clear Heq Hcol. unfold succeeds.
    repeat case_bool_decide; simpl; split;
      try (intros [? [=]]); try tauto; eauto. }
  split; [|split; [done|split; [by apply register_other|split; [done|]]]].
  - rewrite Hcol, Heq. clear Heq Hcol. unfold fails_with.
    repeat case_bool_decide; simpl; split; try done; try tauto.
  - intros Hs id Hid. rewrite lookup_eq.
    rewrite (cache_get_chain _ _ _ Hwf' (Hctx' _ Hin)).
    destruct c as [n b l u p fr]. simpl.
    apply Hsucc in Hs. rewrite (Hown Hs id).
    by rewrite bool_decide_eq_true_2.
Qed.

(** C6, as the code has it: [register] writes to the context's own cache
    only, under the class id and, for a class of package [foam.core], also
    under its short name.  It fails with [DuplicateRegistration] exactly
    when one of these keys is already an own key of that cache (or the two
    keys coincide); what the ancestors bind plays no part, and after a
    successful registration [lookup] on this context finds the new class
    under each of its keys, shadowing any ancestor's binding. *)
Theorem register_own_cache_only w cs c cls :
  reachable w cs → c ∈ cs →
  (fails_with DuplicateRegistration (register c cls w) ↔
     register_collides w c cls) ∧
  (succeeds (register c cls w) ↔ ¬ register_collides w c cls) ∧
  (∀ l, l ≠ ctx_cache c →
     caches (register c cls w).2 !! l = caches w !! l) ∧
  (¬ register_collides w c cls →
     ∀ id, own_binding (register c cls w).2 c id =
             if bool_decide (id ∈ registered_keys cls) then Some cls
             else own_binding w c id) ∧
  (succeeds (register c cls w) →
     ∀ id, id ∈ registered_keys cls →
       lookup c id false (register c cls w).2 =
         (Return (Some cls), (register c cls w).2)).
Proof. apply register_facts. Qed.


(** C10: every context, the root as well as every context made by
    [createSubContext], is a frozen object, so that an assignment to one of
    its bindings is ignored; its [__cache__] is an object of its own that is
    not frozen, and a registration that meets no taken key succeeds on the
    frozen context and is seen by [lookup] afterwards. *)
Theorem frozen_context_still_registers w cs c :
  reachable w cs → c ∈ cs →
  ctx_frozen c = true ∧
  (∀ key v, ctx_assign c key v = c) ∧
  (∃ o, caches w !! ctx_cache c = Some o ∧ cache_frozen o = false) ∧
  (∀ cls, ¬ register_collides w c cls →
     ∃ w', register c cls w = (Return tt, w') ∧
           reachable w' cs ∧
           own_binding w' c (cls_id cls) = Some cls ∧
           lookup c (cls_id cls) false w' = (Return (Some cls), w')).
Proof.
  intros Hreach Hin.
  destruct (reachable_wf _ _ Hreach) as [Hwf Hctx].
  pose proof (wf_ctx_frozen _ _ (Hctx _ Hin)) as Hfr.
  destruct (wf_ctx_cache _ _ (Hctx _ Hin)) as (o & Hl & _).
  split; [done|]. split.
  { intros key v. unfold ctx_assign. by rewrite Hfr. }
  split.
  { exists o. split; [done|]. by apply (Hwf _ _ Hl). }
  intros cls Hno.
  destruct (register_facts w cs c cls Hreach Hin)
    as (_ & Hsucc & _ & Hown & Hlook).
  pose proof (proj2 Hsucc Hno) as [[] Hr].
  exists (register c cls w).2. split.
  { rewrite <- Hr. apply surjective_pairing. }
  split.
  { eapply reach_register; [done..|]. apply surjective_pairing. }
  split.
  - rewrite (Hown Hno). rewrite bool_decide_eq_true_2; [done|].
    unfold registered_keys. case_bool_decide; apply elem_of_cons; by left.
  - apply Hlook; [by apply Hsucc|].
    unfold registered_keys. case_bool_decide; apply elem_of_cons; by left.
Qed.

(** C6 as the specification states it does not hold: the class [Slot]
    without a package is registered in the root context under the key
    [Slot]; the id [foam.core.Slot] is then not a key of the root's own
    cache, and yet registering the class [foam.core.Slot] fails with
    [DuplicateRegistration], on its short name. *)
Lemma register_fails_on_short_name :
  reachable ex_w1 [ex_root] ∧
  own_binding ex_w1 ex_root (cls_id ex_core_Slot) = None ∧
  fails_with DuplicateRegistration (register ex_root ex_core_Slot ex_w1).
Proof.
  split; [|by vm_compute].
  eapply reach_register; [by apply reach_root|by left|].
  apply surjective_pairing.
Qed.

Lemma reachable_ex_w2 : reachable ex_w2 [ex_sub; ex_root].
Proof.
  eapply reach_createSubContext with (this := ex_root) (opt_args := ∅)
                                     (opt_name := Some "sub").
  - eapply reach_register; [by apply reach_root|by left|].
    apply (surjective_pairing (register ex_root ex_Slot ex_w0)).
  - by left.
  - by vm_compute.
Qed.

Lemma register_own_cache_only_witness :
  reachable ex_w2 [ex_sub; ex_root] ∧ ex_sub ∈ [ex_sub; ex_root] ∧
  (succeeds (register ex_sub ex_Slot ex_w2) ↔
     ¬ register_collides ex_w2 ex_sub ex_Slot).
Proof.
  split; [exact reachable_ex_w2|]. split; [by left|].
  exact (proj1 (proj2 (register_own_cache_only ex_w2 [ex_sub; ex_root] ex_sub
                         ex_Slot reachable_ex_w2 (list_elem_of_here _ _)))).
Defined.

(** Shadowing, on the run: [Slot] is bound in the root; the sub-context
    registers it again without failure. *)
Example register_shadows_ancestor :
  own_binding ex_w2 ex_root "Slot" = Some ex_Slot ∧
  (register ex_sub ex_Slot ex_w2).1 = Return tt.
Proof. by vm_compute. Qed.


(** The specification's example: a class registered in a sub-context is
    found there and not in its parent. *)
Example lookup_sub_context_example :
  let w3 := (register ex_sub ex_core_Slot ex_w2).2 in
  (lookup ex_root "foam.core.Slot" true w3).1 = Return None ∧
  (lookup ex_root "foam.core.Slot" false w3).1 = Throw UnresolvedReference ∧
  (lookup ex_sub "foam.core.Slot" false w3).1 = Return (Some ex_core_Slot) ∧
  (lookup ex_sub "Slot" false ex_w2).1 = Return (Some ex_Slot) ∧
  (register ex_sub ex_core_Slot w3).1 = Throw DuplicateRegistration.
Proof. by vm_compute. Qed.

Lemma frozen_context_still_registers_witness :
  reachable ex_w2 [ex_sub; ex_root] ∧ ex_sub ∈ [ex_sub; ex_root] ∧
  ctx_frozen ex_sub = true.
Proof.
  split; [exact reachable_ex_w2|]. split; [by left|].
  exact (proj1 (frozen_context_still_registers ex_w2 [ex_sub; ex_root] ex_sub
                  reachable_ex_w2 (list_elem_of_here _ _))).
Defined.



(** *** Identities of the reachable contexts *)

Lemma doRegister_counters cls l name w :
  next_loc (doRegister cls l name w).2 = next_loc w ∧
  next_uid (doRegister cls l name w).2 = next_uid w.
Proof.
  unfold doRegister, bind, get_state, assert, cache_assign. simpl.
  destruct (negb (hasOwnProperty (caches w) l name)); simpl; [|done].
  destruct (caches w !! l) as [o|]; [|done].
  by destruct (cache_frozen o).
Qed.

Lemma register_counters this cls w :
  next_loc (register this cls w).2 = next_loc w ∧
  next_uid (register this cls w).2 = next_uid w.
Proof.
  rewrite register_snd. simpl.
  destruct (doRegister_counters cls (ctx_cache this) (cls_id cls) w)
    as [Hl Hu].
  destruct (doRegister cls (ctx_cache this) (cls_id cls) w) as [[[]|e] w1];
    simpl in *; [|done].
  case_bool_decide; [|done].
  destruct (doRegister_counters cls (ctx_cache this) (cls_name cls) w1)
    as [Hl' Hu'].
  split; congruence.
Qed.

Lemma reachable_ids w cs :
  reachable w cs →
  NoDup (ctx_UID <$> cs) ∧ NoDup (ctx_cache <$> cs) ∧
  (∀ c, c ∈ cs → 0 < ctx_UID c < next_uid w ∧ ctx_cache c < next_loc w) ∧
  (∀ c p, c ∈ cs → ctx_proto c = Some p → p ∈ cs).
Proof.
  induction 1 as [w root Hroot
                 |w cs this args name sub w' _ (IHu & IHl & IHb & IHp) Hin Hsub
                 |w cs this cls r w' _ (IHu & IHl & IHb & IHp) Hin Hreg].
  - rewrite create_root_eq in Hroot. simplify_eq. simpl.
    split; [apply NoDup_singleton|]. split; [apply NoDup_singleton|].
    split.
    + intros c ->%list_elem_of_singleton. simpl. lia.
    + by intros c p ->%list_elem_of_singleton.
  - rewrite createSubContext_eq in Hsub. simplify_eq. simpl.
    split; [|split; [|split]].
    + apply NoDup_cons. split; [|done].
      intros (c & Hc & Hcin)%list_elem_of_fmap.
      destruct (IHb _ Hcin) as [? _]. lia.
    + apply NoDup_cons. split; [|done].
      intros (c & Hc & Hcin)%list_elem_of_fmap.
      destruct (IHb _ Hcin) as [_ ?]. lia.
    + intros c [->|Hc]%elem_of_cons; simpl.
      * destruct (IHb _ Hin). lia.
      * destruct (IHb _ Hc). lia.
    + intros c p [->|Hc]%elem_of_cons; simpl.
      * intros [= <-]. by right.
      * intros Hp. right. by eapply IHp.
  - assert (w' = (register this cls w).2) as -> by by rewrite Hreg.
    destruct (register_counters this cls w) as [-> ->]. done.
Qed.

Lemma reachable_chain w cs d a :
  reachable w cs → d ∈ cs → a ∈ ctx_chain d → a ∈ cs.
Proof.
  intros Hr. destruct (reachable_ids _ _ Hr) as (_ & _ & _ & Hp).
  revert a. induction d as [n b l u fr|n b l u p fr IH]
    using ContextObj_parent_ind; intros a Hd; simpl.
  - by intros ->%list_elem_of_singleton.
  - intros [->|Ha]%elem_of_cons; [done|].
    apply IH; [by eapply Hp|]. by destruct p.
Qed.

Lemma reachable_cache_inj w cs a b :
  reachable w cs → a ∈ cs → b ∈ cs → ctx_cache a = ctx_cache b → a = b.
Proof.
  intros Hr Ha Hb Heq. destruct (reachable_ids _ _ Hr) as (_ & Hnd & _ & _).
  apply list_elem_of_lookup in Ha as [i Hi].
  apply list_elem_of_lookup in Hb as [j Hj].
  assert (i = j) as ->; [|congruence].
  eapply NoDup_lookup; [exact Hnd|..]; rewrite list_lookup_fmap.
  - by rewrite Hi.
  - rewrite Hj. simpl. by rewrite Heq.
Qed.

Lemma nearest_binding_ext w w' chain id :
  (∀ a, a ∈ chain → own_binding w' a id = own_binding w a id) →
  nearest_binding w' chain id = nearest_binding w chain id.
Proof.
  induction chain as [|a chain IH]; simpl; intros Hext; [done|].
  rewrite Hext by (by left). rewrite IH; [done|].
  intros b Hb. apply Hext. by right.
Qed.

Lemma nearest_binding_app w pre chain id :
  (∀ a, a ∈ pre → own_binding w a id = None) →
  nearest_binding w (pre ++ chain) id = nearest_binding w chain id.
Proof.
  induction pre as [|a pre IH]; simpl; intros Hnone; [done|].
  rewrite Hnone by (by left). apply IH. intros b Hb. apply Hnone. by right.
Qed.

Lemma ctx_chain_head c : ∃ rest, ctx_chain c = c :: rest.
Proof. destruct c as [n b l u [p|] fr]; simpl; eauto. Qed.

(** A context's cache is younger than the caches of its ancestors. *)
Lemma chain_cache_lt w d pre c :
  wf_world w → wf_ctx w d →
  ctx_chain d = pre ++ ctx_chain c →
  ∀ a, a ∈ pre → ctx_cache c < ctx_cache a.
Proof.
  intros Hwf. revert pre.
  induction d as [n b l u fr|n b l u p fr IH] using ContextObj_parent_ind;
    intros pre Hd Hchain a Ha.
  - destruct pre as [|x pre]; [by apply elem_of_nil in Ha|].
    simpl in Hchain. injection Hchain as _ Hnil.
    destruct (ctx_chain_head c) as [rest Hc]. rewrite Hc in Hnil.
    by destruct pre.
  - destruct pre as [|x pre]; [by apply elem_of_nil in Ha|].
    simpl in Hchain. injection Hchain as <- Hrest.
    destruct Hd as (_ & o & Hl & Hproto & Hwfp).
    assert (Hrest' : ctx_chain p = pre ++ ctx_chain c) by by destruct p.
    assert (Hcp : ctx_cache c ≤ ctx_cache p).
    { destruct pre as [|y pre].
      - simpl in Hrest'. destruct (ctx_chain_head p) as [r1 H1].
        destruct (ctx_chain_head c) as [r2 H2]. rewrite H1, H2 in Hrest'.
        by simplify_eq.
      - assert (ctx_cache c < ctx_cache p); [|lia].
        apply (IH (y :: pre) Hwfp Hrest').
        destruct (ctx_chain_head p) as [r1 H1]. rewrite H1 in Hrest'.
        simpl in Hrest'. injection Hrest' as -> _. by left. }
    destruct (Hwf _ _ Hl) as (_ & _ & Hlt).
    destruct (Hlt _ Hproto) as [Hlt' _].
    apply elem_of_cons in Ha as [->|Ha]; simpl.
    + lia.
    + by apply (IH pre Hwfp Hrest').
Qed.

Lemma lookup_chain w cs c id opt_suppress :
  reachable w cs → c ∈ cs →
  lookup c id opt_suppress w =
    (match nearest_binding w (ctx_chain c) id with
     | Some cls => Return (Some cls)
     | None => if opt_suppress then Return None
               else Throw UnresolvedReference
     end, w).
Proof.
  intros Hr Hin. destruct (reachable_wf _ _ Hr) as [Hwf Hctx].
  rewrite lookup_eq, (cache_get_chain _ _ _ Hwf (Hctx _ Hin)).
  destruct (nearest_binding w (ctx_chain c) id); [done|].
  by destruct opt_suppress.
Qed.

(** X1: A registration that fails on the short name has already stored the
    class under its id: [register] of a class of package [foam.core] whose
    id is free in the context's own cache, but whose short name is taken,
    fails with [DuplicateRegistration] after the first [doRegister], so
    that the id resolves to the class from then on and a second attempt
    fails on the id. *)
Theorem register_keeps_id_on_short_name_clash w cs c cls :
  reachable w cs → c ∈ cs →
  cls_package cls = Some "foam.core" →
  own_binding w c (cls_id cls) = None →
  cls_name cls = cls_id cls ∨ is_Some (own_binding w c (cls_name cls)) →
  let w' := (register c cls w).2 in
  (register c cls w).1 = Throw DuplicateRegistration ∧
  own_binding w' c (cls_id cls) = Some cls ∧
  (∀ l, l ≠ ctx_cache c → caches w' !! l = caches w !! l) ∧
  lookup c (cls_id cls) false w' = (Return (Some cls), w') ∧
  (register c cls w').1 = Throw DuplicateRegistration.
Proof.
  intros Hr Hin Hpkg Hid Hname w'.
  destruct (reachable_wf _ _ Hr) as [Hwf Hctx].
  destruct (wf_ctx_cache _ _ (Hctx _ Hin)) as (o & Ho & Hproto).
  destruct (Hwf _ _ Ho) as (_ & Hfr & _).
  assert (Hown : cache_own o !! cls_id cls = None).
  { unfold own_binding in Hid. by rewrite Ho in Hid. }
  assert (Hname' : is_Some (<[cls_id cls := cls]> (cache_own o) !! cls_name cls)).
  { rewrite lookup_insert. case_decide; [by eexists|].
    destruct Hname as [?|Hname]; [congruence|].
    unfold own_binding in Hname. by rewrite Ho in Hname. }
  assert (Hreg : register c cls w =
    (Throw DuplicateRegistration,
     mkWorld (<[ctx_cache c := mkCache (cache_proto o)
                                 (<[cls_id cls := cls]> (cache_own o)) false]>
                (caches w)) (next_loc w) (next_uid w))).
  { rewrite (register_eq _ _ _ _ Ho Hfr).
    rewrite bool_decide_eq_false_2 by (rewrite Hown; by intros [? ?]).
    simpl. rewrite bool_decide_eq_true_2 by done.
    by rewrite bool_decide_eq_true_2 by done. }
  subst w'. rewrite Hreg. simpl.
  set (w' := mkWorld _ _ _).
  assert (Ho' : caches w' !! ctx_cache c =
                Some (mkCache (cache_proto o)
                        (<[cls_id cls := cls]> (cache_own o)) false))
    by apply lookup_insert_eq.
  assert (Hwf' : wf_world w').
  { replace w' with (register c cls w).2 by by rewrite Hreg.
    by apply register_wf. }
  split; [done|]. split; [|split; [|split]].
  - unfold own_binding. rewrite Ho'. simpl. apply lookup_insert_eq.
  - intros l Hl. simpl. by rewrite lookup_insert_ne.
  - rewrite lookup_eq, (cache_get_unfold _ _ _ _ Hwf' Ho'). simpl.
    by rewrite lookup_insert_eq.
  - rewrite (register_eq _ _ _ _ Ho' eq_refl). simpl.
    rewrite bool_decide_eq_true_2; [done|].
    rewrite lookup_insert_eq. by eexists.
Qed.

Lemma reachable_ex_w1 : reachable ex_w1 [ex_root].
Proof.
  eapply reach_register; [by apply reach_root|by left|].
  apply (surjective_pairing (register ex_root ex_Slot ex_w0)).
Qed.

Lemma register_keeps_id_on_short_name_clash_witness :
  reachable ex_w1 [ex_root] ∧ ex_root ∈ [ex_root] ∧
  cls_package ex_core_Slot = Some "foam.core" ∧
  own_binding ex_w1 ex_root (cls_id ex_core_Slot) = None ∧
  is_Some (own_binding ex_w1 ex_root (cls_name ex_core_Slot)) ∧
  (register ex_root ex_core_Slot ex_w1).1 = Throw DuplicateRegistration ∧
  own_binding (register ex_root ex_core_Slot ex_w1).2 ex_root
    "foam.core.Slot" = Some ex_core_Slot.
Proof.
  assert (Hname : is_Some (own_binding ex_w1 ex_root (cls_name ex_core_Slot)))
    by (eexists; by vm_compute).
  split; [exact reachable_ex_w1|]. split; [by left|]. split; [done|].
  split; [done|]. split; [done|].
  destruct (register_keeps_id_on_short_name_clash ex_w1 [ex_root] ex_root
              ex_core_Slot reachable_ex_w1 (list_elem_of_here _ _)
              eq_refl eq_refl (or_intror Hname)) as (H1 & H2 & _).
  done.
Defined.

(** X2: A new sub-context resolves every id as its parent does: [createSubContext]
    always returns, the new context's cache has no key of its own, and
    neither the parent nor any other context resolves an id otherwise than
    before. *)
Theorem createSubContext_resolves_as_parent w cs this opt_args opt_name :
  reachable w cs → this ∈ cs →
  ∃ sub w',
    createSubContext this opt_args opt_name w = (Return sub, w') ∧
    ctx_proto sub = Some this ∧
    (∀ id, own_binding w' sub id = None) ∧
    (∀ id opt_suppress,
       (lookup sub id opt_suppress w').1 = (lookup this id opt_suppress w).1) ∧
    (∀ c id opt_suppress, c ∈ cs →
       (lookup c id opt_suppress w').1 = (lookup c id opt_suppress w).1).
Proof.
  intros Hr Hin.
  destruct (createSubContext this opt_args opt_name w) as [r w'] eqn:Hsub.
  pose proof Hsub as Hsub'. rewrite createSubContext_eq in Hsub'.
  injection Hsub' as <- Hw'.
  eexists _, w'. split; [done|]. split; [done|].
  assert (Hr' : reachable w' (_ :: cs))
    by (eapply reach_createSubContext; [exact Hr|exact Hin|];
        rewrite Hsub; f_equal; by rewrite createSubContext_eq in Hsub).
  destruct (reachable_ids _ _ Hr) as (_ & _ & Hb & _).
  assert (Hold : ∀ c id, c ∈ cs → own_binding w' c id = own_binding w c id).
  { intros c id Hc. unfold own_binding. subst w'. simpl.
    rewrite lookup_insert_ne; [done|]. destruct (Hb _ Hc). lia. }
  assert (Hnew : ∀ id, own_binding w'
            (mkContext
               match opt_name with
               | Some n => if bool_decide (n = "") then None else Some n
               | None => None
               end opt_args (next_loc w) (next_uid w) (Some this) true) id
            = None).
  { intros id. unfold own_binding. subst w'. simpl.
    by rewrite lookup_insert_eq. }
  assert (Hchain : ∀ c id, c ∈ cs →
            nearest_binding w' (ctx_chain c) id =
            nearest_binding w (ctx_chain c) id).
  { intros c id Hc. apply nearest_binding_ext. intros a Ha.
    apply Hold. by eapply reachable_chain. }
  split; [done|]. split.
  - intros id sup.
    rewrite (lookup_chain _ _ _ id sup Hr' (list_elem_of_here _ _)).
    rewrite (lookup_chain _ _ _ id sup Hr Hin).
    simpl. by rewrite Hnew, (Hchain _ id Hin).
  - intros c id sup Hc.
    rewrite (lookup_chain _ _ _ id sup Hr' (list_elem_of_further _ _ _ Hc)).
    rewrite (lookup_chain _ _ _ id sup Hr Hc). simpl.
    by rewrite Hchain.
Qed.

Lemma createSubContext_resolves_as_parent_witness :
  reachable ex_w1 [ex_root] ∧ ex_root ∈ [ex_root] ∧
  ∃ sub w',
    createSubContext ex_root ∅ (Some "sub") ex_w1 = (Return sub, w') ∧
    (lookup sub "Slot" false w').1 = (lookup ex_root "Slot" false ex_w1).1.
Proof.
  split; [exact reachable_ex_w1|]. split; [by left|].
  destruct (createSubContext_resolves_as_parent ex_w1 [ex_root] ex_root ∅
              (Some "sub") reachable_ex_w1 (list_elem_of_here _ _))
    as (sub & w' & Hsub & _ & _ & Hlook & _).
  exists sub, w'. split; [done|]. apply Hlook.
Defined.

(** X3: Delegation is live: a class registered in a context after its
    sub-contexts were made is found through every descendant, under each of
    its keys, unless a context between the descendant and the registering
    context binds the key itself. *)
Theorem register_shows_through_descendants w cs c d pre cls id :
  reachable w cs → c ∈ cs → d ∈ cs →
  ctx_chain d = pre ++ ctx_chain c →
  (∀ a, a ∈ pre → own_binding w a id = None) →
  succeeds (register c cls w) →
  id ∈ registered_keys cls →
  lookup d id false (register c cls w).2 =
    (Return (Some cls), (register c cls w).2).
Proof.
  intros Hr Hc Hd Hchain Hpre Hok Hid.
  destruct (reachable_wf _ _ Hr) as [Hwf Hctx].
  assert (Hr' : reachable (register c cls w).2 cs).
  { eapply reach_register; [exact Hr|exact Hc|]. apply surjective_pairing. }
  destruct (register_facts _ _ _ cls Hr Hc) as (_ & Hsucc & Hother & Hown & _).
  rewrite (lookup_chain _ _ _ id false Hr' Hd), Hchain.
  rewrite nearest_binding_app.
  - destruct (ctx_chain_head c) as [rest ->]. simpl.
    rewrite (Hown (proj1 Hsucc Hok) id).
    by rewrite bool_decide_eq_true_2.
  - intros a Ha. rewrite <- (Hpre a Ha). unfold own_binding.
    rewrite Hother; [done|].
    pose proof (chain_cache_lt _ _ _ _ Hwf (Hctx _ Hd) Hchain a Ha). lia.
Qed.

Lemma register_shows_through_descendants_witness :
  reachable ex_w2 [ex_sub; ex_root] ∧
  ctx_chain ex_sub = [ex_sub] ++ ctx_chain ex_root ∧
  succeeds (register ex_root (mkClass "demo.Thing" (Some "demo") "Thing")
              ex_w2) ∧
  lookup ex_sub "demo.Thing" false
    (register ex_root (mkClass "demo.Thing" (Some "demo") "Thing") ex_w2).2 =
    (Return (Some (mkClass "demo.Thing" (Some "demo") "Thing")),
     (register ex_root (mkClass "demo.Thing" (Some "demo") "Thing") ex_w2).2).
Proof.
  assert (Hok : succeeds (register ex_root
                            (mkClass "demo.Thing" (Some "demo") "Thing") ex_w2))
    by (by exists tt).
  split; [exact reachable_ex_w2|]. split; [done|]. split; [exact Hok|].
  apply (register_shows_through_descendants ex_w2 [ex_sub; ex_root] ex_root
           ex_sub [ex_sub] _ "demo.Thing" reachable_ex_w2).
  - by right; left.
  - by left.
  - done.
  - intros a ->%list_elem_of_singleton. by vm_compute.
  - exact Hok.
  - by left.
Defined.

(** X4: Registration stays local: whatever [register] does in a context, and
    whether it returns or fails, a context that does not descend from it
    resolves every id as before. *)
Theorem register_invisible_outside w cs c d cls id opt_suppress :
  reachable w cs → c ∈ cs → d ∈ cs →
  c ∉ ctx_chain d →
  (lookup d id opt_suppress (register c cls w).2).1 =
  (lookup d id opt_suppress w).1.
Proof.
  intros Hr Hc Hd Hout.
  assert (Hr' : reachable (register c cls w).2 cs).
  { eapply reach_register; [exact Hr|exact Hc|]. apply surjective_pairing. }
  rewrite (lookup_chain _ _ _ id opt_suppress Hr' Hd),
    (lookup_chain _ _ _ id opt_suppress Hr Hd). simpl.
  rewrite (nearest_binding_ext w); [done|].
  intros a Ha. unfold own_binding. rewrite register_other; [done|].
  intros Heq. apply Hout.
  assert (a = c) as <-; [|done].
  eapply reachable_cache_inj; [exact Hr| |exact Hc|exact Heq].
  by eapply reachable_chain.
Qed.

Lemma register_invisible_outside_witness :
  reachable ex_w2 [ex_sub; ex_root] ∧ (ex_sub ∉ ctx_chain ex_root) ∧
  (lookup ex_root "foam.core.Slot" true
     (register ex_sub ex_core_Slot ex_w2).2).1 =
  (lookup ex_root "foam.core.Slot" true ex_w2).1.
Proof.
  assert (Hout : ex_sub ∉ ctx_chain ex_root).
  { intros H%list_elem_of_singleton. discriminate H. }
  split; [exact reachable_ex_w2|]. split; [exact Hout|].
  apply (register_invisible_outside ex_w2 [ex_sub; ex_root] ex_sub ex_root
           ex_core_Slot "foam.core.Slot" true reachable_ex_w2).
  - by left.
  - by right; left.
  - exact Hout.
Defined.

(** X5: [foam.next$UID] numbers the contexts apart: in every reachable state
    the contexts made so far have pairwise different [$UID__]s, all of them
    positive and below the counter, and pairwise different caches. *)
Theorem contexts_have_unique_UIDs w cs :
  reachable w cs →
  NoDup (ctx_UID <$> cs) ∧
  NoDup (ctx_cache <$> cs) ∧
  (∀ c, c ∈ cs → 0 < ctx_UID c < next_uid w) ∧
  (∀ c p, c ∈ cs → ctx_proto c = Some p → p ∈ cs ∧ ctx_UID p < ctx_UID c).
Proof.
  intros Hr. destruct (reachable_ids _ _ Hr) as (Hu & Hl & Hb & Hp).
  split; [done|]. split; [done|]. split; [intros c Hc; by apply Hb|].
  intros c p Hc Hcp. split; [by eapply Hp|].
  clear Hu Hl Hb Hp. revert c p Hc Hcp.
  induction Hr as [w root Hroot
                  |w cs this args name sub w' Hr IH Hin Hsub
                  |w cs this cls r w' Hr IH Hin Hreg]; intros c p Hc Hcp.
  - rewrite create_root_eq in Hroot. simplify_eq.
    apply list_elem_of_singleton in Hc as ->. done.
  - rewrite createSubContext_eq in Hsub. simplify_eq.
    apply elem_of_cons in Hc as [->|Hc]; [|by eapply IH].
    simpl in *. simplify_eq.
    destruct (reachable_ids _ _ Hr) as (_ & _ & Hb & _).
    destruct (Hb _ Hin). lia.
  - by eapply IH.
Qed.

Lemma contexts_have_unique_UIDs_witness :
  reachable ex_w2 [ex_sub; ex_root] ∧
  NoDup (ctx_UID <$> [ex_sub; ex_root]).
Proof.
  split; [exact reachable_ex_w2|].
  exact (proj1 (contexts_have_unique_UIDs ex_w2 [ex_sub; ex_root]
                  reachable_ex_w2)).
Defined.

End ContextTheory.

Module AbstractClassTheory.
Import AbstractClass.
Local Open Scope js_scope.

Lemma update_class_eq l f s c :
  classes s !! l = Some c →
  update_class l f s =
    (Return tt, mkStore (<[l := f c]> (classes s)) (arrays s) (next_loc s)).
Proof. intros Hl. unfold update_class. by rewrite Hl. Qed.

Lemma run_hooks_eq this a s c :
  classes s !! this = Some c →
  run_hooks this a s =
    (Return tt,
     mkStore (<[this := set_prototype (apply_hook (ax_installInProto a))
                          (set_statics (apply_hook (ax_installInClass a)) c)]>
                (classes s))
             (arrays s) (next_loc s)).
Proof.
  intros Hl. unfold run_hooks, bind.
  destruct (ax_installInClass a) as [h|]; simpl.
  - rewrite (update_class_eq _ _ _ _ Hl).
    destruct (ax_installInProto a) as [g|]; simpl.
    + erewrite update_class_eq; [|apply lookup_insert_eq]. simpl.
      by rewrite insert_insert_eq.
    + done.
  - destruct (ax_installInProto a) as [g|]; simpl.
    + rewrite (update_class_eq _ _ _ _ Hl). by destruct c.
    + unfold ret. f_equal. destruct s, c. simpl in *. f_equal.
      by rewrite insert_id.
Qed.

Lemma installAxiom_eq C a s c :
  classes s !! C = Some c →
  installAxiom C a s =
    if has_hook a
    then (Return tt,
          mkStore (<[C := installed a c]> (classes s)) (arrays s) (next_loc s))
    else (Throw InvalidAxiom, s).
Proof.
  intros Hl. unfold installAxiom, bind, assert.
  destruct (has_hook a); simpl; [|done].
  rewrite (update_class_eq _ _ _ _ Hl). simpl.
  erewrite update_class_eq; [|apply lookup_insert_eq]. simpl.
  erewrite run_hooks_eq; [|apply lookup_insert_eq]. simpl.
  by rewrite !insert_insert_eq.
Qed.

(** C1, as the code has it: [installAxiom(a)] with an axiom that has a
    hook enters [a] under its name in the class's own axiom map and empties
    the class's axiom cache, the one that [getAxiomsByClass] and
    [getAxioms] use.  The [isSubClass] memo of the class is left as it was,
    and so is every other class of the store, the subclasses of [C] and
    their caches among them, and every cached array. *)
Theorem installAxiom_invalidates_axiomCache s C c a :
  classes s !! C = Some c →
  has_hook a = true →
  ∃ s' c',
    installAxiom C a s = (Return tt, s') ∧
    classes s' !! C = Some c' ∧
    axiomCache (private_ c') = ∅ ∧
    isSubClassCache (private_ c') = isSubClassCache (private_ c) ∧
    alist_get (ax_name a) (axiomMap_ c') = Some a ∧
    (∀ D, D ≠ C → classes s' !! D = classes s !! D) ∧
    arrays s' = arrays s.
Proof.
  intros Hl Hh. rewrite (installAxiom_eq _ _ _ _ Hl), Hh.
  eexists _, _. split; [done|]. simpl.
  split; [apply lookup_insert_eq|]. split; [done|]. split; [done|].
  split.
  { simpl. clear. induction (axiomMap_ c) as [|[k v] l IH]; simpl.
    - by rewrite decide_True.
    - destruct (decide (ax_name a = k)); simpl.
      + by rewrite decide_True.
      + by rewrite decide_False. }
  split; [|done]. intros D HD. by rewrite lookup_insert_ne.
Qed.

(** *** Steps that leave a class's axiom cache alone *)

Lemma keeps_refl C s : keeps C s s.
Proof. split; [|done]. intros c Hc. exists c. done. Qed.

Lemma keeps_trans C s1 s2 s3 : keeps C s1 s2 → keeps C s2 s3 → keeps C s1 s3.
Proof.
  intros [H1 A1] [H2 A2]. split; [|by auto].
  intros c Hc. destruct (H1 _ Hc) as (c2 & Hc2 & Hsub).
  destruct (H2 _ Hc2) as (c3 & Hc3 & Hsub'). exists c3. split; [done|].
  by etrans.
Qed.

Lemma frames_ret {A} C (a : A) : frames C (ret a).
Proof. intros s Hs. split; [done|apply keeps_refl]. Qed.

Lemma frames_throw {A} C e : frames C (throw (A:=A) e).
Proof. intros s Hs. split; [done|apply keeps_refl]. Qed.

Lemma frames_assert C b e : frames C (assert b e).
Proof. destruct b; [apply frames_ret|apply frames_throw]. Qed.

Lemma frames_get_state C : frames C get_state.
Proof. intros s Hs. split; [done|apply keeps_refl]. Qed.

Lemma frames_get_class C l : frames C (get_class l).
Proof.
  intros s Hs. unfold get_class.
  destruct (classes s !! l); (split; [done|apply keeps_refl]).
Qed.

Lemma frames_bind {A B} C (m : M Store A) (k : A → M Store B) :
  frames C m → (∀ a, frames C (k a)) → frames C (bind m k).
Proof.
  intros Hm Hk s Hs. unfold bind.
  destruct (Hm s Hs) as [Hb Hkeep].
  destruct (m s) as [[a|e] s1]; simpl in *; [|done].
  destruct (Hk a s1 Hb) as [Hb' Hkeep']. split; [done|].
  by eapply keeps_trans.
Qed.

Lemma frames_for_each {A} C (l : list A) (body : A → M Store unit) :
  (∀ a, frames C (body a)) → frames C (for_each l body).
Proof.
  intros Hbody. induction l as [|a l IH]; simpl.
  - apply frames_ret.
  - apply frames_bind; [apply Hbody|]. intros _. apply IH.
Qed.

Lemma frames_update_class C l f :
  (l = C → ∀ c, axiomCache (private_ c) ⊆ axiomCache (private_ (f c))) →
  frames C (update_class l f).
Proof.
  intros Hf s [Hbc Hba]. unfold update_class.
  destruct (classes s !! l) as [c|] eqn:Hl; simpl.
  - split.
    + split; [|done]. intros l' c'. simpl. rewrite lookup_insert.
      case_decide; simplify_eq; eauto.
    + split; [|done]. intros c0 Hc0. simpl. rewrite lookup_insert.
      case_decide; simplify_eq; eauto.
  - split; [done|apply keeps_refl].
Qed.

Lemma frames_run_hooks C this a : frames C (run_hooks this a).
Proof.
  unfold run_hooks. apply frames_bind.
  - destruct (ax_installInClass a); [|apply frames_ret].
    apply frames_update_class. by intros _ [].
  - intros _. destruct (ax_installInProto a); [|apply frames_ret].
    apply frames_update_class. by intros _ [].
Qed.

Lemma frames_installAxiom C this a : this ≠ C → frames C (installAxiom this a).
Proof.
  intros Hne. unfold installAxiom.
  apply frames_bind; [apply frames_assert|]. intros _.
  apply frames_bind; [by apply frames_update_class|]. intros _.
  apply frames_bind; [by apply frames_update_class|]. intros _.
  apply frames_run_hooks.
Qed.

Lemma frames_installModel C this m : this ≠ C → frames C (installModel this m).
Proof.
  intros Hne. unfold installModel.
  apply frames_bind; [by apply frames_update_class|]. intros _.
  apply frames_bind.
  - apply frames_for_each. intros a.
    apply frames_bind; [apply frames_assert|]. intros _.
    by apply frames_update_class.
  - intros _. apply frames_for_each. intros a. apply frames_run_hooks.
Qed.

Lemma frames_proto_of C c : frames C (proto_of c).
Proof.
  destruct c; simpl; try apply frames_ret; try apply frames_throw.
  apply frames_bind; [apply frames_get_class|]. intros o. apply frames_ret.
Qed.

Lemma frames_id_key C c : frames C (id_key c).
Proof.
  destruct c; simpl; try apply frames_ret.
  apply frames_bind; [apply frames_get_class|]. intros o. apply frames_ret.
Qed.

Lemma frames_isSubClass_from C fuel this c :
  frames C (isSubClass_from fuel this c).
Proof.
  revert c. induction fuel as [|fuel IH]; intros c; simpl.
  - apply frames_throw.
  - case_decide; [apply frames_ret|].
    apply frames_bind.
    { apply frames_update_class. by intros _ []. }
    intros _. apply frames_bind; [apply frames_id_key|]. intros key.
    apply frames_bind; [apply frames_get_class|]. intros o.
    destruct (default ∅ (isSubClassCache (private_ o)) !! key);
      [apply frames_ret|].
    apply frames_bind.
    { case_decide; [apply frames_ret|].
      apply frames_bind; [apply frames_proto_of|]. intros p. apply IH. }
    intros b. apply frames_bind; [|intros _; apply frames_ret].
    apply frames_update_class. by intros _ [].
Qed.

Lemma alloc_array_keeps C a s :
  bounded s →
  bounded (alloc_array a s).2 ∧ keeps C s (alloc_array a s).2.
Proof.
  intros [Hbc Hba]. simpl. split.
  - split; simpl.
    + intros l c Hl. specialize (Hbc _ _ Hl). lia.
    + intros r a'. rewrite lookup_insert. case_decide; simplify_eq; [lia|].
      intros Hr. specialize (Hba _ _ Hr). lia.
  - split; simpl; [eauto|].
    intros r a' Hr. rewrite lookup_insert_ne; [done|].
    specialize (Hba _ _ Hr). lia.
Qed.

Lemma getAxiomsByClass_eq this cls s c :
  classes s !! this = Some c →
  getAxiomsByClass this cls s =
    match axiomCache (private_ c) !! cap_id cls with
    | Some r => (Return r, s)
    | None =>
        (Return (next_loc s),
         mkStore
           (<[this := set_private_
                        (set_axiomCache (<[cap_id cls := next_loc s]>)) c]>
              (classes s))
           (<[next_loc s := filter (λ a, cap_isInstance cls a = true)
                                   (axiom_entries (classes s) this).*2]>
              (arrays s))
           (S (next_loc s)))
    end.
Proof.
  intros Hl. unfold getAxiomsByClass, bind, get_class. rewrite Hl.
  destruct (axiomCache (private_ c) !! cap_id cls); [done|]. simpl.
  unfold update_class. simpl. by rewrite Hl.
Qed.

Lemma getAxioms_eq this s c :
  classes s !! this = Some c →
  getAxioms this s =
    match axiomCache (private_ c) !! "" with
    | Some r => (Return r, s)
    | None =>
        (Return (next_loc s),
         mkStore
           (<[this := set_private_ (set_axiomCache (<["" := next_loc s]>)) c]>
              (classes s))
           (<[next_loc s := (axiom_entries (classes s) this).*2]> (arrays s))
           (S (next_loc s)))
    end.
Proof.
  intros Hl. unfold getAxioms, bind, get_class. rewrite Hl.
  destruct (axiomCache (private_ c) !! ""); [done|]. simpl.
  unfold update_class. simpl. by rewrite Hl.
Qed.

Lemma cache_fill_keeps C this key a s c :
  bounded s →
  classes s !! this = Some c →
  axiomCache (private_ c) !! key = None →
  let s' := mkStore
              (<[this := set_private_
                           (set_axiomCache (<[key := next_loc s]>)) c]>
                 (classes s))
              (<[next_loc s := a]> (arrays s)) (S (next_loc s)) in
  bounded s' ∧ keeps C s s'.
Proof.
  intros [Hbc Hba] Hl Hkey. simpl. split.
  - split; simpl.
    + intros l c'. rewrite lookup_insert. case_decide; simplify_eq.
      * intros _. specialize (Hbc _ _ Hl). lia.
      * intros Hl'. specialize (Hbc _ _ Hl'). lia.
    + intros r a'. rewrite lookup_insert. case_decide; simplify_eq; [lia|].
      intros Hr. specialize (Hba _ _ Hr). lia.
  - split; simpl.
    + intros c0 Hc0. rewrite lookup_insert. case_decide; simplify_eq; [|eauto].
      eexists. split; [done|]. simpl. by apply insert_subseteq.
    + intros r a' Hr. rewrite lookup_insert_ne; [done|].
      specialize (Hba _ _ Hr). lia.
Qed.

Lemma getAxiomsByClass_keeps C this cls s :
  bounded s →
  bounded (getAxiomsByClass this cls s).2 ∧
  keeps C s (getAxiomsByClass this cls s).2.
Proof.
  intros Hb. destruct (classes s !! this) as [c|] eqn:Hl.
  - rewrite (getAxiomsByClass_eq _ _ _ _ Hl).
    destruct (axiomCache (private_ c) !! cap_id cls) eqn:Hk; simpl.
    + split; [done|apply keeps_refl].
    + by apply cache_fill_keeps.
  - unfold getAxiomsByClass, bind, get_class. rewrite Hl. simpl.
    split; [done|apply keeps_refl].
Qed.

Lemma getAxioms_keeps C this s :
  bounded s →
  bounded (getAxioms this s).2 ∧ keeps C s (getAxioms this s).2.
Proof.
  intros Hb. destruct (classes s !! this) as [c|] eqn:Hl.
  - rewrite (getAxioms_eq _ _ _ Hl).
    destruct (axiomCache (private_ c) !! "") eqn:Hk; simpl.
    + split; [done|apply keeps_refl].
    + by apply cache_fill_keeps.
  - unfold getAxioms, bind, get_class. rewrite Hl. simpl.
    split; [done|apply keeps_refl].
Qed.

Lemma alloc_class_keeps C c s :
  bounded s →
  bounded (alloc_class c s).2 ∧ keeps C s (alloc_class c s).2.
Proof.
  intros [Hbc Hba]. simpl. split.
  - split; simpl.
    + intros l c'. rewrite lookup_insert. case_decide; simplify_eq; [lia|].
      intros Hl. specialize (Hbc _ _ Hl). lia.
    + intros r a Hr. specialize (Hba _ _ Hr). lia.
  - split; simpl; [|done].
    intros c0 Hc0. rewrite lookup_insert_ne; [eauto|].
    specialize (Hbc _ _ Hc0). lia.
Qed.

Lemma buildClass_keeps C lookup m s :
  bounded s →
  ¬ installs_on C (OpBuildClass lookup m) →
  is_Some (classes s !! C) →
  bounded (buildClass lookup m s).2 ∧ keeps C s (buildClass lookup m s).2.
Proof.
  intros Hb Hno [c0 Hc0]. simpl in Hno. unfold buildClass, bind.
  destruct (truthy (m_refines m)) as [r|] eqn:Href.
  - destruct (lookup r) as [cls|] eqn:Hlk; simpl;
      [|split; [done|apply keeps_refl]].
    assert (cls ≠ C) as Hne by (intros ->; apply Hno; eauto).
    destruct (frames_installModel C cls m Hne s Hb) as [Hb' Hk].
    destruct (installModel cls m s) as [[[]|e] s1]; simpl in *; done.
  - unfold assert. destruct (negb (bool_decide (m_id m = ""))); simpl;
      [|split; [done|apply keeps_refl]].
    destruct (negb (bool_decide (m_name m = ""))); simpl;
      [|split; [done|apply keeps_refl]].
    assert (Hgo : ∀ parent,
      let s1 := (alloc_class (mkClassObj (m_id m) (m_package m) (m_name m)
                    parent [] (mkPrivate ∅ None) ∅ ∅) s).2 in
      bounded (installModel (next_loc s) m s1).2 ∧
      keeps C s (installModel (next_loc s) m s1).2).
    { intros parent s1.
      destruct (alloc_class_keeps C (mkClassObj (m_id m) (m_package m)
                  (m_name m) parent [] (mkPrivate ∅ None) ∅ ∅) s Hb)
        as [Hb1 Hk1].
      assert (next_loc s ≠ C) as Hne.
      { destruct Hb as [Hbc _]. specialize (Hbc _ _ Hc0). lia. }
      destruct (frames_installModel C (next_loc s) m Hne s1 Hb1) as [Hb2 Hk2].
      split; [done|]. by eapply keeps_trans. }
    destruct (truthy (m_extends m)) as [e|].
    + destruct (lookup e) as [p|]; simpl; [|split; [done|apply keeps_refl]].
      specialize (Hgo (Some p)). simpl in Hgo.
      destruct (installModel _ m _) as [[[]|e'] s2]; simpl in *; done.
    + simpl. specialize (Hgo None). simpl in Hgo.
      destruct (installModel _ m _) as [[[]|e'] s2]; simpl in *; done.
Qed.

Lemma run_op_keeps C o s :
  bounded s → ¬ installs_on C o → is_Some (classes s !! C) →
  bounded (run_op o s) ∧ keeps C s (run_op o s).
Proof.
  intros Hb Hno HC. destruct o as [lk m|this a|this m|this c|this cls|this];
    simpl in *.
  - by apply buildClass_keeps.
  - by apply frames_installAxiom.
  - by apply frames_installModel.
  - by apply frames_isSubClass_from.
  - by apply getAxiomsByClass_keeps.
  - by apply getAxioms_keeps.
Qed.

Lemma run_ops_keeps C os s :
  bounded s → Forall (λ o, ¬ installs_on C o) os → is_Some (classes s !! C) →
  bounded (run_ops os s) ∧ keeps C s (run_ops os s).
Proof.
  revert s. induction os as [|o os IH]; intros s Hb Hall HC; simpl.
  - split; [done|apply keeps_refl].
  - inversion Hall as [|? ? Ho Hos]; subst.
    destruct (run_op_keeps C o s Hb Ho HC) as [Hb1 Hk1].
    assert (is_Some (classes (run_op o s) !! C)) as HC1.
    { destruct HC as [c Hc]. destruct Hk1 as [Hk _].
      destruct (Hk _ Hc) as (c' & -> & _). eauto. }
    destruct (IH (run_op o s) Hb1 Hos HC1) as [Hb2 Hk2].
    split; [done|]. by eapply keeps_trans.
Qed.

Lemma installAxiom_invalidates_axiomCache_witness :
  (∃ c, classes ex_s4 !! 0 = Some c) ∧ has_hook ex_age = true ∧
  ∃ s' c',
    installAxiom 0 ex_age ex_s4 = (Return tt, s') ∧
    classes s' !! 0 = Some c' ∧
    axiomCache (private_ c') = ∅.
Proof.
  assert (∃ c, classes ex_s4 !! 0 = Some c) as [c Hc]
    by (eexists; by vm_compute).
  split; [by exists c|]. split; [done|].
  destruct (installAxiom_invalidates_axiomCache ex_s4 0 c ex_age Hc eq_refl)
    as (s' & c' & H1 & H2 & H3 & _).
  exists s', c'. done.
Defined.

(** C1 as the specification states it does not hold: after
    [Person.isSubClass(Employee)] has filled the memo of [Person],
    [Person.installAxiom(age)] succeeds and empties the axiom cache, and
    the memo still holds its two entries. *)
Lemma installAxiom_keeps_isSubClass_memo :
  (installAxiom 0 ex_age ex_s4).1 = Return tt ∧
  (installAxiom 0 ex_age ex_s4).2 = ex_s5 ∧
  (axiomCache ∘ private_) <$> classes ex_s5 !! 0 = Some ∅ ∧
  (isSubClassCache ∘ private_) <$> classes ex_s5 !! 0 =
    Some (Some (<["Employee" := true]> {["Person" := true]})).
Proof. vm_compute. done. Qed.

Lemma bounded_empty : bounded empty_store.
Proof. split; intros ? ? H; simpl in H; by rewrite lookup_empty in H. Qed.

(** *** The enumeration of the axiom map and its lookups *)

Lemma alist_get_app {A} k (l1 l2 : list (string * A)) :
  alist_get k (l1 ++ l2) =
    match alist_get k l1 with
    | Some v => Some v
    | None => alist_get k l2
    end.
Proof.
  induction l1 as [|[k' v'] l1 IH]; simpl; [done|].
  by destruct (decide (k = k')).
Qed.

Lemma alist_get_None {A} k (l : list (string * A)) :
  alist_get k l = None ↔ k ∉ alist_keys l.
Proof.
  unfold alist_keys. induction l as [|[k' v'] l IH]; simpl.
  - split; [intros _; apply not_elem_of_nil|done].
  - rewrite not_elem_of_cons. destruct (decide (k = k')); [|tauto].
    split; [done|tauto].
Qed.

Lemma alist_get_elem_of {A} k v (l : list (string * A)) :
  NoDup (alist_keys l) → (k, v) ∈ l ↔ alist_get k l = Some v.
Proof.
  unfold alist_keys. induction l as [|[k' v'] l IH]; simpl; intros Hnd.
  - split; [by intros ?%elem_of_nil|done].
  - apply NoDup_cons in Hnd as [Hk' Hnd]. rewrite elem_of_cons.
    destruct (decide (k = k')) as [->|Hne].
    + split.
      * intros [[= ->]|Hin]; [done|].
        destruct Hk'. apply list_elem_of_fmap. by exists (k', v).
      * intros [= ->]. by left.
    + rewrite <- (IH Hnd). split; [|tauto].
      intros [[= -> ->]|Hin]; done.
Qed.

Lemma alist_get_filter {A} k (ks : list string) (l : list (string * A)) :
  alist_get k (filter (λ kv, kv.1 ∉ ks) l) =
    if decide (k ∈ ks) then None else alist_get k l.
Proof.
  induction l as [|[k' v'] l IH]; simpl.
  - by destruct (decide (k ∈ ks)).
  - rewrite filter_cons. simpl.
    destruct (decide (k' ∉ ks)) as [Hk'|Hk']; simpl.
    + destruct (decide (k = k')) as [->|]; [|done].
      by rewrite decide_False.
    + rewrite IH. destruct (decide (k ∈ ks)); [done|].
      rewrite decide_False; [done|]. intros ->.
      apply Hk'. done.
Qed.

Lemma alist_keys_app {A} (l1 l2 : list (string * A)) :
  alist_keys (l1 ++ l2) = alist_keys l1 ++ alist_keys l2.
Proof. apply fmap_app. Qed.

Lemma alist_keys_filter {A} (ks : list string) (l : list (string * A)) :
  alist_keys (filter (λ kv, kv.1 ∉ ks) l) =
    filter (λ k, k ∉ ks) (alist_keys l).
Proof.
  unfold alist_keys. induction l as [|[k' v'] l IH]; [done|].
  rewrite filter_cons, fmap_cons, filter_cons. cbn [fst].
  destruct (decide (k' ∉ ks)); [rewrite fmap_cons|]; by rewrite IH.
Qed.

Lemma alist_keys_set {A} k v (l : list (string * A)) :
  alist_keys (alist_set k v l) =
    if decide (k ∈ alist_keys l) then alist_keys l else alist_keys l ++ [k].
Proof.
  unfold alist_keys. induction l as [|[k' v'] l IH].
  - by destruct (decide (k ∈ (@nil (string * A)).*1)) as [?%elem_of_nil|].
  - cbn [alist_set]. rewrite (fmap_cons _ (k', v')). cbn [fst].
    destruct (decide (k = k')) as [->|Hne].
    + rewrite fmap_cons. cbn [fst]. rewrite decide_True; [done|by left].
    + rewrite fmap_cons, IH. cbn [fst]. destruct (decide (k ∈ l.*1)).
      * rewrite decide_True; [done|by right].
      * rewrite decide_False; [done|]. rewrite elem_of_cons. tauto.
Qed.

Lemma alist_set_NoDup {A} k v (l : list (string * A)) :
  NoDup (alist_keys l) → NoDup (alist_keys (alist_set k v l)).
Proof.
  intros Hnd. rewrite alist_keys_set.
  destruct (decide (k ∈ alist_keys l)); [done|].
  apply NoDup_app. split; [done|]. split; [|apply NoDup_singleton].
  intros x Hx ->%list_elem_of_singleton. done.
Qed.

Lemma axiom_entries_from_fuel cs n m l :
  parents_older cs → l < n → l < m →
  axiom_entries_from n cs l = axiom_entries_from m cs l.
Proof.
  intros Hold. revert m l. induction n as [|n IH]; intros m l Hn Hm; [lia|].
  destruct m as [|m]; [lia|]. simpl.
  destruct (cs !! l) as [c|] eqn:Hl; [|done].
  destruct (cls_parent c) as [p|] eqn:Hp; [|done].
  specialize (Hold _ _ _ Hl Hp). rewrite (IH m p); [done|lia|lia].
Qed.

Lemma axiomMap_get_from_fuel cs n m l name :
  parents_older cs → l < n → l < m →
  axiomMap_get_from n cs l name = axiomMap_get_from m cs l name.
Proof.
  intros Hold. revert m l. induction n as [|n IH]; intros m l Hn Hm; [lia|].
  destruct m as [|m]; [lia|]. simpl.
  destruct (cs !! l) as [c|] eqn:Hl; [|done].
  destruct (alist_get name (axiomMap_ c)); [done|].
  destruct (cls_parent c) as [p|] eqn:Hp; [|done].
  specialize (Hold _ _ _ Hl Hp). apply IH; lia.
Qed.

Lemma axiom_entries_unfold cs l c :
  parents_older cs → cs !! l = Some c →
  axiom_entries cs l =
    axiomMap_ c ++
    match cls_parent c with
    | Some p => filter (λ kv, kv.1 ∉ alist_keys (axiomMap_ c))
                       (axiom_entries cs p)
    | None => []
    end.
Proof.
  intros Hold Hl. unfold axiom_entries. cbn [axiom_entries_from]. rewrite Hl.
  destruct (cls_parent c) as [p|] eqn:Hp; [|done].
  pose proof (Hold _ _ _ Hl Hp).
  by rewrite (axiom_entries_from_fuel cs l (S p) p) by (done || lia).
Qed.

Lemma axiomMap_get_unfold cs l c name :
  parents_older cs → cs !! l = Some c →
  axiomMap_get cs l name =
    match alist_get name (axiomMap_ c) with
    | Some a => Some a
    | None =>
        match cls_parent c with
        | Some p => axiomMap_get cs p name
        | None => None
        end
    end.
Proof.
  intros Hold Hl. unfold axiomMap_get. cbn [axiomMap_get_from]. rewrite Hl.
  destruct (alist_get name (axiomMap_ c)); [done|].
  destruct (cls_parent c) as [p|] eqn:Hp; [|done].
  pose proof (Hold _ _ _ Hl Hp).
  by rewrite (axiomMap_get_from_fuel cs l (S p) p) by (done || lia).
Qed.

(** What the enumeration yields for a key is what the map yields for it. *)
Lemma axiom_entries_lookup cs l name :
  parents_older cs →
  alist_get name (axiom_entries cs l) = axiomMap_get cs l name.
Proof.
  intros Hold. induction l as [l IH] using lt_wf_ind.
  destruct (cs !! l) as [c|] eqn:Hl.
  - rewrite (axiom_entries_unfold _ _ _ Hold Hl),
      (axiomMap_get_unfold _ _ _ _ Hold Hl), alist_get_app.
    destruct (alist_get name (axiomMap_ c)) eqn:Hown; [done|].
    destruct (cls_parent c) as [p|] eqn:Hp; [|done].
    rewrite alist_get_filter. apply alist_get_None in Hown.
    rewrite decide_False by done. apply IH. by eapply Hold.
  - unfold axiom_entries, axiomMap_get. simpl. by rewrite Hl.
Qed.

(** The enumeration yields no key twice. *)
Lemma axiom_entries_NoDup cs l :
  parents_older cs →
  (∀ l c, cs !! l = Some c → NoDup (alist_keys (axiomMap_ c))) →
  NoDup (alist_keys (axiom_entries cs l)).
Proof.
  intros Hold Hnd. induction l as [l IH] using lt_wf_ind.
  destruct (cs !! l) as [c|] eqn:Hl.
  - rewrite (axiom_entries_unfold _ _ _ Hold Hl).
    rewrite alist_keys_app. apply NoDup_app.
    split; [by eapply Hnd|].
    destruct (cls_parent c) as [p|] eqn:Hp; [|split; [|apply NoDup_nil_2]].
    + split.
      * intros k Hk Hk'. rewrite alist_keys_filter in Hk'.
        apply list_elem_of_filter in Hk' as [Hno _]. by apply Hno.
      * rewrite alist_keys_filter. apply NoDup_filter, IH. by eapply Hold.
    + intros k _ Hk. by apply elem_of_nil in Hk.
  - unfold axiom_entries. simpl. rewrite Hl. apply NoDup_nil_2.
Qed.

(** The axioms that the enumeration yields are those that the map holds
    under some name. *)
Lemma axiom_entries_values s l a :
  wf_store s →
  a ∈ (axiom_entries (classes s) l).*2 ↔
  ∃ name, axiomMap_get (classes s) l name = Some a.
Proof.
  intros (_ & Hold & Hnd).
  pose proof (axiom_entries_NoDup _ l Hold Hnd) as Hnd'.
  rewrite list_elem_of_fmap. split.
  - intros ([k v] & -> & Hin). exists k. simpl.
    rewrite <- axiom_entries_lookup by done.
    by apply alist_get_elem_of.
  - intros (name & Hget). exists (name, a). split; [done|].
    apply alist_get_elem_of; [done|]. by rewrite axiom_entries_lookup.
Qed.

(** *** Steps keep stores well-formed *)

Lemma wf_empty : wf_store empty_store.
Proof.
  split; [apply bounded_empty|]. split.
  - intros l c p H. simpl in H. by rewrite lookup_empty in H.
  - intros l c H. simpl in H. by rewrite lookup_empty in H.
Qed.

Lemma preserves_wf_ret {A} (a : A) : preserves_wf (ret a).
Proof. by intros s Hs. Qed.

Lemma preserves_wf_throw {A} e : preserves_wf (throw (A:=A) e).
Proof. by intros s Hs. Qed.

Lemma preserves_wf_assert b e : preserves_wf (assert b e).
Proof. destruct b; [apply preserves_wf_ret|apply preserves_wf_throw]. Qed.

Lemma preserves_wf_get_state : preserves_wf get_state.
Proof. by intros s Hs. Qed.

Lemma preserves_wf_get_class l : preserves_wf (get_class l).
Proof. intros s Hs. unfold get_class. by destruct (classes s !! l). Qed.

Lemma preserves_wf_bind {A B} (m : M Store A) (k : A → M Store B) :
  preserves_wf m → (∀ a, preserves_wf (k a)) → preserves_wf (bind m k).
Proof.
  intros Hm Hk s Hs. unfold bind. specialize (Hm s Hs).
  destruct (m s) as [[a|e] s1]; simpl in *; [|done]. by apply Hk.
Qed.

Lemma preserves_wf_for_each {A} (l : list A) (body : A → M Store unit) :
  (∀ a, preserves_wf (body a)) → preserves_wf (for_each l body).
Proof.
  intros Hbody. induction l as [|a l IH]; simpl.
  - apply preserves_wf_ret.
  - apply preserves_wf_bind; [apply Hbody|]. intros _. apply IH.
Qed.

Lemma preserves_wf_update_class l f :
  (∀ c, cls_parent (f c) = cls_parent c) →
  (∀ c, NoDup (alist_keys (axiomMap_ c)) →
        NoDup (alist_keys (axiomMap_ (f c)))) →
  preserves_wf (update_class l f).
Proof.
  intros Hpar Hkeys s ([Hbc Hba] & Hold & Hnd). unfold update_class.
  destruct (classes s !! l) as [c|] eqn:Hl; simpl; [|done].
  split; [split|split]; simpl.
  - intros l' c'. rewrite lookup_insert. case_decide; simplify_eq; eauto.
  - done.
  - intros l' c' p. rewrite lookup_insert. case_decide; simplify_eq.
    + intros [= <-]. rewrite Hpar. by apply Hold.
    + apply Hold.
  - intros l' c'. rewrite lookup_insert. case_decide; simplify_eq.
    + intros [= <-]. apply Hkeys. by eapply Hnd.
    + apply Hnd.
Qed.

Lemma preserves_wf_set_private_ l g :
  preserves_wf (update_class l (set_private_ g)).
Proof. by apply preserves_wf_update_class. Qed.

Lemma preserves_wf_run_hooks this a : preserves_wf (run_hooks this a).
Proof.
  unfold run_hooks. apply preserves_wf_bind.
  - destruct (ax_installInClass a); [|apply preserves_wf_ret].
    by apply preserves_wf_update_class.
  - intros _. destruct (ax_installInProto a); [|apply preserves_wf_ret].
    by apply preserves_wf_update_class.
Qed.

Lemma preserves_wf_enter this a :
  preserves_wf (update_class this (set_axiomMap_ (alist_set (ax_name a) a))).
Proof.
  apply preserves_wf_update_class; [done|].
  intros c. simpl. apply alist_set_NoDup.
Qed.

Lemma preserves_wf_installAxiom this a : preserves_wf (installAxiom this a).
Proof.
  unfold installAxiom.
  apply preserves_wf_bind; [apply preserves_wf_assert|]. intros _.
  apply preserves_wf_bind; [apply preserves_wf_enter|]. intros _.
  apply preserves_wf_bind; [apply preserves_wf_set_private_|]. intros _.
  apply preserves_wf_run_hooks.
Qed.

Lemma preserves_wf_installModel this m : preserves_wf (installModel this m).
Proof.
  unfold installModel.
  apply preserves_wf_bind; [apply preserves_wf_set_private_|]. intros _.
  apply preserves_wf_bind.
  - apply preserves_wf_for_each. intros a.
    apply preserves_wf_bind; [apply preserves_wf_assert|]. intros _.
    apply preserves_wf_enter.
  - intros _. apply preserves_wf_for_each. intros a.
    apply preserves_wf_run_hooks.
Qed.

Lemma preserves_wf_proto_of c : preserves_wf (proto_of c).
Proof.
  destruct c; simpl; try apply preserves_wf_ret; try apply preserves_wf_throw.
  apply preserves_wf_bind; [apply preserves_wf_get_class|].
  intros o. apply preserves_wf_ret.
Qed.

Lemma preserves_wf_id_key c : preserves_wf (id_key c).
Proof.
  destruct c; simpl; try apply preserves_wf_ret.
  apply preserves_wf_bind; [apply preserves_wf_get_class|].
  intros o. apply preserves_wf_ret.
Qed.

Lemma preserves_wf_isSubClass_from fuel this c :
  preserves_wf (isSubClass_from fuel this c).
Proof.
  revert c. induction fuel as [|fuel IH]; intros c; simpl.
  - apply preserves_wf_throw.
  - case_decide; [apply preserves_wf_ret|].
    apply preserves_wf_bind; [apply preserves_wf_set_private_|].
    intros _. apply preserves_wf_bind; [apply preserves_wf_id_key|].
    intros key. apply preserves_wf_bind; [apply preserves_wf_get_class|].
    intros o. destruct (default ∅ (isSubClassCache (private_ o)) !! key);
      [apply preserves_wf_ret|].
    apply preserves_wf_bind.
    { case_decide; [apply preserves_wf_ret|].
      apply preserves_wf_bind; [apply preserves_wf_proto_of|].
      intros p. apply IH. }
    intros b. apply preserves_wf_bind; [|intros _; apply preserves_wf_ret].
    apply preserves_wf_set_private_.
Qed.

Lemma preserves_wf_alloc_array a : preserves_wf (alloc_array a).
Proof.
  intros s (Hb & Hold & Hnd).
  split; [apply (alloc_array_keeps 0 a s Hb)|]. done.
Qed.

Lemma preserves_wf_getAxiomsByClass this cls :
  preserves_wf (getAxiomsByClass this cls).
Proof.
  unfold getAxiomsByClass.
  apply preserves_wf_bind; [apply preserves_wf_get_class|]. intros c.
  destruct (axiomCache (private_ c) !! cap_id cls); [apply preserves_wf_ret|].
  apply preserves_wf_bind; [apply preserves_wf_get_state|]. intros s.
  apply preserves_wf_bind; [apply preserves_wf_alloc_array|]. intros r.
  apply preserves_wf_bind; [apply preserves_wf_set_private_|]. intros _.
  apply preserves_wf_ret.
Qed.

Lemma preserves_wf_getAxioms this : preserves_wf (getAxioms this).
Proof.
  unfold getAxioms.
  apply preserves_wf_bind; [apply preserves_wf_get_class|]. intros c.
  destruct (axiomCache (private_ c) !! ""); [apply preserves_wf_ret|].
  apply preserves_wf_bind; [apply preserves_wf_get_state|]. intros s.
  apply preserves_wf_bind; [apply preserves_wf_alloc_array|]. intros r.
  apply preserves_wf_bind; [apply preserves_wf_set_private_|]. intros _.
  apply preserves_wf_ret.
Qed.

Lemma alloc_class_wf s c :
  wf_store s →
  axiomMap_ c = [] →
  (∀ p, cls_parent c = Some p → is_Some (classes s !! p)) →
  wf_store (alloc_class c s).2.
Proof.
  intros (Hb & Hold & Hnd) Hmap Hpar.
  split; [apply (alloc_class_keeps 0 c s Hb)|]. simpl. split.
  - intros l c' p. rewrite lookup_insert. case_decide; simplify_eq.
    + intros [= <-] Hp. destruct (Hpar _ Hp) as [cp Hcp].
      destruct Hb as [Hbc _]. by eapply Hbc.
    + apply Hold.
  - intros l c'. rewrite lookup_insert. case_decide; simplify_eq.
    + intros [= <-]. rewrite Hmap. apply NoDup_nil_2.
    + apply Hnd.
Qed.

Lemma buildClass_wf lookup m s :
  wf_store s → lookup_ok s (OpBuildClass lookup m) →
  wf_store (buildClass lookup m s).2.
Proof.
  intros Hs Hok. simpl in Hok. unfold buildClass, bind.
  destruct (truthy (m_refines m)) as [r|] eqn:Href.
  - destruct (lookup r) as [cls|] eqn:Hlk; simpl; [|done].
    pose proof (preserves_wf_installModel cls m s Hs) as Hwf.
    destruct (installModel cls m s) as [[[]|e] s1]; simpl in *; done.
  - unfold assert. destruct (negb (bool_decide (m_id m = ""))); simpl; [|done].
    destruct (negb (bool_decide (m_name m = ""))); simpl; [|done].
    assert (Hgo : ∀ parent,
      (∀ p, parent = Some p → is_Some (classes s !! p)) →
      let s1 := (alloc_class (mkClassObj (m_id m) (m_package m) (m_name m)
                    parent [] (mkPrivate ∅ None) ∅ ∅) s).2 in
      wf_store (installModel (next_loc s) m s1).2).
    { intros parent Hpar s1. apply preserves_wf_installModel.
      by apply alloc_class_wf. }
    destruct (truthy (m_extends m)) as [e|] eqn:Hext.
    + destruct (lookup e) as [p|] eqn:Hlk; simpl; [|done].
      specialize (Hgo (Some p)). simpl in Hgo.
      destruct (installModel _ m _) as [[[]|e'] s2]; simpl in *;
        apply Hgo; intros ? [= <-]; by eapply Hok.
    + simpl. specialize (Hgo None). simpl in Hgo.
      destruct (installModel _ m _) as [[[]|e'] s2]; simpl in *;
        by apply Hgo.
Qed.

Lemma run_op_wf o s : wf_store s → lookup_ok s o → wf_store (run_op o s).
Proof.
  intros Hs Hok. destruct o as [lk m|this a|this m|this c|this cls|this];
    simpl.
  - by apply buildClass_wf.
  - by apply preserves_wf_installAxiom.
  - by apply preserves_wf_installModel.
  - by apply preserves_wf_isSubClass_from.
  - by apply preserves_wf_getAxiomsByClass.
  - by apply preserves_wf_getAxioms.
Qed.

Lemma run_ops_wf os s :
  wf_store s → lookups_ok os s → wf_store (run_ops os s).
Proof.
  revert s. induction os as [|o os IH]; intros s Hs Hok; simpl; [done|].
  destruct Hok as [Ho Hos]. apply IH; [by apply run_op_wf|done].
Qed.

Lemma getAxiomByName_eq this name s :
  getAxiomByName this name s =
    (Return (axiomMap_get (classes s) this name), s).
Proof. done. Qed.

(** What [getAxiomsByClass] computes on a miss holds the axioms of the full
    axiom map that pass the check, and no other. *)
Lemma filtered_entries_spec s C K a :
  wf_store s →
  a ∈ filter (λ a, cap_isInstance K a = true)
             (axiom_entries (classes s) C).*2 ↔
  cap_isInstance K a = true ∧
  ∃ name, getAxiomByName C name s = (Return (Some a), s).
Proof.
  intros Hwf. rewrite list_elem_of_filter, (axiom_entries_values _ _ _ Hwf).
  split.
  - intros [Hk (name & Hget)]. split; [done|]. exists name.
    by rewrite getAxiomByName_eq, Hget.
  - intros [Hk (name & Hget)]. split; [done|]. exists name.
    rewrite getAxiomByName_eq in Hget. congruence.
Qed.


Lemma wf_ex_s3 : wf_store ex_s3.
Proof.
  apply (run_ops_wf [OpBuildClass ex_lookup ex_Person;
                     OpBuildClass ex_lookup ex_Employee;
                     OpIsSubClass 0 1] empty_store wf_empty).
  simpl. split; [|split; [|done]].
  - intros e p H. by vm_compute in H.
  - intros e p H. vm_compute in H. injection H as <-.
    intros H. vm_compute in H. injection H as <-.
    eexists. by vm_compute.
Qed.



(** *** The chain of a class and the axioms it inherits *)

Lemma cls_chain_from_fuel cs n m l :
  parents_older cs → l < n → l < m →
  cls_chain_from n cs l = cls_chain_from m cs l.
Proof.
  intros Hold. revert m l. induction n as [|n IH]; intros m l Hn Hm; [lia|].
  destruct m as [|m]; [lia|]. simpl.
  destruct (cs !! l) as [c|] eqn:Hl; [|done].
  destruct (cls_parent c) as [p|] eqn:Hp; [|done].
  specialize (Hold _ _ _ Hl Hp). rewrite (IH m p); [done|lia|lia].
Qed.

Lemma cls_chain_unfold cs l c :
  parents_older cs → cs !! l = Some c →
  cls_chain cs l =
    l :: match cls_parent c with
         | Some p => cls_chain cs p
         | None => []
         end.
Proof.
  intros Hold Hl. unfold cls_chain. cbn [cls_chain_from]. rewrite Hl.
  destruct (cls_parent c) as [p|] eqn:Hp; [|done].
  pose proof (Hold _ _ _ Hl Hp).
  by rewrite (cls_chain_from_fuel cs l (S p) p) by (done || lia).
Qed.

Lemma cls_chain_None cs l : cs !! l = None → cls_chain cs l = [].
Proof. intros Hl. unfold cls_chain. simpl. by rewrite Hl. Qed.

Lemma cls_chain_from_ext cs cs' n l :
  (∀ l, cls_parent <$> cs' !! l = cls_parent <$> cs !! l) →
  cls_chain_from n cs' l = cls_chain_from n cs l.
Proof.
  intros Hext. revert l. induction n as [|n IH]; intros l; [done|]. simpl.
  pose proof (Hext l) as Hl.
  destruct (cs' !! l) as [c'|], (cs !! l) as [c|]; simpl in Hl; try done.
  injection Hl as ->. destruct (cls_parent c); [|done]. by rewrite IH.
Qed.

Lemma cls_chain_ext cs cs' l :
  (∀ l, cls_parent <$> cs' !! l = cls_parent <$> cs !! l) →
  cls_chain cs' l = cls_chain cs l.
Proof. apply cls_chain_from_ext. Qed.

(** The members of a chain are classes of the store, each older than the
    one before. *)
Lemma cls_chain_bound cs l x :
  parents_older cs → x ∈ cls_chain cs l → x ≤ l ∧ is_Some (cs !! x).
Proof.
  intros Hold. revert x. induction l as [l IH] using lt_wf_ind. intros x.
  destruct (cs !! l) as [c|] eqn:Hl.
  - rewrite (cls_chain_unfold _ _ _ Hold Hl).
    intros [->|Hx]%elem_of_cons; [split; [lia|by eexists]|].
    destruct (cls_parent c) as [p|] eqn:Hp; [|by apply elem_of_nil in Hx].
    pose proof (Hold _ _ _ Hl Hp).
    destruct (IH p ltac:(lia) x Hx). split; [lia|done].
  - rewrite (cls_chain_None _ _ Hl). by intros ?%elem_of_nil.
Qed.

Lemma axiomMap_get_chain cs l name :
  parents_older cs →
  axiomMap_get cs l name = nearest_axiom cs (cls_chain cs l) name.
Proof.
  intros Hold. induction l as [l IH] using lt_wf_ind.
  destruct (cs !! l) as [c|] eqn:Hl.
  - rewrite (axiomMap_get_unfold _ _ _ _ Hold Hl),
      (cls_chain_unfold _ _ _ Hold Hl). simpl.
    unfold own_axiom at 1. rewrite Hl.
    destruct (alist_get name (axiomMap_ c)); [done|].
    destruct (cls_parent c) as [p|] eqn:Hp; [|done].
    apply IH. by eapply Hold.
  - rewrite (cls_chain_None _ _ Hl). unfold axiomMap_get. simpl.
    by rewrite Hl.
Qed.

Lemma alist_get_set {A} k k' (v : A) l :
  alist_get k (alist_set k' v l) =
    if decide (k = k') then Some v else alist_get k l.
Proof.
  induction l as [|[k0 v0] l IH]; simpl.
  - by destruct (decide (k = k')).
  - destruct (decide (k' = k0)) as [->|Hne]; simpl.
    + by destruct (decide (k = k0)).
    + rewrite IH. destruct (decide (k = k0)) as [->|]; [|done].
      by rewrite decide_False.
Qed.

Lemma nearest_axiom_ext cs cs' chain name :
  (∀ l, l ∈ chain → own_axiom cs' l name = own_axiom cs l name) →
  nearest_axiom cs' chain name = nearest_axiom cs chain name.
Proof.
  induction chain as [|l chain IH]; simpl; intros Hext; [done|].
  rewrite Hext by (by left). rewrite IH; [done|].
  intros x Hx. apply Hext. by right.
Qed.

Lemma nearest_axiom_found cs pre A rest name a :
  (∀ l, l ∈ pre → own_axiom cs l name = None ∨ own_axiom cs l name = Some a) →
  own_axiom cs A name = Some a →
  nearest_axiom cs (pre ++ A :: rest) name = Some a.
Proof.
  intros Hpre HA. induction pre as [|l pre IH]; simpl.
  - by rewrite HA.
  - destruct (Hpre l) as [->| ->]; [by left| |done].
    apply IH. intros x Hx. apply Hpre. by right.
Qed.


Lemma wf_ex_s5 : wf_store ex_s5.
Proof. apply run_op_wf; [|done]. apply run_op_wf; [|done]. apply wf_ex_s3. Qed.


Lemma installAxiom_classes C a s c :
  classes s !! C = Some c → has_hook a = true →
  (installAxiom C a s).1 = Return tt ∧
  classes (installAxiom C a s).2 = <[C := installed a c]> (classes s).
Proof. intros Hc Hh. by rewrite (installAxiom_eq _ _ _ _ Hc), Hh. Qed.

(** X7: Inheritance is live: an axiom installed on a class is what
    [getAxiomByName] yields for its name on every descendant, those built
    before the installation included, unless a class between the descendant
    and the installing class has an own axiom of that name; the descendant
    itself has no own axiom of that name, and every other name resolves as
    before. *)
Theorem installAxiom_inherited_by_descendants s A a D pre rest :
  wf_store s → has_hook a = true →
  cls_chain (classes s) D = pre ++ A :: rest →
  (∀ l, l ∈ pre → own_axiom (classes s) l (ax_name a) = None) →
  let s' := (installAxiom A a s).2 in
  (installAxiom A a s).1 = Return tt ∧
  getAxiomByName D (ax_name a) s' = (Return (Some a), s') ∧
  (D ≠ A → hasOwnAxiom D (ax_name a) s' = (Return false, s')) ∧
  (∀ name, name ≠ ax_name a →
     (getAxiomByName D name s').1 = (getAxiomByName D name s).1).
Proof.
  intros Hwf Hh Hchain Hpre s'.
  pose proof Hwf as (_ & Hold & _).
  assert (HA : A ∈ cls_chain (classes s) D).
  { rewrite Hchain, elem_of_app, elem_of_cons. auto. }
  destruct (cls_chain_bound _ _ _ Hold HA) as [_ [cA HcA]].
  destruct (installAxiom_classes _ a _ _ HcA Hh) as [Hret Hcls].
  fold s' in Hcls.
  assert (Hwf' : wf_store s') by by apply preserves_wf_installAxiom.
  pose proof Hwf' as (_ & Hold' & _).
  assert (Hpar : ∀ l, cls_parent <$> classes s' !! l
                      = cls_parent <$> classes s !! l).
  { intros l. rewrite Hcls, lookup_insert. case_decide; [|done].
    subst l. by rewrite HcA. }
  assert (Hown : ∀ l name, own_axiom (classes s') l name =
            if decide (l = A ∧ name = ax_name a) then Some a
            else own_axiom (classes s) l name).
  { intros l name. unfold own_axiom. rewrite Hcls, lookup_insert.
    destruct (decide (A = l)) as [<-|Hne].
    - rewrite HcA. simpl. rewrite alist_get_set.
      destruct (decide (name = ax_name a)).
      + by rewrite decide_True.
      + rewrite decide_False; [done|]. tauto.
    - rewrite decide_False; [done|]. intros [? _]. congruence. }
  assert (Hget : ∀ st name, parents_older (classes st) →
            getAxiomByName D name st =
            (Return (nearest_axiom (classes st)
                       (cls_chain (classes st) D) name), st)).
  { intros st name Hst. rewrite getAxiomByName_eq.
    by rewrite axiomMap_get_chain. }
  split; [done|]. split; [|split].
  - rewrite (Hget s' _ Hold'), (cls_chain_ext _ _ _ Hpar), Hchain.
    rewrite (nearest_axiom_found _ _ _ _ _ a); [done| |].
    + intros l Hl. rewrite Hown. case_decide; [by right|].
      left. by apply Hpre.
    + rewrite Hown. by rewrite decide_True.
  - intros Hne.
    assert (HD : D ∈ pre).
    { destruct pre as [|x pre].
      - simpl in Hchain.
        destruct (classes s !! D) as [cD|] eqn:HcD.
        + rewrite (cls_chain_unfold _ _ _ Hold HcD) in Hchain. congruence.
        + by rewrite (cls_chain_None _ _ HcD) in Hchain.
      - destruct (classes s !! D) as [cD|] eqn:HcD.
        + rewrite (cls_chain_unfold _ _ _ Hold HcD) in Hchain.
          injection Hchain as -> _. by left.
        + by rewrite (cls_chain_None _ _ HcD) in Hchain. }
    destruct (cls_chain_bound _ D D Hold) as [_ [cD HcD]].
    { rewrite Hchain. apply elem_of_app. by left. }
    assert (HcD' : classes s' !! D = Some cD).
    { rewrite Hcls, lookup_insert_ne; [done|]. congruence. }
    unfold hasOwnAxiom, bind, get_class. rewrite HcD'. simpl.
    unfold ret. f_equal. f_equal. apply bool_decide_eq_false_2.
    specialize (Hpre _ HD). unfold own_axiom in Hpre. rewrite HcD in Hpre.
    rewrite Hpre. by intros [? ?].
  - intros name Hne.
    rewrite (Hget s' _ Hold'), (Hget s _ Hold), (cls_chain_ext _ _ _ Hpar).
    simpl. f_equal. apply nearest_axiom_ext. intros l _.
    rewrite Hown. rewrite decide_False; [done|]. tauto.
Qed.

Lemma installAxiom_inherited_by_descendants_witness :
  wf_store ex_s4 ∧ has_hook ex_age = true ∧
  cls_chain (classes ex_s4) 1 = [1] ++ 0 :: [] ∧
  getAxiomByName 1 "age" (installAxiom 0 ex_age ex_s4).2 =
    (Return (Some ex_age), (installAxiom 0 ex_age ex_s4).2).
Proof.
  assert (Hwf : wf_store ex_s4) by (apply run_op_wf; [apply wf_ex_s3|done]).
  assert (Hchain : cls_chain (classes ex_s4) 1 = [1] ++ 0 :: [])
    by (by vm_compute).
  split; [exact Hwf|]. split; [done|]. split; [exact Hchain|].
  refine (proj1 (proj2 (installAxiom_inherited_by_descendants ex_s4 0 ex_age
                          1 [1] [] Hwf eq_refl Hchain _))).
  intros l ->%list_elem_of_singleton. by vm_compute.
Defined.

(** *** [isSubClass] and its memo *)

Lemma memo_update_refl this s : memo_update this s s.
Proof. done. Qed.

Lemma memo_update_trans this s1 s2 s3 :
  memo_update this s1 s2 → memo_update this s2 s3 → memo_update this s1 s3.
Proof.
  intros (A1 & N1 & O1 & T1) (A2 & N2 & O2 & T2).
  split; [congruence|]. split; [congruence|]. split.
  - intros l Hl. by rewrite O2, O1.
  - by rewrite T2, T1.
Qed.

Lemma memo_update_view this s s' l :
  memo_update this s s' →
  erase_memo <$> classes s' !! l = erase_memo <$> classes s !! l.
Proof.
  intros (_ & _ & Ho & Ht). destruct (decide (l = this)) as [->|Hne]; [done|].
  by rewrite Ho.
Qed.

Lemma memo_update_parent this s s' l :
  memo_update this s s' →
  cls_parent <$> classes s' !! l = cls_parent <$> classes s !! l.
Proof.
  intros H. pose proof (memo_update_view _ _ _ l H) as Hv.
  destruct (classes s' !! l) as [[]|], (classes s !! l) as [[]|];
    simpl in *; by simplify_eq.
Qed.

Lemma memo_update_id this s s' l :
  memo_update this s s' →
  cls_id <$> classes s' !! l = cls_id <$> classes s !! l.
Proof.
  intros H. pose proof (memo_update_view _ _ _ l H) as Hv.
  destruct (classes s' !! l) as [[]|], (classes s !! l) as [[]|];
    simpl in *; by simplify_eq.
Qed.

Lemma memo_update_chain this s s' l :
  memo_update this s s' →
  cls_chain (classes s') l = cls_chain (classes s) l.
Proof. intros H. apply cls_chain_ext. intros l'. by eapply memo_update_parent. Qed.

Lemma memo_update_ids_distinct this s s' :
  memo_update this s s' → ids_distinct s → ids_distinct s'.
Proof.
  intros H Hd l1 l2 c1 c2 H1 H2.
  pose proof (memo_update_id _ _ _ l1 H) as E1.
  pose proof (memo_update_id _ _ _ l2 H) as E2.
  rewrite H1 in E1. rewrite H2 in E2. simpl in *.
  destruct (classes s !! l1) as [d1|] eqn:D1; [|done].
  destruct (classes s !! l2) as [d2|] eqn:D2; [|done].
  simpl in *. simplify_eq. rewrite E1, E2. by apply (Hd l1 l2).
Qed.

(** A write to the memo of [this]. *)
Lemma set_memo_eq this h s o :
  classes s !! this = Some o →
  update_class this (set_private_ (set_isSubClassCache h)) s =
    (Return tt,
     mkStore (<[this := set_private_ (set_isSubClassCache h) o]> (classes s))
             (arrays s) (next_loc s)).
Proof. apply update_class_eq. Qed.

Lemma set_memo_update this h s o :
  classes s !! this = Some o →
  memo_update this s
    (mkStore (<[this := set_private_ (set_isSubClassCache h) o]> (classes s))
             (arrays s) (next_loc s)).
Proof.
  intros Ho. split; [done|]. split; [done|]. simpl. split.
  - intros l Hl. by rewrite lookup_insert_ne.
  - rewrite lookup_insert_eq, Ho. done.
Qed.

Lemma id_key_update this s s' c :
  memo_update this s s' → id_key c s' = (fst (id_key c s), s').
Proof.
  intros H. destruct c as [l| | |]; simpl; try done.
  unfold bind, get_class. pose proof (memo_update_id _ _ _ l H) as E.
  destruct (classes s' !! l) as [o'|], (classes s !! l) as [o|];
    simpl in *; try done.
  injection E as E. unfold ret. simpl. by rewrite E.
Qed.

Lemma proto_of_update this s s' c :
  memo_update this s s' → proto_of c s' = (fst (proto_of c s), s').
Proof.
  intros H. destruct c as [l| | |]; simpl; try done.
  unfold bind, get_class. pose proof (memo_update_parent _ _ _ l H) as E.
  destruct (classes s' !! l) as [o'|], (classes s !! l) as [o|];
    simpl in *; try done.
  injection E as E. unfold ret. simpl. by rewrite E.
Qed.

(** What a call that returns leaves behind: the store differs from the one
    before in the memo of [this] only, and the memo holds the answer under
    the key of the class asked about. *)
Lemma isSubClass_from_memo fuel this c s b s' :
  isSubClass_from fuel this c s = (Return b, s') →
  memo_update this s s' ∧
  (c ≠ CNull →
   ∃ key o m, (id_key c s).1 = Return key ∧
     classes s' !! this = Some o ∧
     isSubClassCache (private_ o) = Some m ∧ m !! key = Some b).
Proof.
  revert c s b s'. induction fuel as [|fuel IH]; intros c s b s'; [done|].
  simpl. case_decide as Hnull.
  { intros [= <- <-]. split; [apply memo_update_refl|done]. }
  unfold bind at 1.
  destruct (classes s !! this) as [o0|] eqn:Ho0;
    [|unfold update_class; by rewrite Ho0].
  rewrite (set_memo_eq _ _ _ _ Ho0).
  set (o1 := set_private_ _ o0). set (s1 := mkStore _ _ _).
  pose proof (set_memo_update this
    (λ m, match m with Some m' => Some m' | None => Some ∅ end) s o0 Ho0)
    as Hup1. fold o1 in Hup1. fold s1 in Hup1.
  assert (Ho1 : classes s1 !! this = Some o1) by apply lookup_insert_eq.
  unfold bind at 1. rewrite (id_key_update _ _ _ c Hup1).
  destruct (id_key c s) as [[key|e] s0] eqn:Hkey; simpl; [|done].
  unfold bind at 1, get_class at 1. rewrite Ho1.
  destruct (default ∅ (isSubClassCache (private_ o1)) !! key) as [b0|] eqn:Hm.
  { intros [= <- <-]. split; [done|]. intros _.
    exists key, o1. destruct (isSubClassCache (private_ o1)) as [m|] eqn:Hm1.
    - exists m. done.
    - subst o1. destruct o0 as [? ? ? ? ? [? []]]; done. }
  unfold bind at 1.
  destruct ((if decide (c = CRef this) then ret true
             else let! p := proto_of c in isSubClass_from fuel this p) s1)
    as [[b1|e] s2] eqn:Hinner; [|done].
  assert (Hup2 : memo_update this s1 s2).
  { case_decide.
    - injection Hinner as <- <-. apply memo_update_refl.
    - unfold bind in Hinner.
      rewrite (proto_of_update _ _ _ c Hup1) in Hinner.
      destruct (proto_of c s).1 as [p|e]; [|done].
      by destruct (IH _ _ _ _ Hinner). }
  unfold bind at 1.
  assert (∃ o2, classes s2 !! this = Some o2) as [o2 Ho2].
  { pose proof (memo_update_id _ _ _ this Hup2) as E. rewrite Ho1 in E.
    destruct (classes s2 !! this); [by eexists|done]. }
  rewrite (set_memo_eq _ _ _ _ Ho2). simpl.
  intros [= <- <-]. split.
  - eapply memo_update_trans; [exact Hup1|].
    eapply memo_update_trans; [exact Hup2|].
    by apply set_memo_update.
  - intros _. eexists key, _, _. split; [done|]. simpl.
    split; [apply lookup_insert_eq|]. simpl. split; [done|].
    apply lookup_insert_eq.
Qed.

(** X8: The memo is keyed by the class id.  Once [isSubClass] has answered for
    a class, the store differing from the one before in the memo of [this]
    only, the same question, and the question for any class that has the
    same id, is answered from the memo with the same answer and without a
    change to the store. *)
Theorem isSubClass_memo_keyed_by_id s this c b s' :
  isSubClass this (CRef c) s = (Return b, s') →
  memo_update this s s' ∧
  ∀ c' o o', classes s' !! c = Some o → classes s' !! c' = Some o' →
    cls_id o' = cls_id o →
    isSubClass this (CRef c') s' = (Return b, s').
Proof.
  intros Hrun. destruct (isSubClass_from_memo _ _ _ _ _ _ Hrun) as [Hup Hmemo].
  split; [done|]. intros c' o o' Hc Hc' Hid.
  destruct Hmemo as (key & ot & m & Hkey & Hot & Hm & Hb); [done|].
  assert (key = cls_id o) as ->.
  { pose proof (id_key_update _ _ _ (CRef c) Hup) as E. rewrite Hkey in E.
    simpl in E. unfold bind, get_class in E. rewrite Hc in E. simpl in E.
    unfold ret in E. congruence. }
  unfold isSubClass. cbn [depth isSubClass_from].
  rewrite decide_False by done.
  unfold bind at 1. rewrite (set_memo_eq _ _ _ _ Hot). simpl.
  assert (Hsame : set_private_
            (set_isSubClassCache
               (λ m, match m with Some m' => Some m' | None => Some ∅ end))
            ot = ot).
  { destruct ot as [? ? ? ? ? [? ?]]. simpl in *. by subst. }
  rewrite Hsame, insert_id by done.
  assert (Hs' : mkStore (classes s') (arrays s') (AbstractClass.next_loc s')
                = s') by by destruct s'.
  rewrite Hs'. unfold bind at 1. unfold bind at 1, get_class at 1.
  rewrite Hc'. simpl. unfold bind at 1, get_class at 1. rewrite Hot.
  rewrite Hm. simpl. by rewrite Hid, Hb.
Qed.

Lemma isSubClass_memo_keyed_by_id_witness :
  isSubClass 0 (CRef 1) ex_s2 = (Return true, ex_s3) ∧
  isSubClass 0 (CRef 1) ex_s3 = (Return true, ex_s3).
Proof.
  assert (Hrun : isSubClass 0 (CRef 1) ex_s2 = (Return true, ex_s3))
    by (by vm_compute).
  split; [exact Hrun|].
  destruct (isSubClass_memo_keyed_by_id ex_s2 0 1 true ex_s3 Hrun)
    as [_ Hagain].
  assert (∃ o, classes ex_s3 !! 1 = Some o) as [o Ho]
    by (eexists; by vm_compute).
  exact (Hagain 1 o o Ho Ho eq_refl).
Defined.

Lemma memo_sound_update this s s' :
  memo_update this s s' →
  (∀ o o', classes s !! this = Some o → classes s' !! this = Some o' →
     ∀ m' key b, isSubClassCache (private_ o') = Some m' →
       m' !! key = Some b →
       (∃ m, isSubClassCache (private_ o) = Some m ∧ m !! key = Some b) ∨
       ((key = "undefined" → b = false) ∧
        ∀ l c, classes s !! l = Some c → cls_id c = key →
               b = bool_decide (this ∈ cls_chain (classes s) l))) →
  memo_sound s this → memo_sound s' this.
Proof.
  intros Hup Hnew Hsound o' m' key b Ho' Hm' Hb.
  pose proof (memo_update_id _ _ _ this Hup) as E. rewrite Ho' in E.
  destruct (classes s !! this) as [o|] eqn:Ho; [|done].
  assert (Hold : (key = "undefined" → b = false) ∧
            ∀ l c, classes s !! l = Some c → cls_id c = key →
                   b = bool_decide (this ∈ cls_chain (classes s) l)).
  { destruct (Hnew o o' eq_refl Ho' m' key b Hm' Hb) as [(m & Hm & Hmb)|H];
      [|done]. by eapply Hsound. }
  destruct Hold as [Hu Hc]. split; [done|].
  intros l c Hl Hid. rewrite (memo_update_chain _ _ _ l Hup).
  pose proof (memo_update_id _ _ _ l Hup) as El. rewrite Hl in El.
  destruct (classes s !! l) as [c0|] eqn:Hl0; [|done].
  injection El as El. apply (Hc l c0 Hl0). congruence.
Qed.

Lemma descends_step cs this l c :
  parents_older cs → cs !! l = Some c → l ≠ this →
  descends cs this (CRef l) =
    descends cs this match cls_parent c with
                     | Some p => CRef p
                     | None => CAbstractClass
                     end.
Proof.
  intros Hold Hl Hne. simpl. rewrite (cls_chain_unfold _ _ _ Hold Hl).
  destruct (cls_parent c) as [p|]; simpl.
  - apply bool_decide_ext. rewrite elem_of_cons.
    split; [intros [?|?]; [congruence|done]|by right].
  - apply bool_decide_eq_false_2. rewrite elem_of_cons.
    intros [?|?%elem_of_nil]; congruence.
Qed.

Lemma memo_update_parents_exist this s s' :
  memo_update this s s' →
  parents_exist (classes s) → parents_exist (classes s').
Proof.
  intros H Hex l c p Hl Hp.
  pose proof (memo_update_parent _ _ _ l H) as El. rewrite Hl in El.
  destruct (classes s !! l) as [c0|] eqn:Hl0; [|done].
  injection El as El. rewrite Hp in El.
  destruct (Hex l c0 p Hl0 (eq_sym El)) as [cp Hcp].
  pose proof (memo_update_id _ _ _ p H) as Ep. rewrite Hcp in Ep.
  destruct (classes s' !! p); [by eexists|done].
Qed.

Lemma isSubClass_from_correct fuel this c s :
  wf_store s → parents_exist (classes s) → ids_distinct s →
  memo_sound s this →
  is_Some (classes s !! this) →
  (∀ l, c = CRef l → is_Some (classes s !! l)) →
  depth c < fuel →
  ∃ s', isSubClass_from fuel this c s =
          (Return (descends (classes s) this c), s') ∧
        memo_update this s s' ∧ memo_sound s' this.
Proof.
  revert c s. induction fuel as [|fuel IH];
    intros c s Hwf Hex Hids Hsound [o0 Ho0] Hc Hfuel; [lia|].
  pose proof Hwf as (_ & Hold & _).
  cbn [isSubClass_from]. case_decide as Hnull.
  { subst c. exists s. split; [done|]. split; [apply memo_update_refl|done]. }
  unfold bind at 1. rewrite (set_memo_eq _ _ _ _ Ho0).
  set (o1 := set_private_ _ o0). set (s1 := mkStore _ _ _).
  pose proof (set_memo_update this
    (λ m, match m with Some m' => Some m' | None => Some ∅ end) s o0 Ho0)
    as Hup1. fold o1 in Hup1. fold s1 in Hup1.
  assert (Ho1 : classes s1 !! this = Some o1) by apply lookup_insert_eq.
  assert (Hsound1 : memo_sound s1 this).
  { apply (memo_sound_update _ _ _ Hup1); [|done].
    intros o o' Ho Ho' m' key b Hm' Hb. left.
    rewrite Ho0 in Ho. injection Ho as <-.
    rewrite Ho1 in Ho'. injection Ho' as <-.
    unfold o1 in Hm'. simpl in Hm'.
    destruct (isSubClassCache (private_ o0)) as [m|] eqn:Hm0.
    - exists m. by simplify_eq.
    - injection Hm' as <-. by rewrite lookup_empty in Hb. }
  assert (∃ key, id_key c s = (Return key, s) ∧
            (key = "undefined" → ∀ l, c ≠ CRef l) ∧
            (∀ l, c = CRef l → ∃ cl, classes s !! l = Some cl ∧ cls_id cl = key))
    as (key & Hkey & Hundef & Hcls).
  { destruct c as [l| | |]; simpl; try done.
    - destruct (Hc l eq_refl) as [cl Hcl]. exists (cls_id cl).
      unfold bind, get_class. rewrite Hcl. split; [done|]. split.
      + intros Hu. by destruct (Hids l l cl cl Hcl Hcl) as [_ ?].
      + intros ? [= <-]. by exists cl.
    - exists "undefined". split; [done|]. split; [done|]. done.
    - exists "undefined". split; [done|]. split; [done|]. done. }
  unfold bind at 1. rewrite (id_key_update _ _ _ c Hup1), Hkey. simpl.
  unfold bind at 1, get_class at 1. rewrite Ho1.
  destruct (default ∅ (isSubClassCache (private_ o1)) !! key) as [b0|] eqn:Hm.
  { exists s1. split; [|done]. unfold ret. f_equal. f_equal.
    destruct (isSubClassCache (private_ o1)) as [m1|] eqn:Hm1;
      [|simpl in Hm; by rewrite lookup_empty in Hm].
    simpl in Hm. destruct (Hsound1 o1 m1 key b0 Ho1 Hm1 Hm) as [Hu Hk].
    destruct c as [l| | |]; simpl.
    - destruct (Hcls l eq_refl) as (cl & Hcl & Hid).
      rewrite <- (memo_update_chain _ _ _ l Hup1).
      pose proof (memo_update_id _ _ _ l Hup1) as El. rewrite Hcl in El.
      destruct (classes s1 !! l) as [cl1|] eqn:Hcl1; [|done].
      injection El as El. apply (Hk l cl1 Hcl1). congruence.
    - apply Hu. simpl in Hkey. unfold ret in Hkey. congruence.
    - apply Hu. simpl in Hkey. unfold ret in Hkey. congruence.
    - done. }
  assert (Hwf1 : wf_store s1).
  { pose proof (preserves_wf_set_private_ this
      (set_isSubClassCache
         (λ m, match m with Some m' => Some m' | None => Some ∅ end)) s Hwf)
      as H. by rewrite (set_memo_eq _ _ _ _ Ho0) in H. }
  assert (Hids1 : ids_distinct s1) by by eapply memo_update_ids_distinct.
  assert (Hex1 : parents_exist (classes s1))
    by by eapply memo_update_parents_exist.
  assert (Hinner : ∃ s2,
    (if decide (c = CRef this) then ret true
     else let! p := proto_of c in isSubClass_from fuel this p) s1 =
      (Return (descends (classes s) this c), s2) ∧
    memo_update this s1 s2 ∧ memo_sound s2 this).
  { case_decide as Hthis.
    - exists s1. split; [|split; [apply memo_update_refl|done]].
      unfold ret. f_equal. f_equal. subst c. simpl. symmetry.
      apply bool_decide_eq_true_2.
      rewrite (cls_chain_unfold _ _ _ Hold Ho0). by left.
    - unfold bind. rewrite (proto_of_update _ _ _ c Hup1).
      destruct c as [l| | |]; [| | |done].
      + destruct (Hc l eq_refl) as [cl Hcl].
        cbn [proto_of]. unfold bind, get_class. rewrite Hcl.
        cbn [fst ret].
        assert (Hne : l ≠ this) by congruence.
        rewrite (descends_step _ _ _ _ Hold Hcl Hne).
        destruct (IH (match cls_parent cl with
                      | Some p => CRef p
                      | None => CAbstractClass
                      end) s1 Hwf1 Hex1 Hids1 Hsound1)
          as (s2 & Hrun & Hup2 & Hs2).
        * by eexists.
        * intros p Hp. destruct (cls_parent cl) as [p'|] eqn:Hpar; [|done].
          injection Hp as ->.
          pose proof (memo_update_id _ _ _ p Hup1) as Ep.
          destruct (Hex l cl p Hcl Hpar) as [cp Hcp].
          rewrite Hcp in Ep. destruct (classes s1 !! p); [by eexists|done].
        * destruct (cls_parent cl) as [p'|] eqn:Hpar; simpl in *; [|lia].
          pose proof (Hold _ _ _ Hcl Hpar). lia.
        * exists s2. split; [|done]. rewrite Hrun. f_equal. f_equal.
          destruct (cls_parent cl) as [p'|]; [|done].
          unfold descends. by rewrite (memo_update_chain _ _ _ p' Hup1).
      + destruct (IH CObjectPrototype s1 Hwf1 Hex1 Hids1 Hsound1)
          as (s2 & Hrun & Hup2 & Hs2); [by eexists|done|simpl in *; lia|].
        exists s2. cbn [proto_of ret fst]. by rewrite Hrun.
      + destruct (IH CNull s1 Hwf1 Hex1 Hids1 Hsound1)
          as (s2 & Hrun & Hup2 & Hs2); [by eexists|done|simpl in *; lia|].
        exists s2. cbn [proto_of ret fst]. by rewrite Hrun. }
  destruct Hinner as (s2 & Hrun & Hup2 & Hsound2).
  unfold bind at 1. rewrite Hrun.
  assert (∃ o2, classes s2 !! this = Some o2) as [o2 Ho2].
  { pose proof (memo_update_id _ _ _ this Hup2) as E. rewrite Ho1 in E.
    destruct (classes s2 !! this); [by eexists|done]. }
  unfold bind at 1. rewrite (set_memo_eq _ _ _ _ Ho2). simpl.
  set (s3 := mkStore _ _ _).
  pose proof (set_memo_update this
    (λ m, Some (<[key := descends (classes s) this c]> (default ∅ m)))
    s2 o2 Ho2) as Hup3. fold s3 in Hup3.
  assert (Hup02 : memo_update this s s2) by by eapply memo_update_trans.
  exists s3. split; [done|]. split; [by eapply memo_update_trans|].
  apply (memo_sound_update _ _ _ Hup3); [|done].
  intros o o' Ho Ho' m' k b Hm' Hb.
  rewrite Ho2 in Ho. injection Ho as <-.
  unfold s3 in Ho'. simpl in Ho'. rewrite lookup_insert_eq in Ho'.
  injection Ho' as <-. simpl in Hm'.
  injection Hm' as <-. rewrite lookup_insert in Hb.
  case_decide as Hk; [|left].
  - right. injection Hb as <-. subst k. split.
    + intros Hu. destruct c as [l| | |]; simpl; try done.
      by destruct (Hundef Hu l).
    + intros l cl Hcl Hid.
      rewrite (memo_update_chain _ _ _ l Hup02).
      destruct c as [l0| | |]; simpl.
      * destruct (Hcls l0 eq_refl) as (cl0 & Hcl0 & Hid0).
        pose proof (memo_update_id _ _ _ l Hup02) as El. rewrite Hcl in El.
        destruct (classes s !! l) as [cl'|] eqn:Hcl'; [|done].
        injection El as El.
        destruct (Hids l l0 cl' cl0 Hcl' Hcl0) as [Hinj _].
        rewrite Hinj; [done|]. congruence.
      * pose proof (memo_update_id _ _ _ l Hup02) as El. rewrite Hcl in El.
        destruct (classes s !! l) as [cl'|] eqn:Hcl'; [|done].
        injection El as El.
        destruct (Hids l l cl' cl' Hcl' Hcl') as [_ Hno].
        destruct Hno. simpl in Hkey. injection Hkey as <-. congruence.
      * pose proof (memo_update_id _ _ _ l Hup02) as El. rewrite Hcl in El.
        destruct (classes s !! l) as [cl'|] eqn:Hcl'; [|done].
        injection El as El.
        destruct (Hids l l cl' cl' Hcl' Hcl') as [_ Hno].
        destruct Hno. simpl in Hkey. injection Hkey as <-. congruence.
      * done.
  - destruct (isSubClassCache (private_ o2)) as [m2|] eqn:Hm2; simpl in Hb.
    + by exists m2.
    + by rewrite lookup_empty in Hb.
Qed.


Lemma wf_ex_s2 : wf_store ex_s2.
Proof.
  apply (run_ops_wf [OpBuildClass ex_lookup ex_Person;
                     OpBuildClass ex_lookup ex_Employee] empty_store wf_empty).
  simpl. split; [|split; [|done]].
  - intros e p H. by vm_compute in H.
  - intros e p H. vm_compute in H. injection H as <-.
    intros H. vm_compute in H. injection H as <-.
    eexists. by vm_compute.
Qed.

Lemma ex_s2_classes l c :
  classes ex_s2 !! l = Some c →
  (l = 0 ∧ cls_id c = "Person" ∧ cls_parent c = None ∧
   isSubClassCache (private_ c) = None) ∨
  (l = 1 ∧ cls_id c = "Employee" ∧ cls_parent c = Some 0 ∧
   isSubClassCache (private_ c) = None).
Proof.
  intros Hl. destruct wf_ex_s2 as [[Hb _] _]. pose proof (Hb _ _ Hl) as Hlt.
  change (next_loc ex_s2) with 2 in Hlt.
  destruct l as [|[|l]]; [left|right|lia];
    vm_compute in Hl; injection Hl as <-; done.
Qed.


(** *** [installModel] and [buildClass] *)

Lemma enter_loop_eq this axs s c :
  classes s !! this = Some c →
  for_each axs (λ a,
    run! assert (has_hook a) InvalidAxiom in
    update_class this (set_axiomMap_ (alist_set (ax_name a) a))) s =
  match list_find (λ a, has_hook a = false) axs with
  | None =>
      (Return tt,
       mkStore (<[this := set_axiomMap_ (enter_axioms axs) c]> (classes s))
               (arrays s) (next_loc s))
  | Some (i, _) =>
      (Throw InvalidAxiom,
       mkStore (<[this := set_axiomMap_ (enter_axioms (take i axs)) c]>
                  (classes s))
               (arrays s) (next_loc s))
  end.
Proof.
  revert s c. induction axs as [|a axs IH]; intros s c Hc.
  - simpl. unfold ret. f_equal. destruct s, c. simpl in *. f_equal.
    by rewrite insert_id.
  - cbn [for_each list_find]. unfold bind at 1. unfold bind at 1, assert.
    destruct (has_hook a) eqn:Hh.
    + rewrite decide_False by done. cbn [ret].
      rewrite (update_class_eq _ _ _ _ Hc).
      erewrite IH; [|apply lookup_insert_eq]. simpl.
      destruct (list_find _ axs) as [[i x]|]; simpl;
        by rewrite insert_insert_eq.
    + rewrite decide_True by done. simpl. unfold throw. f_equal.
      destruct s, c. simpl in *. f_equal. by rewrite insert_id.
Qed.

Lemma hooks_loop_eq this axs s c :
  classes s !! this = Some c →
  for_each axs (run_hooks this) s =
    (Return tt,
     mkStore (<[this := foldl (λ c a, hooks_of a c) c axs]> (classes s))
             (arrays s) (next_loc s)).
Proof.
  revert s c. induction axs as [|a axs IH]; intros s c Hc.
  - simpl. unfold ret. f_equal. destruct s, c. simpl in *. f_equal.
    by rewrite insert_id.
  - cbn [for_each foldl]. unfold bind.
    rewrite (run_hooks_eq _ _ _ _ Hc).
    erewrite IH; [|apply lookup_insert_eq]. simpl.
    by rewrite insert_insert_eq.
Qed.

Lemma installModel_eq this m s c :
  classes s !! this = Some c →
  installModel this m s =
  match list_find (λ a, has_hook a = false) (m_axioms_ m) with
  | None =>
      (Return tt,
       mkStore (<[this := model_installed (m_axioms_ m) c]> (classes s))
               (arrays s) (next_loc s))
  | Some (i, _) =>
      (Throw InvalidAxiom,
       mkStore (<[this := set_axiomMap_ (enter_axioms (take i (m_axioms_ m)))
                            (set_private_ (set_axiomCache (λ _, ∅)) c)]>
                  (classes s))
               (arrays s) (next_loc s))
  end.
Proof.
  intros Hc. unfold installModel. unfold bind at 1.
  rewrite (update_class_eq _ _ _ _ Hc). unfold bind at 1.
  erewrite enter_loop_eq; [|apply lookup_insert_eq]. simpl.
  destruct (list_find _ (m_axioms_ m)) as [[i x]|]; simpl.
  - by rewrite insert_insert_eq.
  - erewrite hooks_loop_eq; [|apply lookup_insert_eq]. simpl.
    by rewrite !insert_insert_eq.
Qed.

Lemma enter_axioms_get name axs mp :
  alist_get name (enter_axioms axs mp) =
    match last_named name axs with
    | Some a => Some a
    | None => alist_get name mp
    end.
Proof.
  unfold enter_axioms, last_named. revert mp.
  induction axs as [|a axs IH]; intros mp; [done|].
  cbn [foldl]. rewrite IH, filter_cons.
  destruct (decide (ax_name a = name)) as [<-|Hne].
  - rewrite last_cons.
    destruct (last (filter _ axs)); [done|].
    by rewrite alist_get_set, decide_True.
  - destruct (last (filter _ axs)); [done|].
    rewrite alist_get_set, decide_False; [done|]. congruence.
Qed.

Lemma hooks_fold_fields axs c :
  cls_id (foldl (λ c a, hooks_of a c) c axs) = cls_id c ∧
  cls_package (foldl (λ c a, hooks_of a c) c axs) = cls_package c ∧
  cls_name (foldl (λ c a, hooks_of a c) c axs) = cls_name c ∧
  cls_parent (foldl (λ c a, hooks_of a c) c axs) = cls_parent c ∧
  axiomMap_ (foldl (λ c a, hooks_of a c) c axs) = axiomMap_ c ∧
  private_ (foldl (λ c a, hooks_of a c) c axs) = private_ c.
Proof.
  revert c. induction axs as [|a axs IH]; intros c; [done|].
  cbn [foldl]. destruct (IH (hooks_of a c)) as (-> & -> & -> & -> & -> & ->).
  done.
Qed.

Lemma model_installed_fields axs c :
  cls_id (model_installed axs c) = cls_id c ∧
  cls_package (model_installed axs c) = cls_package c ∧
  cls_name (model_installed axs c) = cls_name c ∧
  cls_parent (model_installed axs c) = cls_parent c ∧
  axiomMap_ (model_installed axs c) = enter_axioms axs (axiomMap_ c) ∧
  axiomCache (private_ (model_installed axs c)) = ∅ ∧
  isSubClassCache (private_ (model_installed axs c)) =
    isSubClassCache (private_ c).
Proof.
  unfold model_installed.
  destruct (hooks_fold_fields axs
              (set_axiomMap_ (enter_axioms axs)
                 (set_private_ (set_axiomCache (λ _, ∅)) c)))
    as (-> & -> & -> & -> & -> & ->).
  done.
Qed.

Lemma installModel_returns C m s c :
  classes s !! C = Some c →
  Forall (λ a, has_hook a = true) (m_axioms_ m) →
  installModel C m s =
    (Return tt,
     mkStore (<[C := model_installed (m_axioms_ m) c]> (classes s))
             (arrays s) (next_loc s)).
Proof.
  intros Hc Hall. rewrite (installModel_eq _ _ _ _ Hc).
  destruct (list_find _ (m_axioms_ m)) as [[i x]|] eqn:Hfind; [|done].
  apply list_find_Some in Hfind as (Hi & Hx & _).
  rewrite Forall_forall in Hall.
  rewrite (Hall x) in Hx; [done|]. by eapply list_elem_of_lookup_2.
Qed.

Lemma installModel_fields C m s c :
  classes s !! C = Some c →
  Forall (λ a, has_hook a = true) (m_axioms_ m) →
  ∃ c',
    installModel C m s =
      (Return tt,
       mkStore (<[C := c']> (classes s)) (arrays s) (next_loc s)) ∧
    c' = model_installed (m_axioms_ m) c ∧
    (∀ name, alist_get name (axiomMap_ c') =
               match last_named name (m_axioms_ m) with
               | Some a => Some a
               | None => alist_get name (axiomMap_ c)
               end) ∧
    axiomCache (private_ c') = ∅ ∧
    isSubClassCache (private_ c') = isSubClassCache (private_ c) ∧
    cls_id c' = cls_id c ∧ cls_parent c' = cls_parent c.
Proof.
  intros Hc Hall. exists (model_installed (m_axioms_ m) c).
  split; [by apply installModel_returns|]. split; [done|].
  destruct (model_installed_fields (m_axioms_ m) c)
    as (Hid & _ & _ & Hpar & Hmap & Hcache & Hmemo).
  split; [|done]. intros name. rewrite Hmap. apply enter_axioms_get.
Qed.

(** X10: [installModel] with axioms that all have a hook: every axiom is entered
    in the axiom map before the first hook runs, so that the class ends as
    [model_installed] says; the axiom cache is emptied, the [isSubClass]
    memo, the id, the name and the parent of the class are as before, and
    where the model has several axioms of one name the map holds the last
    of them. *)
Theorem installModel_last_axiom_wins C m s c :
  classes s !! C = Some c →
  Forall (λ a, has_hook a = true) (m_axioms_ m) →
  ∃ c',
    installModel C m s =
      (Return tt,
       mkStore (<[C := c']> (classes s)) (arrays s) (next_loc s)) ∧
    c' = model_installed (m_axioms_ m) c ∧
    (∀ name, alist_get name (axiomMap_ c') =
               match last_named name (m_axioms_ m) with
               | Some a => Some a
               | None => alist_get name (axiomMap_ c)
               end) ∧
    axiomCache (private_ c') = ∅ ∧
    isSubClassCache (private_ c') = isSubClassCache (private_ c) ∧
    cls_id c' = cls_id c ∧ cls_parent c' = cls_parent c.
Proof.
  intros Hc Hall. exists (model_installed (m_axioms_ m) c).
  rewrite (installModel_returns _ _ _ _ Hc Hall).
  destruct (model_installed_fields (m_axioms_ m) c)
    as (Hid & _ & _ & Hpar & Hmap & Hcache & Hmemo).
  split; [done|]. split; [done|]. split; [|done].
  intros name. rewrite Hmap. apply enter_axioms_get.
Qed.

(** X11: [installModel] checks each axiom as it enters it: with a first axiom
    that has no hook at position [i] the call fails with [InvalidAxiom]
    when the axiom cache has been emptied and the axioms before [i] have
    been entered in the axiom map, and before any hook has run. *)
Theorem installModel_fails_half_way C m s c pre a post :
  classes s !! C = Some c →
  m_axioms_ m = pre ++ a :: post →
  Forall (λ a, has_hook a = true) pre →
  has_hook a = false →
  ∃ c',
    installModel C m s =
      (Throw InvalidAxiom,
       mkStore (<[C := c']> (classes s)) (arrays s) (next_loc s)) ∧
    axiomMap_ c' = enter_axioms pre (axiomMap_ c) ∧
    axiomCache (private_ c') = ∅ ∧
    cls_statics c' = cls_statics c ∧
    cls_prototype c' = cls_prototype c ∧
    (∀ b, b ∈ pre → alist_get (ax_name b) (axiomMap_ c') =
                      last_named (ax_name b) pre).
Proof.
  intros Hc Haxs Hpre Ha. rewrite (installModel_eq _ _ _ _ Hc).
  assert (Hfind : list_find (λ a, has_hook a = false) (m_axioms_ m)
                  = Some (length pre, a)).
  { apply list_find_Some. rewrite Haxs. split; [|split; [done|]].
    - by rewrite lookup_app_r, Nat.sub_diag by lia.
    - intros j y Hj Hlt. rewrite lookup_app_l in Hj by done.
      rewrite Forall_forall in Hpre.
      rewrite (Hpre y); [done|]. by eapply list_elem_of_lookup_2. }
  rewrite Hfind, Haxs, take_app_length.
  eexists. split; [done|]. simpl. split; [done|]. split; [done|].
  split; [done|]. split; [done|].
  intros b Hb. rewrite enter_axioms_get.
  destruct (last_named (ax_name b) pre) as [x|] eqn:Hlast; [done|].
  unfold last_named in Hlast. apply last_None in Hlast.
  assert (b ∈ filter (λ a, ax_name a = ax_name b) pre)
    by (by apply list_elem_of_filter).
  rewrite Hlast in H. by apply elem_of_nil in H.
Qed.

Lemma installModel_last_axiom_wins_witness :
  (∃ c, classes ex_s4 !! 0 = Some c) ∧
  Forall (λ a, has_hook a = true)
    (m_axioms_ (mkModel "Person" None "Person" None None
                  [mkAxiom "age" 3 (Some id) None; ex_age])) ∧
  ∃ c',
    (installModel 0 (mkModel "Person" None "Person" None None
                       [mkAxiom "age" 3 (Some id) None; ex_age]) ex_s4).1
      = Return tt ∧
    classes (installModel 0 (mkModel "Person" None "Person" None None
                       [mkAxiom "age" 3 (Some id) None; ex_age]) ex_s4).2
      !! 0 = Some c' ∧
    alist_get "age" (axiomMap_ c') = Some ex_age.
Proof.
  assert (∃ c, classes ex_s4 !! 0 = Some c) as [c Hc]
    by (eexists; by vm_compute).
  assert (Hall : Forall (λ a, has_hook a = true)
    (m_axioms_ (mkModel "Person" None "Person" None None
                  [mkAxiom "age" 3 (Some id) None; ex_age])))
    by (repeat constructor).
  split; [by exists c|]. split; [exact Hall|].
  destruct (installModel_last_axiom_wins 0 _ ex_s4 c Hc Hall)
    as (c' & Hrun & _ & Hget & _).
  exists c'. rewrite Hrun. simpl. split; [done|].
  split; [apply lookup_insert_eq|]. by rewrite Hget.
Defined.

Lemma installModel_fails_half_way_witness :
  (∃ c, classes ex_s4 !! 0 = Some c) ∧
  has_hook (mkAxiom "bad" 9 None None) = false ∧
  ∃ c',
    (installModel 0 (mkModel "Person" None "Person" None None
                       [ex_age; mkAxiom "bad" 9 None None; ex_age]) ex_s4).1
      = Throw InvalidAxiom ∧
    classes (installModel 0 (mkModel "Person" None "Person" None None
                       [ex_age; mkAxiom "bad" 9 None None; ex_age]) ex_s4).2
      !! 0 = Some c' ∧
    alist_get "age" (axiomMap_ c') = Some ex_age.
Proof.
  assert (∃ c, classes ex_s4 !! 0 = Some c) as [c Hc]
    by (eexists; by vm_compute).
  split; [by exists c|]. split; [done|].
  destruct (installModel_fails_half_way 0
              (mkModel "Person" None "Person" None None
                 [ex_age; mkAxiom "bad" 9 None None; ex_age])
              ex_s4 c [ex_age] (mkAxiom "bad" 9 None None) [ex_age]
              Hc eq_refl) as (c' & Hrun & _ & _ & _ & _ & Hget).
  - by repeat constructor.
  - done.
  - exists c'. rewrite Hrun. simpl. split; [done|].
    split; [apply lookup_insert_eq|].
    exact (Hget ex_age (list_elem_of_here _ _)).
Defined.

Lemma buildClass_refine_eq lookup m s r C :
  truthy (m_refines m) = Some r → lookup r = Some C →
  buildClass lookup m s =
    match installModel C m s with
    | (Return _, s') => (Return C, s')
    | (Throw e, s') => (Throw e, s')
    end.
Proof.
  intros Hr Hl. unfold buildClass. rewrite Hr, Hl. unfold bind at 1. simpl.
  unfold bind. by destruct (installModel C m s) as [[[]|e] s'].
Qed.

Lemma buildClass_new_eq lookup m s parent :
  truthy (m_refines m) = None → m_id m ≠ "" → m_name m ≠ "" →
  extends_of lookup m = Some parent →
  buildClass lookup m s =
    match installModel (next_loc s) m
            (mkStore (<[next_loc s := new_class m parent]> (classes s))
                     (arrays s) (S (next_loc s))) with
    | (Return _, s') => (Return (next_loc s), s')
    | (Throw e, s') => (Throw e, s')
    end.
Proof.
  intros Hr Hid Hname Hext. unfold buildClass. rewrite Hr.
  unfold bind at 1. unfold bind at 1. unfold assert at 1.
  rewrite bool_decide_eq_false_2 by done. cbn [negb ret].
  unfold bind at 1. unfold assert at 1.
  rewrite bool_decide_eq_false_2 by done. cbn [negb ret].
  unfold bind at 1. unfold extends_of in Hext.
  destruct (truthy (m_extends m)) as [e|].
  - destruct (lookup e) as [p|]; [|done]. injection Hext as <-.
    cbn [ret]. unfold alloc_class. unfold bind.
    fold (new_class m (Some p)).
    by destruct (installModel _ m _) as [[[]|e'] s'].
  - injection Hext as <-. cbn [ret]. unfold alloc_class. unfold bind.
    fold (new_class m None).
    by destruct (installModel _ m _) as [[[]|e'] s'].
Qed.

Lemma axiomMap_get_from_frame cs cs' n fuel p name :
  parents_older cs →
  (∀ l, l < n → cs' !! l = cs !! l) → p < n →
  axiomMap_get_from fuel cs' p name = axiomMap_get_from fuel cs p name.
Proof.
  intros Hold Hsame. revert p. induction fuel as [|fuel IH]; intros p Hp;
    [done|].
  simpl. rewrite (Hsame p Hp).
  destruct (cs !! p) as [c|] eqn:Hc; [|done].
  destruct (alist_get name (axiomMap_ c)); [done|].
  destruct (cls_parent c) as [q|] eqn:Hq; [|done].
  apply IH. pose proof (Hold _ _ _ Hc Hq). lia.
Qed.

Lemma cls_chain_from_frame cs cs' n fuel p :
  parents_older cs →
  (∀ l, l < n → cs' !! l = cs !! l) → p < n →
  cls_chain_from fuel cs' p = cls_chain_from fuel cs p.
Proof.
  intros Hold Hsame. revert p. induction fuel as [|fuel IH]; intros p Hp;
    [done|].
  simpl. rewrite (Hsame p Hp).
  destruct (cs !! p) as [c|] eqn:Hc; [|done].
  destruct (cls_parent c) as [q|] eqn:Hq; [|done].
  rewrite IH; [done|]. pose proof (Hold _ _ _ Hc Hq). lia.
Qed.



(** X13: [buildClass] of a model that refines a class updates that class in
    place: it returns the class that [context.lookup] finds, makes no new
    class, and leaves the id, the package, the name and the parent of the
    class as they were, whatever the model gives for them; the axioms of
    the model are installed on it. *)
Theorem buildClass_refines_in_place lookup m s r C c :
  truthy (m_refines m) = Some r → lookup r = Some C →
  classes s !! C = Some c →
  Forall (λ a, has_hook a = true) (m_axioms_ m) →
  ∃ c',
    buildClass lookup m s =
      (Return C, mkStore (<[C := c']> (classes s)) (arrays s) (next_loc s)) ∧
    cls_id c' = cls_id c ∧ cls_package c' = cls_package c ∧
    cls_name c' = cls_name c ∧ cls_parent c' = cls_parent c ∧
    isSubClassCache (private_ c') = isSubClassCache (private_ c) ∧
    axiomCache (private_ c') = ∅ ∧
    (∀ name, alist_get name (axiomMap_ c') =
               match last_named name (m_axioms_ m) with
               | Some a => Some a
               | None => alist_get name (axiomMap_ c)
               end).
Proof.
  intros Hr Hl Hc Hall. rewrite (buildClass_refine_eq _ _ _ _ _ Hr Hl).
  destruct (installModel_fields _ m _ _ Hc Hall)
    as (c' & Hrun & -> & Hget & _).
  rewrite Hrun. eexists. split; [done|].
  destruct (model_installed_fields (m_axioms_ m) c)
    as (? & ? & ? & ? & _ & ? & ?).
  done.
Qed.

Lemma buildClass_refines_in_place_witness :
  truthy (m_refines (mkModel "Other" None "Other" (Some "Employee")
                       (Some "Person") [ex_age])) = Some "Person" ∧
  ex_lookup "Person" = Some 0 ∧
  ∃ c c', classes ex_s2 !! 0 = Some c ∧
    (buildClass ex_lookup
       (mkModel "Other" None "Other" (Some "Employee") (Some "Person")
          [ex_age]) ex_s2).1 = Return 0 ∧
    classes (buildClass ex_lookup
       (mkModel "Other" None "Other" (Some "Employee") (Some "Person")
          [ex_age]) ex_s2).2 !! 0 = Some c' ∧
    cls_id c' = cls_id c ∧ cls_parent c' = cls_parent c.
Proof.
  assert (∃ c, classes ex_s2 !! 0 = Some c) as [c Hc]
    by (eexists; by vm_compute).
  split; [done|]. split; [done|].
  destruct (buildClass_refines_in_place ex_lookup
              (mkModel "Other" None "Other" (Some "Employee") (Some "Person")
                 [ex_age]) ex_s2 "Person" 0 c eq_refl eq_refl Hc)
    as (c' & Hrun & Hid & _ & _ & Hpar & _).
  - by repeat constructor.
  - exists c, c'. rewrite Hrun. simpl. split; [done|]. split; [done|].
    split; [apply lookup_insert_eq|]. done.
Defined.

(** X14: [buildClass] rejects a model before it builds anything: an unknown
    class to refine or to extend fails with [UnresolvedReference], and a
    model that refines nothing and lacks an id or a name fails with
    [MissingIdentity], each with the store as it was; and when the classes
    that [context.lookup] finds are classes of the store, [buildClass]
    returns exactly when the model passes these checks and each of its
    axioms has a hook. *)
Theorem buildClass_returns_iff lookup m s :
  (∀ r C, truthy (m_refines m) = Some r → lookup r = Some C →
          is_Some (classes s !! C)) →
  (∀ r, truthy (m_refines m) = Some r → lookup r = None →
        buildClass lookup m s = (Throw UnresolvedReference, s)) ∧
  (truthy (m_refines m) = None → m_id m = "" ∨ m_name m = "" →
   buildClass lookup m s = (Throw MissingIdentity, s)) ∧
  (truthy (m_refines m) = None → m_id m ≠ "" → m_name m ≠ "" →
   extends_of lookup m = None →
   buildClass lookup m s = (Throw UnresolvedReference, s)) ∧
  (succeeds (buildClass lookup m s) ↔
   Forall (λ a, has_hook a = true) (m_axioms_ m) ∧
   match truthy (m_refines m) with
   | Some r => is_Some (lookup r)
   | None => m_id m ≠ "" ∧ m_name m ≠ "" ∧ is_Some (extends_of lookup m)
   end).
Proof.
  intros Hstore.
  assert (Hinst : ∀ C c st, classes st !! C = Some c →
            succeeds (installModel C m st) ↔
            Forall (λ a, has_hook a = true) (m_axioms_ m)).
  { intros C c st Hc. rewrite (installModel_eq _ _ _ _ Hc).
    destruct (list_find _ (m_axioms_ m)) as [[i x]|] eqn:Hfind.
    - apply list_find_Some in Hfind as (Hi & Hx & _). split.
      + by intros [? ?].
      + rewrite Forall_forall. intros Hall.
        rewrite (Hall x) in Hx; [done|]. by eapply list_elem_of_lookup_2.
    - split; [|by exists tt]. intros _. rewrite Forall_forall.
      intros a Ha. destruct (has_hook a) eqn:Hh; [done|].
      apply list_elem_of_lookup in Ha as [i Hi].
      eapply list_find_None in Hfind. rewrite Forall_forall in Hfind.
      destruct (Hfind a); [by eapply list_elem_of_lookup_2|done]. }
  assert (Hsucc : ∀ C st, succeeds
            (match installModel C m st with
             | (Return _, s') => (Return C, s')
             | (Throw e, s') => (Throw e, s')
             end) ↔ succeeds (installModel C m st)).
  { intros C st. destruct (installModel C m st) as [[[]|e] s']; simpl.
    - split; intros _; by eexists.
    - split; by intros [? ?]. }
  split; [|split; [|split]].
  - intros r Hr Hl. unfold buildClass, bind. by rewrite Hr, Hl.
  - intros Hr Hmiss. unfold buildClass. rewrite Hr.
    unfold bind at 1. unfold bind at 1. unfold assert at 1.
    destruct (decide (m_id m = "")) as [Hid|Hid].
    + by rewrite bool_decide_eq_true_2.
    + rewrite bool_decide_eq_false_2 by done. cbn [negb ret].
      unfold bind at 1. unfold assert at 1.
      destruct Hmiss as [?|Hname]; [done|].
      by rewrite bool_decide_eq_true_2.
  - intros Hr Hid Hname Hext. unfold buildClass. rewrite Hr.
    unfold bind at 1. unfold bind at 1. unfold assert at 1.
    rewrite bool_decide_eq_false_2 by done. cbn [negb ret].
    unfold bind at 1. unfold assert at 1.
    rewrite bool_decide_eq_false_2 by done. cbn [negb ret].
    unfold bind at 1. unfold extends_of in Hext.
    destruct (truthy (m_extends m)) as [e|]; [|done].
    by destruct (lookup e).
  - destruct (truthy (m_refines m)) as [r|] eqn:Hr.
    + destruct (lookup r) as [C|] eqn:Hl.
      * destruct (Hstore r C eq_refl Hl) as [c Hc].
        rewrite (buildClass_refine_eq _ _ _ _ _ Hr Hl), Hsucc,
          (Hinst _ _ _ Hc).
        split; [intros ?; split; [done|by eexists]|by intros [? _]].
      * unfold buildClass, bind. rewrite Hr, Hl. simpl. split.
        -- by intros [? ?].
        -- by intros [_ [? ?]].
    + destruct (decide (m_id m = "")) as [Hid|Hid].
      { split; [|by intros (_ & ? & _)].
        unfold buildClass. rewrite Hr.
        unfold bind at 1. unfold bind at 1. unfold assert at 1.
        rewrite bool_decide_eq_true_2 by done. by intros [? ?]. }
      destruct (decide (m_name m = "")) as [Hname|Hname].
      { split; [|by intros (_ & _ & ? & _)].
        unfold buildClass. rewrite Hr.
        unfold bind at 1. unfold bind at 1. unfold assert at 1.
        rewrite bool_decide_eq_false_2 by done. cbn [negb ret].
        unfold bind at 1. unfold assert at 1.
        rewrite bool_decide_eq_true_2 by done. by intros [? ?]. }
      destruct (extends_of lookup m) as [parent|] eqn:Hext.
      * rewrite (buildClass_new_eq _ _ _ _ Hr Hid Hname Hext), Hsucc.
        erewrite Hinst; [|apply lookup_insert_eq].
        split; [intros ?; split; [done|]; split; [done|]; split; [done|];
                by eexists|by intros [? _]].
      * split; [|by intros (_ & _ & _ & ? & ?)].
        unfold buildClass. rewrite Hr.
        unfold bind at 1. unfold bind at 1. unfold assert at 1.
        rewrite bool_decide_eq_false_2 by done. cbn [negb ret].
        unfold bind at 1. unfold assert at 1.
        rewrite bool_decide_eq_false_2 by done. cbn [negb ret].
        unfold bind at 1. unfold extends_of in Hext.
        destruct (truthy (m_extends m)) as [e|]; [|done].
        destruct (lookup e); [done|]. by intros [? ?].
Qed.

Lemma buildClass_returns_iff_witness :
  buildClass ex_lookup
    (mkModel "Manager" None "Manager" (Some "Director") None []) ex_s2
  = (Throw UnresolvedReference, ex_s2).
Proof.
  refine (proj1 (proj2 (proj2 (buildClass_returns_iff ex_lookup
            (mkModel "Manager" None "Manager" (Some "Director") None [])
            ex_s2 _))) eq_refl _ _ eq_refl); [|done..].
  intros r C H. by vm_compute in H.
Defined.

(** *** [getAxioms] *)

Lemma axiom_entries_from_ext cs cs' fuel l :
  (∀ l, (λ c, (axiomMap_ c, cls_parent c)) <$> cs' !! l =
        (λ c, (axiomMap_ c, cls_parent c)) <$> cs !! l) →
  axiom_entries_from fuel cs' l = axiom_entries_from fuel cs l.
Proof.
  intros Hext. revert l. induction fuel as [|fuel IH]; intros l; [done|].
  simpl. pose proof (Hext l) as Hl.
  destruct (cs' !! l) as [c'|], (cs !! l) as [c|]; simpl in Hl; try done.
  injection Hl as -> ->. destruct (cls_parent c); [|done]. by rewrite IH.
Qed.



End AbstractClassTheory.

Module PubSubTheory.
Import PubSub.
Local Open Scope js_scope.

(** *** Lists without repetition *)

Lemma NoDup_split_unique (pre pre' post post' : list nat) n :
  NoDup (pre ++ n :: post) →
  pre ++ n :: post = pre' ++ n :: post' →
  pre = pre' ∧ post = post'.
Proof.
  revert pre'. induction pre as [|a pre IH]; intros pre' Hnd Heq.
  - destruct pre' as [|b pre']; simpl in *.
    + by simplify_eq.
    + simplify_eq. apply NoDup_cons in Hnd as [Hn _].
      exfalso. apply Hn. apply elem_of_app. right. by left.
  - destruct pre' as [|b pre']; simpl in *; simplify_eq.
    + apply NoDup_cons in Hnd as [Hn _]. exfalso. apply Hn.
      apply elem_of_app. right. by left.
    + apply NoDup_cons in Hnd as [_ Hnd].
      destruct (IH _ Hnd H0) as [-> ->]. done.
Qed.

(** *** Live subscriptions *)

Lemma lives_app st a b : lives st (a ++ b) = lives st a ++ lives st b.
Proof. apply filter_app. Qed.

Lemma lives_cons st n l :
  lives st (n :: l) = if live st n then n :: lives st l else lives st l.
Proof.
  unfold lives. rewrite filter_cons.
  destruct (live st n); by case_decide.
Qed.

Lemma lives_ext st st' l :
  (∀ n, n ∈ l → live st' n = live st n) → lives st' l = lives st l.
Proof.
  induction l as [|a l IH]; intros Hl; [done|].
  rewrite !lives_cons, Hl by by left. rewrite IH; [done|].
  intros n Hn. apply Hl. by right.
Qed.

Lemma lives_elem st l n : n ∈ lives st l ↔ n ∈ l ∧ live st n = true.
Proof. unfold lives. rewrite list_elem_of_filter. tauto. Qed.

Lemma lives_nil_Forall st l :
  lives st l = [] ↔ Forall (λ m, live st m = false) l.
Proof.
  induction l as [|a l IH]; [by split|].
  rewrite lives_cons, Forall_cons. destruct (live st a) eqn:Ha.
  - split; [done|]. by intros [? _].
  - rewrite IH. tauto.
Qed.

Lemma head_lives_reaches st post : reaches st post (head (lives st post)).
Proof.
  induction post as [|a post IH]; [by constructor|].
  rewrite lives_cons. destruct (live st a) eqn:Ha; simpl.
  - exists [], post. split; [done|constructor].
  - destruct (head (lives st post)) as [m|]; simpl in *.
    + destruct IH as (mid & post' & -> & Hmid).
      exists (a :: mid), post'. split; [done|]. by constructor.
    + by constructor.
Qed.

Lemma reaches_ext st st' post cur :
  (∀ n, n ∈ post → live st n = false → live st' n = false) →
  reaches st post cur → reaches st' post cur.
Proof.
  intros Hl. destruct cur as [m|]; simpl.
  - intros (mid & post' & -> & Hmid). exists mid, post'. split; [done|].
    apply Forall_forall. intros x Hx.
    apply Hl; [apply elem_of_app; by left|].
    by eapply Forall_forall in Hmid.
  - intros Hall. apply Forall_forall. intros x Hx. apply Hl; [done|].
    by eapply Forall_forall in Hall.
Qed.

Lemma head_lives_elem st l x :
  head (lives st l) = Some x → x ∈ l ∧ live st x = true.
Proof.
  intros Hx. apply lives_elem. destruct (lives st l); simplify_eq/=.
  by left.
Qed.

Lemma last_lives_elem st l x :
  last (lives st l) = Some x → x ∈ l ∧ live st x = true.
Proof.
  intros Hx. apply lives_elem. apply last_Some in Hx as [l' ->].
  apply elem_of_app. right. by left.
Qed.

(** *** What [destroy] does *)

Lemma destroy_dead st n :
  live st n = false → destroy n st = (Return tt, st).
Proof.
  unfold live, destroy, bind, get_state. simpl.
  destruct (subs st !! n) as [nd|]; [|done].
  by destruct (destroyed nd).
Qed.

Lemma destroy_subs st n nd m :
  subs st !! n = Some nd → destroyed nd = false →
  subs (destroy n st).2 !! m =
    (if decide (n = m) then fmap set_destroyed else id)
      ((if decide (prev nd = Sub m) then fmap (set_next (next nd)) else id)
         ((if decide (next nd = Some m) then fmap (set_prev (prev nd)) else id)
            (subs st !! m))).
Proof.
  intros Hn Hd. unfold destroy, bind, get_state. simpl. rewrite Hn, Hd.
  destruct (next nd) as [x|], (prev nd) as [path|p]; simpl;
    rewrite ?lookup_alter; repeat case_decide; simplify_eq; try done.
Qed.

Lemma destroy_tree st n nd path :
  subs st !! n = Some nd → destroyed nd = false →
  tree (destroy n st).2 !! path =
    if decide (prev nd = TreeNode path) then next nd else tree st !! path.
Proof.
  intros Hn Hd. unfold destroy, bind, get_state. simpl. rewrite Hn, Hd.
  destruct (next nd) as [x|], (prev nd) as [path'|p]; simpl;
    rewrite ?lookup_insert, ?lookup_delete;
    repeat case_decide; simplify_eq; try done.
Qed.

Lemma destroy_rest st n :
  next_loc (destroy n st).2 = next_loc st ∧
  delivered (destroy n st).2 = delivered st ∧
  subscribed (destroy n st).2 = subscribed st.
Proof.
  unfold destroy, bind, get_state. simpl.
  destruct (subs st !! n) as [nd|]; [|done].
  destruct (destroyed nd); [done|].
  by destruct (next nd) as [x|], (prev nd) as [path'|p].
Qed.

Lemma destroy_live st n m :
  live (destroy n st).2 m = if decide (n = m) then false else live st m.
Proof.
  destruct (live st n) eqn:Hn.
  - unfold live in Hn. destruct (subs st !! n) as [nd|] eqn:Hnd; [|done].
    destruct (destroyed nd) eqn:Hd; [done|].
    unfold live. rewrite (destroy_subs _ _ _ _ Hnd Hd).
    repeat case_decide; simplify_eq; rewrite ?Hnd; simpl;
      try done; by destruct (subs st !! m).
  - rewrite destroy_dead by done. case_decide; by simplify_eq.
Qed.

Lemma destroy_callback st n m :
  callback_of (destroy n st).2 m = callback_of st m.
Proof.
  destruct (live st n) eqn:Hn.
  - unfold live in Hn. destruct (subs st !! n) as [nd|] eqn:Hnd; [|done].
    destruct (destroyed nd) eqn:Hd; [done|].
    unfold callback_of. rewrite (destroy_subs _ _ _ _ Hnd Hd).
    repeat case_decide; simplify_eq; rewrite ?Hnd; simpl;
      try done; by destruct (subs st !! m).
  - by rewrite destroy_dead.
Qed.

Lemma destroy_succeeds st n : (destroy n st).1 = Return tt.
Proof.
  unfold destroy, bind, get_state. simpl.
  destruct (subs st !! n) as [nd|]; [|done].
  destruct (destroyed nd); [done|].
  by destruct (next nd) as [x|], (prev nd) as [path'|p].
Qed.

Lemma head_app_nonempty {A} (a b : list A) :
  a ≠ [] → head (a ++ b) = head a.
Proof. by destruct a. Qed.

Lemma last_app_nonempty {A} (a b : list A) :
  b ≠ [] → last (a ++ b) = last b.
Proof.
  intros Hb. destruct b as [|x b] using rev_ind; [done|].
  by rewrite app_assoc, !last_snoc.
Qed.

Lemma last_cons_nonempty {A} (x : A) (l : list A) :
  l ≠ [] → last (x :: l) = last l.
Proof. intros Hl. apply (last_app_nonempty [x] l Hl). Qed.

Lemma head_Some_nonempty {A} (l : list A) x : head l = Some x → l ≠ [].
Proof. by destruct l. Qed.

Lemma last_Some_nonempty {A} (l : list A) x : last l = Some x → l ≠ [].
Proof. by destruct l. Qed.

Lemma head_not_elem (a : list nat) m x :
  m ∉ a → head a = Some x → x ≠ m.
Proof. destruct a; intros Hm [= <-] ->. apply Hm. by left. Qed.

Lemma last_not_elem (a : list nat) m x :
  m ∉ a → last a = Some x → x ≠ m.
Proof.
  intros Hm Hx ->. apply Hm. apply last_Some in Hx as [l' ->].
  apply elem_of_app. right. by left.
Qed.

Lemma lives_not_elem st l m : m ∉ l → m ∉ lives st l.
Proof. intros Hm Hin. apply lives_elem in Hin as [? _]. done. Qed.

(** The list that holds the destroyed subscription. *)
Lemma destroy_list_ok_same st n nd path pre0 post0 :
  subs st !! n = Some nd → destroyed nd = false →
  list_ok st path (pre0 ++ n :: post0) →
  list_ok (destroy n st).2 path (pre0 ++ n :: post0).
Proof.
  intros Hn Hd (Hnd & Htree & Hnodes).
  pose proof (destroy_live st n) as Hlive.
  pose proof (destroy_subs st n nd) as Hsubs.
  pose proof (destroy_tree st n nd) as Htr.
  set (st' := (destroy n st).2) in *.
  assert (Hn_pre : n ∉ pre0).
  { apply NoDup_app in Hnd as (_ & Hdis & _). intros Hin.
    apply (Hdis _ Hin). by left. }
  assert (Hn_post : n ∉ post0).
  { apply NoDup_app in Hnd as (_ & _ & Hnd). by apply NoDup_cons in Hnd as [? _]. }
  assert (Hlives : ∀ l, n ∉ l → lives st' l = lives st l).
  { intros l Hl. apply lives_ext. intros m Hm. rewrite Hlive.
    case_decide; [by subst|done]. }
  assert (Hlive_n : live st n = true).
  { unfold live. by rewrite Hn, Hd. }
  destruct (Hnodes pre0 n post0 eq_refl) as (nd' & Hn' & Hnd').
  assert (nd' = nd) as -> by congruence. clear Hn'. rewrite Hd in Hnd'.
  destruct Hnd' as [Hnext Hprev].
  assert (Hlives' : lives st' (pre0 ++ n :: post0)
                    = lives st pre0 ++ lives st post0).
  { rewrite lives_app, lives_cons, Hlive, decide_True by done.
    by rewrite !Hlives. }
  split; [done|]. split.
  { (* the head of the list *)
    rewrite Htr by done. rewrite Hlives'.
    rewrite lives_app, lives_cons, Hlive_n in Htree.
    destruct (last (lives st pre0)) as [p|] eqn:Hlast; simpl in Hprev.
    - rewrite decide_False by (by rewrite Hprev).
      rewrite Htree. rewrite !head_app_nonempty; [done|..];
        by eapply last_Some_nonempty.
    - rewrite decide_True by done. apply last_None in Hlast.
      by rewrite Hlast. }
  intros pre m post Heq.
  destruct (Hnodes pre m post Heq) as (ndm & Hm & Hndm).
  destruct (decide (n = m)) as [<-|Hnm].
  { (* the destroyed subscription itself *)
    destruct (NoDup_split_unique _ _ _ _ _ Hnd Heq) as [<- <-].
    exists (set_destroyed nd). split.
    - rewrite Hsubs by done. rewrite decide_True by done.
      rewrite decide_False, decide_False, Hn; [done|..].
      + intros Hx. apply Hn_post. rewrite Hnext in Hx.
        by apply head_lives_elem in Hx as [? _].
      + intros Hp. rewrite Hprev in Hp. apply Hn_pre.
        destruct (last (lives st pre0)) eqn:Hl; simplify_eq/=.
        by apply last_lives_elem in Hl as [? _].
    - simpl. rewrite Hnext, <- (Hlives post0) by done.
      apply head_lives_reaches. }
  assert (Hm_in : m ∈ pre0 ++ n :: post0).
  { rewrite Heq. apply elem_of_app. right. by left. }
  apply elem_of_app in Hm_in as [Hm_pre|Hm_post].
  - (* a subscription before the destroyed one *)
    apply list_elem_of_split in Hm_pre as (a & b & ->).
    rewrite <- app_assoc in Heq. simpl in Heq.
    rewrite <- app_assoc in Hnd. simpl in Hnd.
    destruct (NoDup_split_unique _ _ _ _ _ Hnd Heq) as [<- <-].
    assert (Hm_a : m ∉ a).
    { apply NoDup_app in Hnd as (_ & Hdis & _). intros Hin.
      apply (Hdis _ Hin). by left. }
    assert (Hm_b : m ∉ b).
    { apply NoDup_app in Hnd as (_ & _ & Hnd). apply NoDup_cons in Hnd as [Hx _].
      intros Hin. apply Hx. apply elem_of_app. by left. }
    assert (Hn_a : n ∉ a).
    { intros Hin. apply Hn_pre. apply elem_of_app. by left. }
    assert (Hn_b : n ∉ b).
    { intros Hin. apply Hn_pre. apply elem_of_app. right. by right. }
    assert (Hx_m : next nd ≠ Some m).
    { rewrite Hnext. intros Hx. apply head_lives_elem in Hx as [Hin _].
      apply NoDup_app in Hnd as (_ & _ & Hnd).
      apply NoDup_cons in Hnd as [Hx _]. apply Hx.
      apply elem_of_app. right. by right. }
    rewrite lives_app, lives_cons in Hprev.
    destruct (destroyed ndm) eqn:Hdm.
    + assert (Hlm : live st m = false) by (unfold live; by rewrite Hm, Hdm).
      rewrite Hlm in Hprev.
      exists ndm. split.
      * rewrite Hsubs by done. rewrite decide_False by done.
        rewrite (decide_False (P := next nd = Some m)) by done.
        rewrite decide_False; [done|].
        rewrite Hprev. intros Hp.
        destruct (last (lives st a ++ lives st b)) eqn:Hl; simplify_eq/=.
        rewrite <- lives_app in Hl.
        apply last_lives_elem in Hl as [_ Hl]. congruence.
      * rewrite Hdm. eapply reaches_ext; [|done].
        intros k _ Hk. rewrite Hlive. by case_decide.
    + assert (Hlm : live st m = true) by (unfold live; by rewrite Hm, Hdm).
      rewrite Hlm in Hprev. destruct Hndm as [Hnm_next Hnm_prev].
      rewrite lives_app, lives_cons, Hlive_n in Hnm_next.
      destruct (lives st b) as [|y lb] eqn:Hlb.
      * (* [m] is the live subscription just before [n] *)
        simpl in Hprev. rewrite last_snoc in Hprev. simpl in Hprev.
        exists (set_next (next nd) ndm). split.
        -- rewrite Hsubs by done. rewrite decide_False by done.
           rewrite (decide_False (P := next nd = Some m)) by done.
           rewrite decide_True by done. by rewrite Hm.
        -- simpl. rewrite Hdm. split.
           ++ rewrite Hnext, lives_app, lives_cons, Hlive, decide_True by done.
              rewrite !Hlives by done. by rewrite Hlb.
           ++ by rewrite Hlives.
      * (* another live subscription lies between them *)
        exists ndm. split.
        -- rewrite Hsubs by done. rewrite decide_False by done.
           rewrite (decide_False (P := next nd = Some m)) by done.
           rewrite decide_False; [done|].
           rewrite Hprev. rewrite last_app_nonempty by done.
           rewrite last_cons_nonempty by done.
           destruct (last (y :: lb)) as [q|] eqn:Hq; simpl; [|done].
           intros [= ->]. rewrite <- Hlb in Hq.
           apply last_lives_elem in Hq as [? _]. done.
        -- rewrite Hdm. split.
           ++ rewrite Hnm_next, lives_app, lives_cons, Hlive, decide_True by done.
              rewrite !Hlives by done. by rewrite Hlb.
           ++ by rewrite Hlives.
  - (* a subscription after the destroyed one *)
    apply elem_of_cons in Hm_post as [->|Hm_post]; [done|].
    apply list_elem_of_split in Hm_post as (a & b & ->).
    assert (Heq' : pre0 ++ n :: a ++ m :: b = (pre0 ++ n :: a) ++ m :: b)
      by by rewrite <- app_assoc.
    rewrite Heq' in Heq, Hnd.
    destruct (NoDup_split_unique _ _ _ _ _ Hnd Heq) as [<- <-].
    assert (Hm_a : m ∉ a).
    { apply NoDup_app in Hnd as (_ & Hdis & _). intros Hin.
      apply (Hdis m); [|by left]. apply elem_of_app. right. by right. }
    assert (Hm_b : m ∉ b).
    { apply NoDup_app in Hnd as (_ & _ & Hnd). by apply NoDup_cons in Hnd as [? _]. }
    assert (Hn_a : n ∉ a).
    { intros Hin. apply Hn_post. apply elem_of_app. by left. }
    assert (Hn_b : n ∉ b).
    { intros Hin. apply Hn_post. apply elem_of_app. right. by right. }
    assert (Hp_m : prev nd ≠ Sub m).
    { rewrite Hprev. intros Hp.
      destruct (last (lives st pre0)) eqn:Hl; simplify_eq/=.
      apply last_lives_elem in Hl as [Hin _].
      apply NoDup_app in Hnd as (_ & Hdis & _).
      apply (Hdis m); [|by left]. apply elem_of_app. by left. }
    rewrite lives_app, lives_cons in Hnext.
    destruct (destroyed ndm) eqn:Hdm.
    + assert (Hlm : live st m = false) by (unfold live; by rewrite Hm, Hdm).
      rewrite Hlm in Hnext.
      exists ndm. split.
      * rewrite Hsubs by done. rewrite decide_False by done.
        rewrite (decide_False (P := prev nd = Sub m)) by done.
        rewrite decide_False; [done|].
        rewrite Hnext. intros Hx. rewrite <- lives_app in Hx.
        apply head_lives_elem in Hx as [_ Hx]. congruence.
      * rewrite Hdm. eapply reaches_ext; [|done].
        intros k _ Hk. rewrite Hlive. by case_decide.
    + assert (Hlm : live st m = true) by (unfold live; by rewrite Hm, Hdm).
      rewrite Hlm in Hnext. destruct Hndm as [Hnm_next Hnm_prev].
      rewrite lives_app, lives_cons, Hlive_n in Hnm_prev.
      destruct (lives st a) as [|y la] eqn:Hla.
      * (* [m] is the live subscription just after [n] *)
        simpl in Hnext.
        exists (set_prev (prev nd) ndm). split.
        -- rewrite Hsubs by done. rewrite decide_False by done.
           rewrite (decide_False (P := prev nd = Sub m)) by done.
           rewrite decide_True by done. by rewrite Hm.
        -- simpl. rewrite Hdm. split.
           ++ by rewrite Hlives.
           ++ rewrite Hprev, lives_app, lives_cons, Hlive, decide_True by done.
              rewrite !Hlives by done. by rewrite Hla, app_nil_r.
      * exists ndm. split.
        -- rewrite Hsubs by done. rewrite decide_False by done.
           rewrite (decide_False (P := prev nd = Sub m)) by done.
           rewrite decide_False; [done|].
           rewrite Hnext. simpl. intros [= ->].
           apply Hm_a. assert (m ∈ lives st a) as Hin by (rewrite Hla; by left).
           by apply lives_elem in Hin as [? _].
        -- rewrite Hdm. split.
           ++ by rewrite Hlives.
           ++ rewrite Hnm_prev, lives_app, lives_cons, Hlive, decide_True by done.
              rewrite !Hlives by done. rewrite Hla.
              by rewrite !last_app_nonempty.
Qed.

Lemma live_subs_ext st st' m :
  subs st' !! m = subs st !! m → live st' m = live st m.
Proof. unfold live. by intros ->. Qed.

(** A list whose subscriptions and tree node are left alone. *)
Lemma list_ok_ext st st' path L :
  (∀ m, m ∈ L → subs st' !! m = subs st !! m) →
  tree st' !! path = tree st !! path →
  list_ok st path L → list_ok st' path L.
Proof.
  intros Hsubs Htree (Hnd & Hhead & Hnodes).
  assert (Hlives : ∀ l, l ⊆ L → lives st' l = lives st l).
  { intros l Hl. apply lives_ext. intros m Hm.
    apply live_subs_ext, Hsubs, Hl, Hm. }
  split; [done|]. split.
  { by rewrite Htree, Hlives. }
  intros pre m post ->.
  destruct (Hnodes pre m post eq_refl) as (ndm & Hm & Hndm).
  exists ndm. split.
  { rewrite Hsubs; [done|]. apply elem_of_app. right. by left. }
  assert (post ⊆ pre ++ m :: post) as Hpost.
  { intros k Hk. apply elem_of_app. right. by right. }
  assert (pre ⊆ pre ++ m :: post) as Hpre.
  { intros k Hk. apply elem_of_app. by left. }
  destruct (destroyed ndm).
  - eapply reaches_ext; [|done]. intros k Hk Hlk.
    rewrite (live_subs_ext st st'); [done|]. by apply Hsubs, Hpost.
  - by rewrite !Hlives.
Qed.

Lemma destroy_inv st n : inv st → inv (destroy n st).2.
Proof.
  intros Hinv. destruct (live st n) eqn:Hlive_n;
    [|by rewrite destroy_dead].
  pose proof Hlive_n as Hl. unfold live in Hl.
  destruct (subs st !! n) as [nd|] eqn:Hn; [|done].
  destruct (destroyed nd) eqn:Hd; [done|]. clear Hl.
  destruct Hinv as (Hlists & Hnone & Hdisj & Hown & Hbound).
  destruct (Hown _ _ Hn) as (path & L & HL & Hin).
  apply list_elem_of_split in Hin as (pre0 & post0 & ->).
  pose proof (Hlists _ _ HL) as Hok.
  destruct Hok as (Hnd & Htree & Hnodes).
  destruct (Hnodes pre0 n post0 eq_refl) as (nd' & Hn' & Hnd').
  assert (nd' = nd) as -> by congruence. clear Hn'. rewrite Hd in Hnd'.
  destruct Hnd' as [Hnext Hprev].
  destruct (destroy_rest st n) as (Hnl & _ & Hsubd).
  split; [|split; [|split; [|split]]].
  - intros path2 L2. rewrite Hsubd. intros HL2.
    destruct (decide (path2 = path)) as [->|Hne].
    + assert (L2 = pre0 ++ n :: post0) as -> by congruence.
      eapply destroy_list_ok_same; eauto.
    + apply (list_ok_ext st); [| |by apply Hlists].
      * intros m Hm. rewrite (destroy_subs _ _ _ _ Hn Hd).
        rewrite decide_False.
        2:{ intros <-. apply Hne. eapply Hdisj; [exact HL2|exact HL|done|].
            apply elem_of_app. right. by left. }
        rewrite decide_False.
        2:{ rewrite Hprev. intros Hp.
            destruct (last (lives st pre0)) eqn:Hlast; simplify_eq/=.
            apply last_lives_elem in Hlast as [Hlast _].
            apply Hne. eapply Hdisj; [exact HL2|exact HL|done|].
            apply elem_of_app. by left. }
        rewrite decide_False; [done|].
        rewrite Hnext. intros Hx. apply head_lives_elem in Hx as [Hx _].
        apply Hne. eapply Hdisj; [exact HL2|exact HL|done|].
        apply elem_of_app. right. by right.
      * rewrite (destroy_tree _ _ _ _ Hn Hd). rewrite decide_False; [done|].
        rewrite Hprev. destruct (last (lives st pre0)); simpl; congruence.
  - intros path2. rewrite Hsubd. intros HL2.
    rewrite (destroy_tree _ _ _ _ Hn Hd). rewrite decide_False; [by apply Hnone|].
    rewrite Hprev. destruct (last (lives st pre0)); simpl; [done|].
    intros [= ->]. congruence.
  - rewrite Hsubd. apply Hdisj.
  - intros m ndm. rewrite Hsubd, (destroy_subs _ _ _ _ Hn Hd).
    intros Hm. destruct (subs st !! m) as [ndm0|] eqn:Hm0.
    + by eapply Hown.
    + repeat case_decide; simplify_eq/=.
  - rewrite Hsubd, Hnl. apply Hbound.
Qed.

Lemma for_each_destroy_inv st l :
  inv st → inv (for_each l destroy st).2.
Proof.
  revert st. induction l as [|n l IH]; intros st Hinv; [done|].
  simpl. unfold bind.
  pose proof (destroy_succeeds st n) as Hs.
  pose proof (destroy_inv st n Hinv) as Hinv'.
  destruct (destroy n st) as [[[]|e] st1]; simpl in *; [|done].
  by apply IH.
Qed.

Lemma for_each_destroy_succeeds st l :
  (for_each l destroy st).1 = Return tt.
Proof.
  revert st. induction l as [|n l IH]; intros st; [done|].
  simpl. unfold bind.
  pose proof (destroy_succeeds st n) as Hs.
  destruct (destroy n st) as [[[]|e] st1]; simpl in *; [|done].
  apply IH.
Qed.

Lemma for_each_destroy_live st l m :
  live (for_each l destroy st).2 m =
    if decide (m ∈ l) then false else live st m.
Proof.
  revert st. induction l as [|n l IH]; intros st.
  - destruct (decide (m ∈ [])) as [H|]; [by apply not_elem_of_nil in H|done].
  - simpl. unfold bind.
    pose proof (destroy_succeeds st n) as Hs.
    pose proof (destroy_live st n m) as Hl.
    destruct (destroy n st) as [[[]|e] st1]; simpl in *; [|done].
    rewrite IH, Hl.
    destruct (decide (m ∈ l)) as [Hin|Hnin].
    + rewrite decide_True; [done|by right].
    + destruct (decide (n = m)) as [->|Hne].
      * rewrite decide_True; [done|by left].
      * rewrite decide_False; [done|].
        intros [?|?]%elem_of_cons; by simplify_eq.
Qed.

Lemma for_each_destroy_rest st l :
  next_loc (for_each l destroy st).2 = next_loc st ∧
  delivered (for_each l destroy st).2 = delivered st ∧
  subscribed (for_each l destroy st).2 = subscribed st ∧
  (∀ m, callback_of (for_each l destroy st).2 m = callback_of st m) ∧
  (∀ m, is_Some (subs (for_each l destroy st).2 !! m) ↔
        is_Some (subs st !! m)).
Proof.
  revert st. induction l as [|n l IH]; intros st; [done|].
  simpl. unfold bind.
  pose proof (destroy_succeeds st n) as Hs.
  pose proof (destroy_rest st n) as (H1 & H2 & H3).
  pose proof (destroy_callback st n) as H4.
  assert (H5 : ∀ m, is_Some (subs (destroy n st).2 !! m) ↔
                    is_Some (subs st !! m)).
  { intros m. destruct (live st n) eqn:Hlive_n;
      [|by rewrite destroy_dead].
    unfold live in Hlive_n.
    destruct (subs st !! n) as [nd|] eqn:Hn; [|done].
    destruct (destroyed nd) eqn:Hd; [done|].
    rewrite (destroy_subs _ _ _ _ Hn Hd).
    destruct (subs st !! m); repeat case_decide; simpl;
      split; intros [? ?]; simplify_eq/=; eauto. }
  destruct (destroy n st) as [[[]|e] st1]; simpl in *; [|done].
  destruct (IH st1) as (I1 & I2 & I3 & I4 & I5).
  rewrite I1, I2, I3. split; [done|]. split; [done|]. split; [done|].
  split.
  - intros m. by rewrite I4.
  - intros m. by rewrite I5.
Qed.

(** *** What [sub] does *)

Lemma sub_eq path cb st :
  sub path cb st =
    (Return (next_loc st),
     mkInstance
       (match tree st !! path with
        | Some x => alter (set_prev (Sub (next_loc st))) x
        | None => id
        end (<[next_loc st :=
                 mkSubscription cb (TreeNode path) (tree st !! path) false]>
               (subs st)))
       (<[path := next_loc st]> (tree st))
       (S (next_loc st)) (delivered st)
       (<[path := next_loc st :: default [] (subscribed st !! path)]>
          (subscribed st))).
Proof.
  unfold sub, bind, get_state, put_state. simpl.
  by destruct (tree st !! path).
Qed.

Lemma inv_fresh st : inv st → subs st !! next_loc st = None.
Proof.
  intros (_ & _ & _ & Hown & Hbound).
  destruct (subs st !! next_loc st) as [nd|] eqn:Hn; [|done].
  destruct (Hown _ _ Hn) as (path & L & HL & Hin).
  specialize (Hbound _ _ _ HL Hin). lia.
Qed.

Lemma inv_head st path :
  inv st →
  tree st !! path = head (lives st (default [] (subscribed st !! path))).
Proof.
  intros (Hlists & Hnone & _).
  destruct (subscribed st !! path) as [L|] eqn:HL; simpl.
  - by destruct (Hlists _ _ HL) as (_ & ? & _).
  - by apply Hnone.
Qed.

Lemma sub_inv st path cb : inv st → inv (sub path cb st).2.
Proof.
  intros Hinv. pose proof (inv_fresh st Hinv) as Hfresh.
  pose proof (inv_head st path Hinv) as Hfirst.
  destruct Hinv as (Hlists & Hnone & Hdisj & Hown & Hbound).
  rewrite sub_eq. simpl.
  set (n := next_loc st) in *.
  set (L0 := default [] (subscribed st !! path)) in *.
  set (new := mkSubscription cb (TreeNode path) (tree st !! path) false).
  set (st' := mkInstance _ _ _ _ _).
  assert (HL0 : ∀ m, m ∈ L0 → subscribed st !! path = Some L0 ∧ m < n).
  { intros m Hm. subst L0. destruct (subscribed st !! path) as [L|] eqn:HL;
      simpl in *; [|by apply not_elem_of_nil in Hm].
    split; [done|]. by eapply Hbound. }
  assert (Hfirst_in : ∀ x, tree st !! path = Some x → x ∈ L0 ∧ live st x = true).
  { intros x Hx. rewrite Hfirst in Hx. by apply head_lives_elem. }
  assert (Hsubs : ∀ m, subs st' !! m =
    if decide (m = n) then Some new
    else if decide (tree st !! path = Some m)
         then set_prev (Sub n) <$> subs st !! m else subs st !! m).
  { intros m. simpl. destruct (tree st !! path) as [x|] eqn:Hx; simpl.
    - destruct (Hfirst_in x eq_refl) as [Hxin _].
      destruct (HL0 _ Hxin) as [_ Hlt].
      rewrite lookup_alter. case_decide; simplify_eq.
      + rewrite decide_False by lia. rewrite decide_True by done.
        rewrite lookup_insert_ne by lia. done.
      + rewrite lookup_insert. case_decide; simplify_eq.
        * by rewrite decide_True.
        * rewrite decide_False by done. rewrite decide_False; [done|congruence].
    - rewrite lookup_insert. case_decide; simplify_eq.
      + by rewrite decide_True.
      + by rewrite decide_False. }
  assert (Hlive : ∀ m, live st' m = if decide (m = n) then true else live st m).
  { intros m. unfold live. rewrite Hsubs.
    repeat case_decide; simpl; try done. by destruct (subs st !! m). }
  assert (Hlives : ∀ l, n ∉ l → lives st' l = lives st l).
  { intros l Hl. apply lives_ext. intros m Hm. rewrite Hlive.
    case_decide; [by subst|done]. }
  assert (Hn_L0 : n ∉ L0).
  { intros Hin. destruct (HL0 _ Hin). lia. }
  assert (Hother : ∀ path2 L2, path2 ≠ path →
            subscribed st !! path2 = Some L2 → list_ok st' path2 L2).
  { intros path2 L2 Hne HL2. apply (list_ok_ext st); [| |by apply Hlists].
    - intros m Hm. rewrite Hsubs.
      rewrite decide_False.
      2:{ intros ->. specialize (Hbound _ _ _ HL2 Hm). lia. }
      rewrite decide_False; [done|].
      intros Hx. destruct (Hfirst_in _ Hx) as [Hxin _].
      destruct (HL0 _ Hxin) as [HL _].
      apply Hne. by eapply Hdisj.
    - simpl. by rewrite lookup_insert_ne. }
  split; [|split; [|split; [|split]]].
  - intros path2 L2. simpl. rewrite lookup_insert.
    case_decide as Hp; [|by apply Hother].
    subst path2. intros [= <-].
    assert (HndL0 : NoDup L0).
    { subst L0. destruct (subscribed st !! path) as [L|] eqn:HL; simpl.
      - by destruct (Hlists _ _ HL) as (? & _).
      - constructor. }
    split; [by constructor|]. split.
    { simpl. rewrite lookup_insert_eq, lives_cons, Hlive.
      by rewrite decide_True. }
    intros pre m post Heq. destruct pre as [|k pre1]; simpl in Heq.
    + (* the new subscription *)
      injection Heq as <- <-. exists new. split.
      { rewrite Hsubs. by rewrite decide_True. }
      simpl. split; [|done]. by rewrite Hlives.
    + (* an older subscription *)
      injection Heq as <- ->.
      assert (Hm_in : m ∈ pre1 ++ m :: post)
        by (apply elem_of_app; right; by left).
      destruct (HL0 _ Hm_in) as [HL Hlt].
      destruct (Hlists _ _ HL) as (_ & _ & Hnodes).
      destruct (Hnodes pre1 m post eq_refl) as (ndm & Hm & Hndm).
      assert (Hm_pre : m ∉ pre1).
      { apply NoDup_app in HndL0 as (_ & Hd & _). intros Hin.
        apply (Hd _ Hin). by left. }
      assert (Hn_pre : n ∉ pre1).
      { intros Hin. apply Hn_L0. apply elem_of_app. by left. }
      assert (Hn_post : n ∉ post).
      { intros Hin. apply Hn_L0. apply elem_of_app. right. by right. }
      rewrite lives_app, lives_cons in Hfirst.
      destruct (destroyed ndm) eqn:Hdm.
      * assert (Hlm : live st m = false) by (unfold live; by rewrite Hm, Hdm).
        exists ndm. split.
        -- rewrite Hsubs. rewrite decide_False by lia.
           rewrite decide_False; [done|].
           intros Hx. destruct (Hfirst_in _ Hx). congruence.
        -- rewrite Hdm. eapply reaches_ext; [|done].
           intros j Hj Hlj. rewrite Hlive. case_decide; [|done].
           by subst.
      * assert (Hlm : live st m = true) by (unfold live; by rewrite Hm, Hdm).
        rewrite Hlm in Hfirst. destruct Hndm as [Hnext Hprev].
        rewrite lives_cons, Hlive, decide_True by done.
        rewrite (Hlives pre1), (Hlives post) by done.
        destruct (lives st pre1) as [|y lp] eqn:Hlp.
        -- simpl in Hfirst.
           exists (set_prev (Sub n) ndm). split.
           ++ rewrite Hsubs. rewrite decide_False by lia.
              rewrite decide_True by done. by rewrite Hm.
           ++ simpl. by rewrite Hdm.
        -- exists ndm. split.
           ++ rewrite Hsubs. rewrite decide_False by lia.
              rewrite decide_False; [done|].
              rewrite Hfirst. simpl. intros [= ->]. apply Hm_pre.
              assert (m ∈ lives st pre1) as Hin by (rewrite Hlp; by left).
              by apply lives_elem in Hin as [? _].
           ++ rewrite Hdm. split; [done|].
              by rewrite Hprev.
  - intros path2. simpl. rewrite !lookup_insert.
    case_decide; [done|]. apply Hnone.
  - intros p1 p2 L1 L2 m. simpl. rewrite !lookup_insert.
    repeat case_decide; simplify_eq; try done.
    + intros [= <-] HL2 Hm1 Hm2.
      apply elem_of_cons in Hm1 as [->|Hm1].
      * specialize (Hbound _ _ _ HL2 Hm2). lia.
      * destruct (HL0 _ Hm1) as [HL _]. by eapply Hdisj.
    + intros HL1 [= <-] Hm1 Hm2.
      apply elem_of_cons in Hm2 as [->|Hm2].
      * specialize (Hbound _ _ _ HL1 Hm1). lia.
      * destruct (HL0 _ Hm2) as [HL _]. by eapply Hdisj.
    + apply Hdisj.
  - intros m ndm. rewrite Hsubs. simpl.
    case_decide as Hmn.
    + intros _. exists path, (n :: L0). rewrite lookup_insert_eq.
      split; [done|]. subst. by left.
    + intros Hm.
      assert (is_Some (subs st !! m)) as [ndm0 Hm0].
      { case_decide; [|eauto]. destruct (subs st !! m); [eauto|done]. }
      destruct (Hown _ _ Hm0) as (pm & Lm & HLm & Hin).
      destruct (decide (pm = path)) as [->|Hpm].
      * exists path, (n :: L0). rewrite lookup_insert_eq. split; [done|].
        right. subst L0. by rewrite HLm.
      * exists pm, Lm. by rewrite lookup_insert_ne.
  - intros path2 L2 m. simpl. rewrite lookup_insert.
    case_decide.
    + intros [= <-] [->|Hm]%elem_of_cons; [lia|].
      destruct (HL0 _ Hm). lia.
    + intros HL2 Hm. specialize (Hbound _ _ _ HL2 Hm). fold n in Hbound. lia.
Qed.

Lemma inv_empty : inv empty_instance.
Proof.
  split; [|split; [|split; [|split]]]; simpl.
  - intros path L. by rewrite lookup_empty.
  - intros path _. by rewrite lookup_empty.
  - intros p1 p2 L1 L2 n. by rewrite lookup_empty.
  - intros n nd. by rewrite lookup_empty.
  - intros path L n. by rewrite lookup_empty.
Qed.

(** *** Deliveries on lists *)

Lemma deliver_ext cbs cbs' D L :
  (∀ n, cbs n = cbs' n) → deliver cbs D L = deliver cbs' D L.
Proof.
  intros Hc. revert D. induction L as [|a L IH]; intros D; [done|].
  simpl. case_decide; [done|]. by rewrite IH, Hc.
Qed.

Lemma dead_after_ext cbs cbs' D L :
  (∀ n, cbs n = cbs' n) → dead_after cbs D L = dead_after cbs' D L.
Proof.
  intros Hc. revert D. induction L as [|a L IH]; intros D; [done|].
  simpl. case_decide; [done|]. by rewrite IH, Hc.
Qed.

Lemma deliver_skip cbs D mid L :
  Forall (λ m, m ∈ D) mid → deliver cbs D (mid ++ L) = deliver cbs D L.
Proof.
  induction 1 as [|a mid Ha _ IH]; [done|]. simpl. by rewrite decide_True.
Qed.

Lemma dead_after_skip cbs D mid L :
  Forall (λ m, m ∈ D) mid → dead_after cbs D (mid ++ L) = dead_after cbs D L.
Proof.
  induction 1 as [|a mid Ha _ IH]; [done|]. simpl. by rewrite decide_True.
Qed.

Lemma deliver_app cbs D L1 L2 :
  deliver cbs D (L1 ++ L2) =
    deliver cbs D L1 ++ deliver cbs (dead_after cbs D L1) L2.
Proof.
  revert D. induction L1 as [|a L1 IH]; intros D; [done|].
  simpl. case_decide; [done|]. simpl. by rewrite IH.
Qed.

Lemma dead_after_app cbs D L1 L2 :
  dead_after cbs D (L1 ++ L2) = dead_after cbs (dead_after cbs D L1) L2.
Proof.
  revert D. induction L1 as [|a L1 IH]; intros D; [done|].
  simpl. by case_decide.
Qed.

Lemma deliver_elem cbs D L n :
  n ∈ deliver cbs D L → n ∈ L ∧ n ∉ D.
Proof.
  revert D. induction L as [|a L IH]; intros D; simpl.
  - by intros ?%not_elem_of_nil.
  - case_decide as Ha.
    + intros [? ?]%IH. split; [by right|done].
    + intros [->|Hn]%elem_of_cons; [split; [by left|done]|].
      apply IH in Hn as [? Hn]. split; [by right|].
      intros HD. apply Hn. apply elem_of_union. by left.
Qed.

Lemma deliver_NoDup cbs D L : NoDup L → NoDup (deliver cbs D L).
Proof.
  intros Hnd. revert D. induction Hnd as [|a L Ha Hnd IH]; intros D; simpl.
  - constructor.
  - case_decide; [apply IH|]. constructor; [|apply IH].
    by intros [? _]%deliver_elem.
Qed.

Lemma deliver_not_destroyed_before cbs D L t1 n t2 :
  deliver cbs D L = t1 ++ n :: t2 → ∀ m, m ∈ t1 → n ∉ cbs m.
Proof.
  revert D t1. induction L as [|a L IH]; intros D t1; simpl.
  - by destruct t1.
  - case_decide as Ha; [apply IH|].
    destruct t1 as [|b t1]; simpl.
    + intros _ m ?%not_elem_of_nil. done.
    + intros [= <- Heq] m [->|Hm]%elem_of_cons.
      * assert (n ∈ deliver cbs (D ∪ list_to_set (cbs a)) L) as Hn.
        { rewrite Heq. apply elem_of_app. right. by left. }
        apply deliver_elem in Hn as [_ Hn]. intros Hc. apply Hn.
        apply elem_of_union. right. by apply elem_of_list_to_set.
      * by eapply IH.
Qed.

Lemma deliver_complete cbs D l1 n l2 :
  n ∉ D → n ∉ deliver cbs D (l1 ++ n :: l2) →
  ∃ m, m ∈ l1 ∧ m ∈ deliver cbs D (l1 ++ n :: l2) ∧ n ∈ cbs m.
Proof.
  revert D. induction l1 as [|a l1 IH]; intros D HD; simpl.
  - rewrite decide_False by done. intros Hn. exfalso. apply Hn. by left.
  - case_decide as Ha.
    + intros Hn. destruct (IH D HD Hn) as (m & ? & ? & ?).
      exists m. split; [by right|done].
    + intros Hn. apply not_elem_of_cons in Hn as [Hna Hn].
      destruct (decide (n ∈ cbs a)) as [Hc|Hc].
      * exists a. split; [by left|]. split; [by left|done].
      * destruct (IH (D ∪ list_to_set (cbs a))) as (m & ? & ? & ?); [|done|].
        { intros [?|?%elem_of_list_to_set]%elem_of_union; done. }
        exists m. split; [by right|]. split; [by right|done].
Qed.

(** *** The delivery loop *)

Lemma invoke_eq n nd st :
  invoke n nd st =
    for_each (callback nd) destroy
      (mkInstance (subs st) (tree st) (next_loc st) (n :: delivered st)
                  (subscribed st)).
Proof. done. Qed.

Lemma inv_log st n :
  inv st →
  inv (mkInstance (subs st) (tree st) (next_loc st) (n :: delivered st)
                  (subscribed st)).
Proof. done. Qed.

Lemma notify_from_spec fuel : ∀ cur st pre post path D cbs,
  inv st →
  subscribed st !! path = Some (pre ++ post) →
  reaches st post cur →
  agree st D →
  (∀ n, callback_of st n = cbs n) →
  length post ≤ fuel →
  ∃ st',
    notify_from fuel cur st = (Return (length (deliver cbs D post)), st') ∧
    delivered st' = rev (deliver cbs D post) ++ delivered st ∧
    inv st' ∧
    subscribed st' = subscribed st ∧
    next_loc st' = next_loc st ∧
    agree st' (dead_after cbs D post) ∧
    (∀ n, callback_of st' n = cbs n) ∧
    (∀ n, live st n = false → live st' n = false).
Proof.
  induction fuel as [|fuel IH];
    intros cur st pre post path D cbs Hinv HL Hreach HD Hcbs Hlen.
  { destruct post; [|simpl in Hlen; lia].
    destruct cur as [m|]; simpl in Hreach.
    - destruct Hreach as (mid & post' & Heq & _). by destruct mid.
    - exists st. simpl. done. }
  pose proof Hinv as (Hlists & _).
  destruct (Hlists _ _ HL) as (Hnd & _ & Hnodes).
  assert (Hexists : ∀ k, k ∈ post → is_Some (subs st !! k)).
  { intros k Hk. apply list_elem_of_split in Hk as (a & b & ->).
    destruct (Hnodes (pre ++ a) k b) as (ndk & Hk & _);
      [by rewrite <- app_assoc|]. eauto. }
  assert (Hdead_D : ∀ l, l ⊆ post → Forall (λ m, live st m = false) l →
                         Forall (λ m, m ∈ D) l).
  { intros l Hl Hall. apply Forall_forall. intros k Hk.
    apply HD; [by apply Hexists, Hl|]. by eapply Forall_forall in Hall. }
  destruct cur as [m|]; simpl in Hreach.
  2:{ (* the end of the list *)
    exists st. simpl.
    assert (deliver cbs D post = []) as Hdel.
    { rewrite <- (app_nil_r post). by rewrite deliver_skip by by apply Hdead_D. }
    assert (dead_after cbs D post = D) as Hda.
    { rewrite <- (app_nil_r post).
      by rewrite dead_after_skip by by apply Hdead_D. }
    rewrite Hdel, Hda. done. }
  destruct Hreach as (mid & post' & -> & Hmid).
  assert (Hmid_D : Forall (λ m, m ∈ D) mid).
  { apply Hdead_D; [|done]. intros k Hk. apply elem_of_app. by left. }
  rewrite deliver_skip, dead_after_skip by done.
  destruct (Hnodes (pre ++ mid) m post') as (ndm & Hm & Hndm);
    [by rewrite <- app_assoc|].
  assert (HL' : subscribed st !! path = Some ((pre ++ mid ++ [m]) ++ post')).
  { rewrite HL. f_equal. by rewrite <- !app_assoc. }
  assert (Hlen' : length post' ≤ fuel).
  { rewrite length_app in Hlen. simpl in Hlen. lia. }
  simpl. unfold bind at 1, get_state. simpl. rewrite Hm.
  destruct (destroyed ndm) eqn:Hdm.
  - (* a destroyed subscription is passed over *)
    assert (m ∈ D) as HmD.
    { apply HD; [eauto|]. unfold live. by rewrite Hm, Hdm. }
    rewrite !decide_True by done.
    destruct (IH (next ndm) st _ post' path D cbs Hinv HL' Hndm HD Hcbs Hlen')
      as (st' & Hrun & Hrest).
    exists st'. unfold bind, ret. simpl. rewrite Hrun. done.
  - (* a live subscription is invoked *)
    assert (m ∉ D) as HmD.
    { intros Hin. apply HD in Hin; [|eauto]. unfold live in Hin.
      by rewrite Hm, Hdm in Hin. }
    rewrite !decide_False by done.
    destruct Hndm as [Hnext _].
    unfold bind at 1. unfold bind at 1. rewrite invoke_eq.
    set (st0 := mkInstance _ _ _ (m :: delivered st) _).
    pose proof (for_each_destroy_succeeds st0 (callback ndm)) as Hs.
    pose proof (for_each_destroy_inv st0 (callback ndm) (inv_log st m Hinv))
      as Hinv1.
    pose proof (for_each_destroy_live st0 (callback ndm)) as Hlive1.
    destruct (for_each_destroy_rest st0 (callback ndm))
      as (Hnl1 & Hdel1 & Hsub1 & Hcb1 & Hdom1).
    destruct (for_each (callback ndm) destroy st0) as [[[]|e] st1];
      simpl in *; [|done].
    assert (Hcbm : cbs m = callback ndm).
    { rewrite <- Hcbs. unfold callback_of. by rewrite Hm. }
    assert (HL1 : subscribed st1 !! path = Some ((pre ++ mid ++ [m]) ++ post'))
      by by rewrite Hsub1.
    assert (Hreach1 : reaches st1 post' (next ndm)).
    { rewrite Hnext. eapply (reaches_ext st); [|apply head_lives_reaches].
      intros k _ Hk. rewrite Hlive1. case_decide; [done|]. exact Hk. }
    assert (HD1 : agree st1 (D ∪ list_to_set (cbs m))).
    { intros k Hk. rewrite Hlive1. apply Hdom1 in Hk.
      rewrite elem_of_union, elem_of_list_to_set, Hcbm.
      case_decide as Hin.
      - split; [done|]. intros _. by right.
      - split.
        + intros [HkD|?]; [|done]. by apply HD.
        + intros Hlk. left. by apply HD. }
    assert (Hcbs1 : ∀ k, callback_of st1 k = cbs k).
    { intros k. by rewrite Hcb1, <- Hcbs. }
    destruct (IH (next ndm) st1 _ post' path _ cbs Hinv1 HL1 Hreach1 HD1 Hcbs1
                 Hlen') as (st' & Hrun & Hdel & Hinv' & Hsub' & Hnl' & HD' & Hcbs'
                            & Hmono).
    exists st'. unfold bind, ret. simpl. rewrite Hrun. simpl.
    split; [done|]. split.
    { rewrite Hdel, Hdel1. by rewrite <- app_assoc. }
    split; [done|]. split; [congruence|]. split; [congruence|].
    split; [done|]. split; [done|].
    intros k Hk. apply Hmono. rewrite Hlive1. by case_decide.
Qed.

Lemma NoDup_bounded_length (l : list nat) n :
  NoDup l → (∀ x, x ∈ l → x < n) → length l ≤ n.
Proof.
  intros Hnd Hb. trans (length (seq 0 n)); [|by rewrite length_seq].
  apply submseteq_length.
  apply NoDup_submseteq; [done|]. intros x Hx. apply elem_of_seq.
  specialize (Hb _ Hx). lia.
Qed.

Lemma inv_subscribed_on st p :
  inv st →
  NoDup (subscribed_on st p) ∧
  (∀ n, n ∈ subscribed_on st p → n < next_loc st) ∧
  reaches st (subscribed_on st p) (tree st !! p).
Proof.
  intros Hinv. pose proof (inv_head st p Hinv) as Hhead.
  destruct Hinv as (Hlists & Hnone & _ & _ & Hbound).
  unfold subscribed_on in *.
  destruct (subscribed st !! p) as [L|] eqn:HL; simpl in *.
  - destruct (Hlists _ _ HL) as (Hnd & _). split; [done|].
    split; [by eauto|]. rewrite Hhead. apply head_lives_reaches.
  - split; [constructor|]. split; [by intros n ?%not_elem_of_nil|].
    rewrite Hhead. constructor.
Qed.

Lemma notify_spec st p D cbs :
  inv st → agree st D → (∀ n, callback_of st n = cbs n) →
  ∃ st',
    notify p st =
      (Return (length (deliver cbs D (subscribed_on st p))), st') ∧
    delivered st' = rev (deliver cbs D (subscribed_on st p)) ++ delivered st ∧
    inv st' ∧
    subscribed st' = subscribed st ∧
    agree st' (dead_after cbs D (subscribed_on st p)) ∧
    (∀ n, callback_of st' n = cbs n).
Proof.
  intros Hinv HD Hcbs.
  destruct (inv_subscribed_on st p Hinv) as (Hnd & Hb & Hreach).
  unfold notify, bind, get_state. simpl.
  unfold subscribed_on in *.
  destruct (subscribed st !! p) as [L|] eqn:HL; simpl in *.
  - destruct (notify_from_spec (next_loc st) (tree st !! p) st [] L p D cbs)
      as (st' & Hrun & Hdel & Hinv' & Hsub & _ & HD' & Hcbs' & _);
      [done|done|done|done|done|by apply NoDup_bounded_length|].
    exists st'. done.
  - pose proof Hinv as (_ & Hnone & _). rewrite (Hnone _ HL).
    exists st. destruct (next_loc st); simpl; done.
Qed.

Lemma notify_all_spec ps : ∀ st D cbs,
  inv st → agree st D → (∀ n, callback_of st n = cbs n) →
  ∃ st',
    notify_all ps st =
      (Return (length (deliver cbs D (concat (subscribed_on st <$> ps)))),
       st') ∧
    delivered st' =
      rev (deliver cbs D (concat (subscribed_on st <$> ps))) ++ delivered st ∧
    inv st'.
Proof.
  induction ps as [|p ps IH]; intros st D cbs Hinv HD Hcbs.
  - exists st. done.
  - destruct (notify_spec st p D cbs Hinv HD Hcbs)
      as (st1 & Hrun1 & Hdel1 & Hinv1 & Hsub1 & HD1 & Hcbs1).
    destruct (IH st1 _ cbs Hinv1 HD1 Hcbs1) as (st' & Hrun & Hdel & Hinv').
    assert (Hsame : subscribed_on st1 <$> ps = subscribed_on st <$> ps).
    { apply list_fmap_ext. intros _ q _. unfold subscribed_on.
      by rewrite Hsub1. }
    rewrite Hsame in Hrun, Hdel.
    exists st'. simpl. unfold bind. rewrite Hrun1, Hrun. simpl.
    rewrite deliver_app, length_app.
    split; [done|]. split; [|done].
    rewrite Hdel, Hdel1, rev_app_distr. by rewrite <- app_assoc.
Qed.

Lemma agree_dead_set st : agree st (dead_set st).
Proof.
  intros n [nd Hn]. unfold dead_set, live. rewrite Hn.
  rewrite elem_of_dom. split.
  - intros [x Hx]. apply map_lookup_filter_Some in Hx as [Hx Hd].
    simpl in Hd. assert (x = nd) as -> by congruence. by rewrite Hd.
  - intros Hd. exists nd. apply map_lookup_filter_Some. split; [done|].
    simpl. by destruct (destroyed nd).
Qed.

Lemma pub_spec st path :
  inv st →
  ∃ st',
    pub path st =
      (Return (length (deliver (callback_of st) (dead_set st)
                               (candidates st path))), st') ∧
    delivered st' =
      rev (deliver (callback_of st) (dead_set st) (candidates st path))
        ++ delivered st ∧
    inv st'.
Proof.
  intros Hinv. apply notify_all_spec; [done|apply agree_dead_set|done].
Qed.

Lemma reachable_inv st : reachable st → inv st.
Proof.
  induction 1 as [|st path cb _ IH|st n _ IH|st path _ IH].
  - apply inv_empty.
  - by apply sub_inv.
  - by apply destroy_inv.
  - destruct (pub_spec st path IH) as (st' & Hrun & _ & Hinv').
    by rewrite Hrun.
Qed.

Lemma NoDup_inits {A} (l : list A) : NoDup (inits l).
Proof.
  induction l as [|x l IH]; simpl.
  - apply NoDup_singleton.
  - constructor.
    + intros Hin. apply list_elem_of_fmap in Hin as (y & Hy & _). done.
    + apply NoDup_fmap_2; [|done]. by intros ? ? [=].
Qed.

Lemma elem_of_concat {A} (x : A) (ls : list (list A)) :
  x ∈ concat ls → ∃ l, x ∈ l ∧ l ∈ ls.
Proof.
  induction ls as [|l ls IH]; simpl.
  - by intros ?%not_elem_of_nil.
  - intros [Hx|Hx]%elem_of_app.
    + exists l. split; [done|by left].
    + destruct (IH Hx) as (l' & ? & ?). exists l'. split; [done|by right].
Qed.

Lemma NoDup_candidates st path : inv st → NoDup (candidates st path).
Proof.
  intros Hinv. unfold candidates.
  pose proof (NoDup_inits path) as Hps.
  induction Hps as [|p ps Hp Hps IH]; simpl; [constructor|].
  apply NoDup_app. split; [by apply inv_subscribed_on|]. split; [|done].
  intros n Hn Hn'.
  apply elem_of_concat in Hn' as (L & Hn' & HL).
  apply list_elem_of_fmap in HL as (q & -> & Hq).
  destruct Hinv as (_ & _ & Hdisj & _).
  unfold subscribed_on in Hn, Hn'.
  destruct (subscribed st !! p) as [Lp|] eqn:HLp; simpl in *;
    [|by apply not_elem_of_nil in Hn].
  destruct (subscribed st !! q) as [Lq|] eqn:HLq; simpl in *;
    [|by apply not_elem_of_nil in Hn'].
  assert (p = q) as -> by by eapply Hdisj. done.
Qed.

Lemma candidates_exist st path n :
  inv st → n ∈ candidates st path → is_Some (subs st !! n).
Proof.
  intros (Hlists & _) Hn. unfold candidates in Hn.
  apply elem_of_concat in Hn as (L & Hn & HL).
  apply list_elem_of_fmap in HL as (q & -> & _).
  unfold subscribed_on in Hn.
  destruct (subscribed st !! q) as [Lq|] eqn:HLq; simpl in *;
    [|by apply not_elem_of_nil in Hn].
  destruct (Hlists _ _ HLq) as (_ & _ & Hnodes).
  apply list_elem_of_split in Hn as (a & b & ->).
  destruct (Hnodes a n b eq_refl) as (nd & -> & _). eauto.
Qed.



(** The test's expectation: both callbacks are invoked, the newer first. *)
Example pub_two_self_destroying :
  (pub ["a"] ex_two_self_destroying).1 = Return 2 ∧
  delivered (pub ["a"] ex_two_self_destroying).2 = [0; 1].
Proof. by vm_compute. Qed.

End PubSubTheory.

Module SlotTheory.
Import Slot.
Local Open Scope js_scope.

Ltac run_slots :=
  repeat (simpl;
          unfold bind, ret, throw, get_state, link_log, put_s1, put_s2,
            put_feedback1, put_feedback2, rel_log, put_self, put_other,
            put_feedback, add_feedbackCounter; simpl;
          try case_decide; simplify_eq/=).

Section Link.
Context {V : Type} `{EqDecision V}.
Variables adapt1 adapt2 : V → V → V.

Lemma linkFrom_bounded a b fuel :
  6 ≤ fuel →
  ∃ st', linkFrom adapt1 adapt2 fuel a b = (Return tt, st') ∧
         feedback1 st' = false ∧ feedback2 st' = false ∧
         length (link_calls st') ≤ 4.
Proof.
  intros Hfuel. do 6 (destruct fuel as [|fuel]; [lia|]). clear Hfuel.
  unfold linkFrom. run_slots; eexists; (split; [done|]); simpl; auto with lia.
Qed.

Lemma link_set_bounded a b v fuel :
  6 ≤ fuel →
  (∃ st', link_run adapt1 adapt2 fuel (S1_set v) (linked a b)
            = (Return tt, st') ∧
          feedback1 st' = false ∧ feedback2 st' = false ∧
          length (link_calls st') ≤ 5) ∧
  (∃ st', link_run adapt1 adapt2 fuel (S2_set v) (linked a b)
            = (Return tt, st') ∧
          feedback1 st' = false ∧ feedback2 st' = false ∧
          length (link_calls st') ≤ 5).
Proof.
  intros Hfuel. do 6 (destruct fuel as [|fuel]; [lia|]). clear Hfuel.
  unfold linked. split.
  - run_slots; eexists; (split; [done|]); simpl; auto with lia.
  - run_slots; eexists; (split; [done|]); simpl; auto with lia.
Qed.

Lemma linkFrom_accepted a b fuel :
  6 ≤ fuel → a ≠ b → adapt1 a b = b →
  linkFrom adapt1 adapt2 fuel a b =
    (Return tt, mkLinkState b b false false [Set1 b]).
Proof.
  intros Hfuel Hab Hacc. do 6 (destruct fuel as [|fuel]; [lia|]). clear Hfuel.
  unfold linkFrom. run_slots; rewrite ?Hacc in *; run_slots; congruence.
Qed.

Lemma linkFrom_corrected a b fuel :
  6 ≤ fuel → a ≠ b → adapt1 a b ≠ b →
  adapt2 b (adapt1 a b) = adapt1 a b →
  linkFrom adapt1 adapt2 fuel a b =
    (Return tt,
     mkLinkState (adapt1 a b) (adapt1 a b) false false
                 [Set1 b; Set2 (adapt1 a b)]).
Proof.
  intros Hfuel Hab Hco Hacc.
  do 6 (destruct fuel as [|fuel]; [lia|]). clear Hfuel.
  unfold linkFrom. run_slots; rewrite ?Hacc in *; run_slots; congruence.
Qed.

Lemma link_set1_propagates a v fuel :
  6 ≤ fuel → v ≠ a → adapt1 a v = v → adapt2 a v = v →
  link_run adapt1 adapt2 fuel (S1_set v) (linked a a) =
    (Return tt, mkLinkState v v false false [Set1 v; Set2 v]).
Proof.
  intros Hfuel Hva H1 H2.
  do 6 (destruct fuel as [|fuel]; [lia|]). clear Hfuel.
  unfold linked. run_slots; rewrite ?H1, ?H2 in *; run_slots; congruence.
Qed.

Lemma link_set2_propagates a v fuel :
  6 ≤ fuel → v ≠ a → adapt1 a v = v → adapt2 a v = v →
  link_run adapt1 adapt2 fuel (S2_set v) (linked a a) =
    (Return tt, mkLinkState v v false false [Set2 v; Set1 v]).
Proof.
  intros Hfuel Hva H1 H2.
  do 6 (destruct fuel as [|fuel]; [lia|]). clear Hfuel.
  unfold linked. run_slots; rewrite ?H1, ?H2 in *; run_slots; congruence.
Qed.

End Link.

Local Open Scope Z_scope.

Section Relate.
Context {V : Type} `{EqDecision V}.
Variables adapt1 adapt2 : V → V → V.
Variables f fPrime : V → V.

(** With [expectUnstable] set, nothing ever throws [DivergentRelation]. *)
Lemma rel_run_unstable_never_diverges fuel : ∀ c st,
  (rel_run adapt1 adapt2 f fPrime true fuel c st).1 ≠ Throw DivergentRelation.
Proof.
  induction fuel as [|fuel IH]; intros c st; [done|].
  destruct c as [v|v| |]; simpl;
    unfold bind, ret, get_state, rel_log, put_self, put_other, put_feedback,
      add_feedbackCounter; simpl.
  - case_decide; [done|]. apply IH.
  - case_decide; [done|]. apply IH.
  - destruct (feedback st); [done|]. simpl.
    match goal with |- context [rel_run _ _ _ _ _ fuel ?c ?s] =>
      pose proof (IH c s) as Hn;
      destruct (rel_run adapt1 adapt2 f fPrime true fuel c s) as [[[]|e] s1]
    end; simpl in *; done.
  - destruct (feedback st); [done|]. simpl.
    match goal with |- context [rel_run _ _ _ _ _ fuel ?c ?s] =>
      pose proof (IH c s) as Hn;
      destruct (rel_run adapt1 adapt2 f fPrime true fuel c s) as [[[]|e] s1]
    end; simpl in *; done.
Qed.

Ltac run_rel :=
  repeat (simpl;
          unfold bind, ret, throw, get_state, rel_log, put_self, put_other,
            put_feedback, add_feedbackCounter; simpl;
          try case_decide; try case_bool_decide; simplify_eq/=; try lia).

(** With [expectUnstable] set, the listener of the other side is suppressed
    while one side propagates: a set is passed on once and not echoed. *)
Lemma rel_run_unstable_suppressed a b v fuel :
  (4 ≤ fuel)%nat →
  rel_run adapt1 adapt2 f fPrime true fuel (Self_set v) (related a b) =
    (Return tt,
     if decide (adapt1 a v = a) then mkRelState a b false 0 [Set1 v]
     else mkRelState (adapt1 a v) (adapt2 b (f (adapt1 a v))) false 0
                     [Set1 v; Set2 (f (adapt1 a v))]) ∧
  rel_run adapt1 adapt2 f fPrime true fuel (Other_set v) (related a b) =
    (Return tt,
     if decide (adapt2 b v = b) then mkRelState a b false 0 [Set2 v]
     else mkRelState (adapt1 a (fPrime (adapt2 b v))) (adapt2 b v) false 0
                     [Set2 v; Set1 (fPrime (adapt2 b v))]) ∧
  relateTo adapt1 adapt2 f fPrime true fuel a b =
    (Return tt, mkRelState a (adapt2 b (f a)) false 0 [Set2 (f a)]).
Proof.
  intros Hfuel. do 4 (destruct fuel as [|fuel]; [lia|]). clear Hfuel.
  unfold relateTo, related. split; [|split].
  - run_rel; try done; repeat f_equal; congruence.
  - run_rel; try done; repeat f_equal; congruence.
  - run_rel; try done; repeat f_equal; congruence.
Qed.

End Relate.

Section Relate.
Context {V : Type} `{EqDecision V}.
Variables f fPrime : V → V.

Ltac run_rel_with tac :=
  repeat (simpl;
          unfold bind, ret, throw, get_state, rel_log, put_self, put_other,
            put_feedback, add_feedbackCounter, accept; simpl;
          try case_decide; try case_bool_decide; try tac;
          simplify_eq/=; try lia).

Lemma relateTo_diverges a b fuel :
  (16 ≤ fuel)%nat → never_settles f fPrime → f a ≠ b →
  ∃ st', relateTo accept accept f fPrime false fuel a b
           = (Throw DivergentRelation, st') ∧
         length (rel_calls st') = 6%nat ∧ feedbackCounter st' = 6.
Proof.
  intros Hfuel [Hd1 Hd2] Hab.
  do 16 (destruct fuel as [|fuel]; [lia|]). clear Hfuel.
  unfold relateTo, related.
  run_rel_with ltac:(first [by exfalso; eapply Hd1; eassumption
                           |by exfalso; eapply Hd2; eassumption]).
  eexists. split; [done|]. done.
Qed.

Lemma rel_set_diverges a b v fuel :
  (16 ≤ fuel)%nat → never_settles f fPrime →
  (v ≠ a → f v ≠ b →
     ∃ st', rel_run accept accept f fPrime false fuel (Self_set v)
              (related a b) = (Throw DivergentRelation, st') ∧
            length (rel_calls st') = 7%nat) ∧
  (v ≠ b → fPrime v ≠ a →
     ∃ st', rel_run accept accept f fPrime false fuel (Other_set v)
              (related a b) = (Throw DivergentRelation, st') ∧
            length (rel_calls st') = 8%nat).
Proof.
  intros Hfuel [Hd1 Hd2].
  do 16 (destruct fuel as [|fuel]; [lia|]). clear Hfuel.
  unfold related. split.
  - intros Hva Hvb.
    run_rel_with ltac:(first [by exfalso; eapply Hd1; eassumption
                             |by exfalso; eapply Hd2; eassumption]).
    eexists. split; [done|]. done.
  - intros Hvb Hva.
    run_rel_with ltac:(first [by exfalso; eapply Hd1; eassumption
                             |by exfalso; eapply Hd2; eassumption]).
    eexists. split; [done|]. done.
Qed.

Lemma rel_settles a b v fuel :
  (16 ≤ fuel)%nat → (∀ x, fPrime (f x) = x) →
  (∃ st', relateTo accept accept f fPrime false fuel a b = (Return tt, st') ∧
          self_value st' = a ∧ other_value st' = f a ∧
          feedback st' = false ∧ feedbackCounter st' = 0) ∧
  (v ≠ a →
     ∃ st', rel_run accept accept f fPrime false fuel (Self_set v)
              (related a b) = (Return tt, st') ∧
            self_value st' = v ∧ other_value st' = f v ∧
            feedback st' = false ∧ feedbackCounter st' = 0) ∧
  (v ≠ b →
     ∃ st', rel_run accept accept f fPrime false fuel (Other_set v)
              (related a b) = (Return tt, st') ∧
            self_value st' = fPrime v ∧
            (other_value st' = v ∨ other_value st' = f (fPrime v)) ∧
            feedback st' = false ∧ feedbackCounter st' = 0).
Proof.
  intros Hfuel Hinv.
  do 16 (destruct fuel as [|fuel]; [lia|]). clear Hfuel.
  unfold relateTo, related. split; [|split].
  - run_rel_with ltac:(rewrite ?Hinv in *); eexists; (split; [done|]);
      simpl; rewrite ?Hinv; auto.
  - intros Hva.
    run_rel_with ltac:(rewrite ?Hinv in *); eexists; (split; [done|]);
      simpl; rewrite ?Hinv; auto.
  - intros Hvb.
    run_rel_with ltac:(rewrite ?Hinv in *); eexists; (split; [done|]);
      simpl; rewrite ?Hinv; auto.
Qed.

End Relate.



Lemma never_settles_succ : never_settles Z.succ Z.succ.
Proof. split; intros x; lia. Qed.


(** C4: with [expectUnstable] set, no run of the relation ever fails with
    [DivergentRelation], from any state, for any transforms and setters and
    however deep it is allowed to go; no divergence check is made.  The
    suppression is engaged on every propagation: a [set] on one side is
    passed on to the other side once and is not echoed back, [relateTo]
    itself and every [set] return, and the feedback flag and counter are
    back at rest afterwards. *)
Theorem relateTo_unstable_never_diverges {V : Type} `{EqDecision V}
    (adapt1 adapt2 : V → V → V) (f fPrime : V → V) :
  (∀ fuel c st,
     (rel_run adapt1 adapt2 f fPrime true fuel c st).1
       ≠ Throw DivergentRelation) ∧
  (∀ a b v fuel, (4 ≤ fuel)%nat →
     rel_run adapt1 adapt2 f fPrime true fuel (Self_set v) (related a b) =
       (Return tt,
        if decide (adapt1 a v = a) then mkRelState a b false 0 [Set1 v]
        else mkRelState (adapt1 a v) (adapt2 b (f (adapt1 a v))) false 0
                        [Set1 v; Set2 (f (adapt1 a v))]) ∧
     rel_run adapt1 adapt2 f fPrime true fuel (Other_set v) (related a b) =
       (Return tt,
        if decide (adapt2 b v = b) then mkRelState a b false 0 [Set2 v]
        else mkRelState (adapt1 a (fPrime (adapt2 b v))) (adapt2 b v) false 0
                        [Set2 v; Set1 (fPrime (adapt2 b v))]) ∧
     relateTo adapt1 adapt2 f fPrime true fuel a b =
       (Return tt, mkRelState a (adapt2 b (f a)) false 0 [Set2 (f a)])).
Proof.
  split; [intros fuel c st; apply rel_run_unstable_never_diverges|].
  intros a b v fuel Hfuel.
  by apply rel_run_unstable_suppressed.
Qed.

Lemma relateTo_unstable_never_diverges_witness :
  (rel_run accept accept Z.succ Z.succ true 16 (Self_set 10) (related 1 5)).1
    ≠ Throw DivergentRelation ∧
  relateTo accept accept Z.succ Z.succ true 16 1 5 =
    (Return tt, mkRelState 1 2 false 0 [Set2 2]).
Proof.
  split.
  - apply (proj1 (relateTo_unstable_never_diverges accept accept Z.succ Z.succ)).
  - refine (proj2 (proj2 (proj2 (relateTo_unstable_never_diverges
              accept accept Z.succ Z.succ) 1 5 0 16%nat _))). lia.
Defined.

(** C5, as the code has it.  [s1.linkFrom(s2)] always returns, after at
    most four calls of [set], and so does every later [set] on either slot,
    after at most five.  When the slots differ and the setter of [s1]
    stores the value of [s2], that one copy is all that happens and both
    slots then read the former value of [s2].  When the setter of [s1]
    rejects or coerces the copied value and the setter of [s2] stores what
    is copied back, exactly one copy back follows and both slots read what
    [s1] stored.  Once the slots agree, a [set] on either that both
    setters store is passed on to the other by one call. *)
Theorem linkFrom_copies_and_corrects {V : Type} `{EqDecision V}
    (adapt1 adapt2 : V → V → V) (a b v : V) (fuel : nat) :
  (6 ≤ fuel)%nat →
  (∃ st', linkFrom adapt1 adapt2 fuel a b = (Return tt, st') ∧
          feedback1 st' = false ∧ feedback2 st' = false ∧
          (length (link_calls st') ≤ 4)%nat) ∧
  (∃ st', link_run adapt1 adapt2 fuel (S1_set v) (linked a b)
            = (Return tt, st') ∧
          feedback1 st' = false ∧ feedback2 st' = false ∧
          (length (link_calls st') ≤ 5)%nat) ∧
  (∃ st', link_run adapt1 adapt2 fuel (S2_set v) (linked a b)
            = (Return tt, st') ∧
          feedback1 st' = false ∧ feedback2 st' = false ∧
          (length (link_calls st') ≤ 5)%nat) ∧
  (a ≠ b → adapt1 a b = b →
     linkFrom adapt1 adapt2 fuel a b =
       (Return tt, mkLinkState b b false false [Set1 b])) ∧
  (a ≠ b → adapt1 a b ≠ b → adapt2 b (adapt1 a b) = adapt1 a b →
     linkFrom adapt1 adapt2 fuel a b =
       (Return tt,
        mkLinkState (adapt1 a b) (adapt1 a b) false false
                    [Set1 b; Set2 (adapt1 a b)])) ∧
  (v ≠ a → adapt1 a v = v → adapt2 a v = v →
     link_run adapt1 adapt2 fuel (S1_set v) (linked a a) =
       (Return tt, mkLinkState v v false false [Set1 v; Set2 v]) ∧
     link_run adapt1 adapt2 fuel (S2_set v) (linked a a) =
       (Return tt, mkLinkState v v false false [Set2 v; Set1 v])).
Proof.
  intros Hfuel.
  split; [by apply linkFrom_bounded|].
  destruct (link_set_bounded adapt1 adapt2 a b v fuel Hfuel) as [H1 H2].
  split; [done|]. split; [done|].
  split; [by apply linkFrom_accepted|].
  split; [by apply linkFrom_corrected|].
  intros Hva Ha1 Ha2. split.
  - by apply link_set1_propagates.
  - by apply link_set2_propagates.
Qed.

Lemma linkFrom_copies_and_corrects_witness :
  (6 ≤ 6)%nat ∧ (1 ≠ 2) ∧ accept 1 2 = 2 ∧
  linkFrom accept accept 6 1 2 =
    (Return tt, mkLinkState 2 2 false false [Set1 2]).
Proof.
  split; [lia|]. split; [lia|]. split; [done|].
  refine (proj1 (proj2 (proj2 (proj2 (linkFrom_copies_and_corrects
            accept accept 1 2 0 6 _)))) _ _); [lia|lia|done].
Defined.

(** The specification's example: slots at 1 and 2; after the link both read
    2; [a.set(5)] brings the other to 5, [b.set(9)] the first to 9. *)
Example linkFrom_spec_example :
  linkFrom accept accept 6 1 2 =
    (Return tt, mkLinkState 2 2 false false [Set1 2]) ∧
  link_run accept accept 6 (S1_set 5) (linked 2 2) =
    (Return tt, mkLinkState 5 5 false false [Set1 5; Set2 5]) ∧
  link_run accept accept 6 (S2_set 9) (linked 5 5) =
    (Return tt, mkLinkState 9 9 false false [Set2 9; Set1 9]).
Proof. by vm_compute. Qed.

(** C5 as the specification states it does not hold for every pair of
    property slots: [s1] keeps its value at most 10 and [s2] keeps its
    value at least 20; they hold 5 and 25.  The setter of [s1] coerces the
    copied 25 to 10, and then two copies back to [s2] are made, not one
    (and a second copy to [s1] between them); the slots end at 10 and 20. *)
Lemma linkFrom_two_copies_back :
  at_most 10 5 25 ≠ 25 ∧
  linkFrom (at_most 10) (at_least 20) 6 5 25 =
    (Return tt,
     mkLinkState 10 20 false false [Set1 25; Set2 10; Set1 20; Set2 10]) ∧
  length (filter (λ c, is_Set2 c = true)
                 (link_calls (linkFrom (at_most 10) (at_least 20) 6 5 25).2))
    = 2%nat.
Proof. by vm_compute. Qed.

Section Flow.
Context {V : Type} `{EqDecision V}.
Variables adapt1 adapt2 : V → V → V.
Variable f : V → V.

Lemma filter_Set2_snoc1 (calls : list (SetCall V)) v :
  filter is_Set2 (calls ++ [Set1 v]) = filter is_Set2 calls ++ [].
Proof. by rewrite filter_app. Qed.

Lemma filter_Set2_snoc2 (calls : list (SetCall V)) v :
  filter is_Set2 (calls ++ [Set2 v]) = filter is_Set2 calls ++ [Set2 v].
Proof. by rewrite filter_app. Qed.

(** Neither listener calls [other.set]: whatever the listener and the
    setters, [other]'s value after a run is what the sets from outside
    make of it, and the calls of [other.set] are those from outside. *)
Lemma flow_run_source (l : M FlowState unit) ops st :
  (∀ st0, ∃ st1, l st0 = (Return tt, st1) ∧
     src_value st1 = src_value st0 ∧
     filter is_Set2 (flow_calls st1) = filter is_Set2 (flow_calls st0)) →
  ∃ st', flow_run adapt1 adapt2 l ops st = (Return tt, st') ∧
    src_value st' = src_after adapt2 (src_value st) ops ∧
    filter is_Set2 (flow_calls st') =
      filter is_Set2 (flow_calls st) ++ other_sets ops.
Proof.
  intros Hl. revert st. induction ops as [|op ops IH]; intros st.
  - exists st. simpl. by rewrite app_nil_r.
  - unfold flow_run. cbn [for_each]. unfold bind.
    assert (∃ st1, flow_op adapt1 adapt2 l op st = (Return tt, st1) ∧
              src_value st1 = src_after adapt2 (src_value st) [op] ∧
              filter is_Set2 (flow_calls st1) =
                filter is_Set2 (flow_calls st) ++ other_sets [op])
      as (st1 & Hop & Hsrc & Hcalls).
    { destruct op as [v|v]; simpl.
      - eexists. split; [done|]. simpl. split; [done|].
        apply filter_Set2_snoc1.
      - unfold other_set. case_decide as Hsame.
        + eexists. split; [done|]. simpl. split; [done|].
          apply filter_Set2_snoc2.
        + destruct (Hl (mkFlowState (this_value st)
                          (adapt2 (src_value st) v)
                          (flow_calls st ++ [Set2 v])))
            as (st1 & -> & Hs & Hc).
          exists st1. split; [done|]. rewrite Hs, Hc. simpl.
          split; [done|]. apply filter_Set2_snoc2. }
    rewrite Hop. destruct (IH st1) as (st' & Hrun & Hsrc' & Hcalls').
    exists st'. split; [exact Hrun|]. rewrite Hsrc', Hcalls', Hsrc, Hcalls.
    simpl. split; [done|]. rewrite <- app_assoc. f_equal.
    by destruct op.
Qed.

Lemma follow_l_source st0 :
  ∃ st1, follow_l adapt1 st0 = (Return tt, st1) ∧
    src_value st1 = src_value st0 ∧
    filter is_Set2 (flow_calls st1) = filter is_Set2 (flow_calls st0).
Proof.
  unfold follow_l, bind, get_state. case_decide.
  - by exists st0.
  - eexists. split; [done|]. simpl. split; [done|].
    by rewrite filter_Set2_snoc1, app_nil_r.
Qed.

Lemma mapFrom_l_source st0 :
  ∃ st1, mapFrom_l adapt1 f st0 = (Return tt, st1) ∧
    src_value st1 = src_value st0 ∧
    filter is_Set2 (flow_calls st1) = filter is_Set2 (flow_calls st0).
Proof.
  unfold mapFrom_l, bind, get_state. eexists. split; [done|]. simpl.
  split; [done|].
  by rewrite filter_Set2_snoc1, app_nil_r.
Qed.

(** X16: [follow] is one-way and keeps [this] equal to [other].  [this.follow
    (other)] sets [this] once, to [other]'s value, when the two differ and
    not at all when they are equal, and never sets [other]: after any later
    sets on either slot [other] holds what the sets on [other] alone make of
    it, and no call of [other.set] has been made but those.  When [this]
    stores what it is offered and only [other] is set from outside, the
    two slots hold the same value after every set. *)
Theorem follow_tracks_one_way a b ops :
  ∃ st0 st,
    follow adapt1 a b = (Return tt, st0) ∧
    src_value st0 = b ∧
    flow_calls st0 = (if decide (a = b) then [] else [Set1 b]) ∧
    flow_run adapt1 adapt2 (follow_l adapt1) ops st0 = (Return tt, st) ∧
    src_value st = src_after adapt2 b ops ∧
    filter is_Set2 (flow_calls st) = other_sets ops ∧
    ((∀ old v, adapt1 old v = v) →
     forallb is_OtherSet ops = true →
     this_value st = src_value st).
Proof.
  destruct (follow_l_source (mkFlowState a b [])) as (st0 & Hst0 & Hs0 & Hc0).
  destruct (flow_run_source (follow_l adapt1) ops st0 follow_l_source)
    as (st & Hrun & Hs & Hc).
  exists st0, st. split; [exact Hst0|]. split; [exact Hs0|].
  assert (Hcalls0 : flow_calls st0 = if decide (a = b) then [] else [Set1 b]).
  { unfold follow_l, bind, get_state, ret, this_set in Hst0. simpl in Hst0.
    destruct (decide (a = b)); injection Hst0 as <-; done. }
  split; [exact Hcalls0|]. split; [exact Hrun|].
  split; [by rewrite Hs, Hs0|].
  split; [by rewrite Hc, Hc0|].
  intros Hacc Hops.
  assert (Heq0 : this_value st0 = src_value st0).
  { unfold follow_l, bind, get_state, ret, this_set in Hst0. simpl in Hst0.
    destruct (decide (a = b)); injection Hst0 as <-; simpl;
      [done|apply Hacc]. }
  clear Hst0 Hs0 Hc0 Hcalls0 Hs Hc. revert st0 st Hrun Heq0.
  induction ops as [|op ops IH]; intros st0 st Hrun Heq0.
  - by injection Hrun as <-.
  - destruct op as [v|v]; [done|]. simpl in Hops.
    unfold flow_run in Hrun. cbn [for_each] in Hrun. unfold bind in Hrun.
    destruct (flow_op adapt1 adapt2 (follow_l adapt1) (OtherSet v) st0)
      as [[[]|e] st1] eqn:Hop; [|done].
    apply (IH Hops st1 st Hrun).
    simpl in Hop. unfold other_set in Hop. case_decide as Hsame.
    + injection Hop as <-. simpl. congruence.
    + unfold follow_l, bind, get_state, ret, this_set in Hop. simpl in Hop.
      destruct (decide (this_value st0 = adapt2 (src_value st0) v));
        injection Hop as <-; simpl; [done|apply Hacc].
Qed.

(** X17: [mapFrom] is one-way and keeps [this] at the image of [other].
    [this.mapFrom(other, f)] sets [this] to [f] of [other]'s value at once,
    equal or not, and never sets [other]; and when [this] stores what it is
    offered and only [other] is set from outside, [this] holds [f] of
    [other]'s value after every set. *)
Theorem mapFrom_keeps_image a b ops :
  ∃ st0 st,
    mapFrom adapt1 f a b = (Return tt, st0) ∧
    src_value st0 = b ∧
    flow_calls st0 = [Set1 (f b)] ∧
    flow_run adapt1 adapt2 (mapFrom_l adapt1 f) ops st0 = (Return tt, st) ∧
    src_value st = src_after adapt2 b ops ∧
    filter is_Set2 (flow_calls st) = other_sets ops ∧
    ((∀ old v, adapt1 old v = v) →
     forallb is_OtherSet ops = true →
     this_value st = f (src_value st)).
Proof.
  destruct (mapFrom_l_source (mkFlowState a b [])) as (st0 & Hst0 & Hs0 & Hc0).
  destruct (flow_run_source (mapFrom_l adapt1 f) ops st0 mapFrom_l_source)
    as (st & Hrun & Hs & Hc).
  exists st0, st. split; [exact Hst0|]. split; [exact Hs0|].
  assert (Hcalls0 : flow_calls st0 = [Set1 (f b)]).
  { unfold mapFrom_l, bind, get_state, this_set in Hst0. simpl in Hst0.
    by injection Hst0 as <-. }
  split; [exact Hcalls0|]. split; [exact Hrun|].
  split; [by rewrite Hs, Hs0|].
  split; [by rewrite Hc, Hc0|].
  intros Hacc Hops.
  assert (Heq0 : this_value st0 = f (src_value st0)).
  { unfold mapFrom_l, bind, get_state, this_set in Hst0. simpl in Hst0.
    injection Hst0 as <-. simpl. apply Hacc. }
  clear Hst0 Hs0 Hc0 Hcalls0 Hs Hc. revert st0 st Hrun Heq0.
  induction ops as [|op ops IH]; intros st0 st Hrun Heq0.
  - by injection Hrun as <-.
  - destruct op as [v|v]; [done|]. simpl in Hops.
    unfold flow_run in Hrun. cbn [for_each] in Hrun. unfold bind in Hrun.
    destruct (flow_op adapt1 adapt2 (mapFrom_l adapt1 f) (OtherSet v) st0)
      as [[[]|e] st1] eqn:Hop; [|done].
    apply (IH Hops st1 st Hrun).
    simpl in Hop. unfold other_set in Hop. case_decide as Hsame.
    + injection Hop as <-. simpl. congruence.
    + unfold mapFrom_l, bind, get_state, this_set in Hop. simpl in Hop.
      injection Hop as <-. simpl. apply Hacc.
Qed.

End Flow.

(** X18: [a.linkTo(b)] is [b.linkFrom(a)]: it copies the receiver's value into
    the argument, the other way round than [linkFrom].  When [b]'s setter
    stores [a]'s value both slots hold it after one call of [b.set]; when
    it coerces the value and [a]'s setter stores what comes back, both
    slots hold the coerced value after one copy back. *)
Theorem linkTo_copies_receiver {V : Type} `{EqDecision V}
    (adapt1 adapt2 : V → V → V) (a b : V) (fuel : nat) :
  (6 ≤ fuel)%nat → a ≠ b →
  (adapt2 b a = a →
   linkTo adapt1 adapt2 fuel a b =
     (Return tt, mkLinkState a a false false [Set1 a])) ∧
  (adapt2 b a ≠ a → adapt1 a (adapt2 b a) = adapt2 b a →
   linkTo adapt1 adapt2 fuel a b =
     (Return tt,
      mkLinkState (adapt2 b a) (adapt2 b a) false false
                  [Set1 a; Set2 (adapt2 b a)])).
Proof.
  intros Hfuel Hab. unfold linkTo. split.
  - intros Hacc. by apply linkFrom_accepted.
  - intros Hco Hacc. by apply linkFrom_corrected.
Qed.

Lemma linkTo_copies_receiver_witness :
  (6 ≤ 6)%nat ∧ 5 ≠ 25 ∧
  linkTo accept accept 6 5 25 =
    (Return tt, mkLinkState 5 5 false false [Set1 5]).
Proof.
  split; [lia|]. split; [done|].
  exact (proj1 (linkTo_copies_receiver accept accept 5 25 6
                  (le_n 6) ltac:(done)) eq_refl).
Defined.

(** X19: [a.relateFrom(b, f, fPrime)] is [b.relateTo(a, fPrime, f)] with no
    [expectUnstable]: the relation starts by setting [a] to [fPrime] of
    [b]'s value, and it always checks for divergence.  With transforms that
    never give back what they were given it fails with
    [DivergentRelation]; with [f] undoing [fPrime] it settles with [a] at
    [fPrime] of [b]'s value and [b] as it was. *)
Theorem relateFrom_checks_divergence {V : Type} `{EqDecision V}
    (f fPrime : V → V) (a b : V) (fuel : nat) :
  (16 ≤ fuel)%nat →
  (never_settles f fPrime → fPrime b ≠ a →
   ∃ st', relateFrom accept accept f fPrime fuel a b
            = (Throw DivergentRelation, st') ∧
          length (rel_calls st') = 6%nat) ∧
  ((∀ y, f (fPrime y) = y) →
   ∃ st', relateFrom accept accept f fPrime fuel a b = (Return tt, st') ∧
          other_value st' = fPrime b ∧ self_value st' = b ∧
          feedback st' = false ∧ feedbackCounter st' = 0).
Proof.
  intros Hfuel. unfold relateFrom. split.
  - intros [Hd1 Hd2] Hab.
    destruct (relateTo_diverges fPrime f b a fuel Hfuel) as (st' & Hrun & Hn & _);
      [by split|done|].
    by exists st'.
  - intros Hinv.
    destruct (rel_settles fPrime f b a b fuel Hfuel Hinv)
      as ((st' & Hrun & Hself & Hother & Hfb & Hfc) & _).
    by exists st'.
Qed.

Lemma relateFrom_checks_divergence_witness :
  (16 ≤ 16)%nat ∧ never_settles Z.succ Z.succ ∧ Z.succ 2 ≠ 1 ∧
  ∃ st', relateFrom accept accept Z.succ Z.succ 16 1 2
           = (Throw DivergentRelation, st').
Proof.
  split; [lia|]. split; [exact never_settles_succ|]. split; [done|].
  destruct (proj1 (relateFrom_checks_divergence Z.succ Z.succ 1 2 16
                     (le_n 16)) never_settles_succ ltac:(done))
    as (st' & Hrun & _).
  by exists st'.
Defined.

End SlotTheory.

Module FoamStdlibTheory.
Import FoamStdlib.
Local Open Scope Z_scope.

(** *** 32-bit arithmetic and the hash codes *)

Lemma ToInt32_range x : -2147483648 ≤ ToInt32 x < 2147483648.
Proof.
  unfold ToInt32.
  pose proof (Z.mod_pos_bound (x + 2147483648) 4294967296). lia.
Qed.

Lemma ToInt32_small x : -2147483648 ≤ x < 2147483648 → ToInt32 x = x.
Proof. unfold ToInt32. intros Hx. rewrite Z.mod_small; lia. Qed.

Lemma ToInt32_congr x y k : x = y + 4294967296 * k → ToInt32 x = ToInt32 y.
Proof.
  intros ->. unfold ToInt32. f_equal.
  replace (y + 4294967296 * k + 2147483648)
    with (y + 2147483648 + k * 4294967296) by lia.
  apply Z.mod_add. lia.
Qed.

Lemma ToInt32_quot x : ∃ k, ToInt32 x = x + 4294967296 * k.
Proof.
  exists (- ((x + 2147483648) / 4294967296)). unfold ToInt32.
  pose proof (Z.div_mod (x + 2147483648) 4294967296). lia.
Qed.

Lemma band_diag x : band x x = ToInt32 x.
Proof.
  unfold band. rewrite Z.land_diag. apply ToInt32_small, ToInt32_range.
Qed.

Lemma shl_5 x : ∃ k, shl x 5 = 32 * x + 4294967296 * k.
Proof.
  unfold shl. change (5 mod 32) with 5. rewrite Z.shiftl_mul_pow2 by lia.
  change (2 ^ 5) with 32.
  destruct (ToInt32_quot x) as [k1 ->].
  destruct (ToInt32_quot ((x + 4294967296 * k1) * 32)) as [k2 ->].
  exists (32 * k1 + k2). lia.
Qed.

Lemma hash_step h c :
  ToInt32 (shl h 5 - h + c) = ToInt32 (31 * h + c).
Proof.
  destruct (shl_5 h) as [k ->]. apply (ToInt32_congr _ _ k). lia.
Qed.

Lemma String_hashCode_snoc s c :
  String_hashCode (s ++ [c]) = ToInt32 (31 * String_hashCode s + c).
Proof.
  unfold String_hashCode. rewrite foldl_snoc. cbv zeta.
  by rewrite band_diag, hash_step.
Qed.

Lemma poly31_snoc s c : poly31 (s ++ [c]) = 31 * poly31 s + c.
Proof. unfold poly31. by rewrite foldl_snoc. Qed.

(** X20: [foam.String.hashCode] is Java's string hash: the polynomial in 31
    over the code units, truncated to a signed 32-bit integer after each
    character, which gives the truncation of the whole polynomial; the
    empty string hashes to 0. *)
Theorem String_hashCode_poly31 s :
  String_hashCode s = ToInt32 (poly31 s) ∧
  -2147483648 ≤ String_hashCode s < 2147483648 ∧
  String_hashCode [] = 0 ∧
  ∀ c, String_hashCode (s ++ [c]) = ToInt32 (31 * String_hashCode s + c).
Proof.
  assert (Hpoly : String_hashCode s = ToInt32 (poly31 s)).
  { induction s as [|c s IH] using rev_ind; [done|].
    rewrite String_hashCode_snoc, poly31_snoc, IH.
    destruct (ToInt32_quot (poly31 s)) as [k ->].
    apply (ToInt32_congr _ _ (31 * k)). lia. }
  split; [done|]. split; [rewrite Hpoly; apply ToInt32_range|].
  split; [done|]. intros c. apply String_hashCode_snoc.
Qed.

Section Arrays.
Context {V : Type}.
Variable hashCode : V → Z.

(** X21: [foam.Array.hashCode] leaves out the truncation after each element.
    When the hash codes of the elements are 32-bit integers, its result,
    truncated to 32 bits, is [foam.String.hashCode] of the elements' hash
    codes; the result itself is bounded by 2^32 times the length of the
    array, so the arithmetic is exact for arrays shorter than 2^21. *)
Theorem Array_hashCode_truncated a :
  (∀ x, -2147483648 ≤ hashCode x < 2147483648) →
  ToInt32 (Array_hashCode hashCode a) = String_hashCode (hashCode <$> a) ∧
  Z.abs (Array_hashCode hashCode a) ≤ 4294967296 * Z.of_nat (length a).
Proof.
  intros Hh. induction a as [|x a [IH1 IH2]] using rev_ind; [done|].
  unfold Array_hashCode in *. rewrite foldl_snoc, fmap_app. simpl.
  rewrite String_hashCode_snoc, <- IH1.
  set (h := foldl _ 0 a) in *. split.
  - rewrite hash_step. destruct (ToInt32_quot h) as [k ->].
    apply (ToInt32_congr _ _ (- 31 * k)). lia.
  - rewrite length_app. simpl. pose proof (Hh x).
    pose proof (ToInt32_range (Z.shiftl (ToInt32 h) (5 mod 32))).
    unfold shl. lia.
Qed.

End Arrays.

Lemma Array_hashCode_truncated_witness :
  (∀ x, -2147483648 ≤ Number_hashCode x < 2147483648) ∧
  ToInt32 (Array_hashCode Number_hashCode [2147483647; 7]) =
    String_hashCode (Number_hashCode <$> [2147483647; 7]) ∧
  Array_hashCode Number_hashCode [2147483647; 7] = -2147483672.
Proof.
  assert (Hh : ∀ x, -2147483648 ≤ Number_hashCode x < 2147483648).
  { intros x. apply ToInt32_range. }
  split; [exact Hh|]. split; [|done].
  exact (proj1 (Array_hashCode_truncated Number_hashCode
                  [2147483647; 7] Hh)).
Defined.
(** *** [foam.Array.diff] *)

Section Diff.
Context {V : Type} {Hdec : EqDecision V}.
Variable equals : V → V → bool.
Hypothesis equals_spec : ∀ x y, equals x y = true ↔ x = y.

Lemma diff_scan_missing x pre post :
  x ∉ post →
  diff_scan equals x pre post
    = (Z.of_nat (length (pre ++ post)), pre ++ post).
Proof using Hdec equals_spec.
  revert pre. induction post as [|y post IH]; intros pre Hx; simpl.
  - by rewrite app_nil_r.
  - apply not_elem_of_cons in Hx as [Hxy Hx].
    destruct (equals x y) eqn:He; [by apply equals_spec in He|].
    rewrite IH by done. by rewrite <- app_assoc.
Qed.

Lemma diff_scan_found x pre post :
  x ∈ post →
  ∃ l1 l2, post = l1 ++ x :: l2 ∧
    diff_scan equals x pre post
      = (Z.of_nat (length (pre ++ l1)) - 1, pre ++ l1 ++ l2).
Proof using Hdec equals_spec.
  revert pre. induction post as [|y post IH]; intros pre Hx;
    [by apply elem_of_nil in Hx|]. simpl.
  destruct (equals x y) eqn:He.
  - apply equals_spec in He as <-. exists [], post. split; [done|].
    by rewrite app_nil_r.
  - assert (x ∈ post) as Hin.
    { apply elem_of_cons in Hx as [->|?]; [|done].
      assert (equals y y = true) by by apply equals_spec. congruence. }
    destruct (IH (pre ++ [y]) Hin) as (l1 & l2 & -> & ->).
    exists (y :: l1), l2. split; [done|]. by rewrite <- !app_assoc.
Qed.

(** One turn of the outer loop of [diff]. *)
Lemma diff_step added removed x :
  (let '(j, added') := diff_scan equals x [] added in
   (added',
    if decide (j = Z.of_nat (length added')) then removed ++ [x]
    else removed)) =
  if decide (x ∈ added)
  then (match diff_scan equals x [] added with (_, added') => added' end,
        removed)
  else (added, removed ++ [x]).
Proof using Hdec equals_spec.
  case_decide as Hx.
  - destruct (diff_scan_found x [] added Hx) as (l1 & l2 & -> & ->).
    simpl. rewrite decide_False; [done|]. rewrite !length_app. simpl. lia.
  - rewrite (diff_scan_missing x [] added Hx). simpl.
    by rewrite decide_True.
Qed.

Lemma diff_loop a : ∀ added0 removed0,
  (∀ y, y ∈ removed0 → y ∉ added0) →
  ∃ added removed rest,
    foldl (λ '(added, removed) x,
             let '(j, added') := diff_scan equals x [] added in
             (added',
              if decide (j = Z.of_nat (length added')) then removed ++ [x]
              else removed))
          (added0, removed0) a = (added, removed0 ++ rest) ∧
    removed = removed0 ++ rest ∧
    a ++ added ≡ₚ added0 ++ rest ∧
    (∀ y, y ∈ removed0 ++ rest → y ∉ added) ∧
    added `sublist_of` added0 ∧ rest `sublist_of` a.
Proof using Hdec equals_spec.
  induction a as [|x a IH]; intros added0 removed0 Hdis.
  - exists added0, removed0, []. simpl. rewrite !app_nil_r. done.
  - cbn [foldl]. rewrite diff_step. case_decide as Hx.
    + destruct (diff_scan_found x [] added0 Hx) as (l1 & l2 & Hadd & Hscan).
      rewrite Hscan. simpl.
      destruct (IH (l1 ++ l2) removed0) as (added & removed & rest & Hrun &
        -> & Hperm & Hdis' & Hsub & Hsub').
      { intros y Hy Hin. apply (Hdis y Hy). rewrite Hadd.
        rewrite elem_of_app, elem_of_cons.
        apply elem_of_app in Hin as [?|?]; auto. }
      exists added, (removed0 ++ rest), rest. split; [done|]. split; [done|].
      split; [|split; [done|split]].
      * simpl. rewrite Hperm, Hadd.
        rewrite <- !app_assoc. simpl.
        by rewrite (Permutation_middle l1 (l2 ++ rest) x).
      * etrans; [exact Hsub|]. rewrite Hadd.
        apply sublist_app; [done|]. by apply sublist_cons.
      * by apply sublist_cons.
    + destruct (IH added0 (removed0 ++ [x])) as (added & removed & rest &
        Hrun & -> & Hperm & Hdis' & Hsub & Hsub').
      { intros y [Hy|Hy%list_elem_of_singleton]%elem_of_app;
          [by apply Hdis|by subst]. }
      exists added, ((removed0 ++ [x]) ++ rest), (x :: rest).
      rewrite <- !app_assoc in *. simpl in *.
      split; [done|]. split; [done|]. split; [|split; [done|split]].
      * rewrite Hperm. by rewrite (Permutation_middle added0 rest x).
      * done.
      * by apply sublist_skip.
Qed.

(** X22: [foam.Array.diff(a, b)], when [foam.util.equals] decides equality of
    the elements: [added] and [removed] account for the difference of the
    two arrays as multisets, [a] with [added] being a permutation of [b]
    with [removed]; no element is in both; [added] keeps the order of [b]
    and [removed] that of [a]; and both are empty exactly when [a] is a
    permutation of [b]. *)
Theorem Array_diff_multiset a b :
  ∃ added removed,
    Array_diff equals a b = (added, removed) ∧
    a ++ added ≡ₚ b ++ removed ∧
    (∀ y, y ∈ removed → y ∉ added) ∧
    added `sublist_of` b ∧ removed `sublist_of` a ∧
    ((added = [] ∧ removed = []) ↔ a ≡ₚ b).
Proof using Hdec equals_spec.
  destruct (diff_loop a b []) as (added & removed & rest & Hrun & Hrem &
    Hperm & Hdis & Hsub & Hsub'); [by intros y ?%elem_of_nil|].
  simpl in *. subst removed.
  exists added, rest. split; [exact Hrun|]. split; [done|].
  split; [done|]. split; [done|]. split; [done|]. split.
  - intros [-> ->]. by rewrite !app_nil_r in Hperm.
  - intros Hab. rewrite Hab in Hperm.
    apply Permutation_app_inv_l in Hperm.
    destruct added as [|y added].
    + split; [done|]. by apply Permutation_nil_l in Hperm.
    + destruct (Hdis y); [|by left]. rewrite <- Hperm. by left.
Qed.

End Diff.

Lemma Array_diff_multiset_witness :
  (∀ x y : Z, Z.eqb x y = true ↔ x = y) ∧
  ∃ added removed,
    Array_diff Z.eqb [1; 2; 2] [2; 3] = (added, removed) ∧
    [1; 2; 2] ++ added ≡ₚ [2; 3] ++ removed.
Proof.
  split; [exact Z.eqb_eq|].
  destruct (Array_diff_multiset Z.eqb Z.eqb_eq [1; 2; 2] [2; 3])
    as (added & removed & Hrun & Hperm & _).
  by exists added, removed.
Defined.

(** *** [foam.Array.remove] *)

Section Remove.
Context {V : Type}.
Variable equals : V → V → bool.

Lemma remove_from_skip fuel o pre l :
  (length l ≤ fuel)%nat →
  remove_from equals fuel o (pre ++ l) (length pre)
    = Some (pre ++ skip_remove equals o l).
Proof.
  revert pre l. induction fuel as [|fuel IH]; intros pre l Hfuel.
  - destruct l; [|simpl in Hfuel; lia]. simpl.
    by rewrite lookup_ge_None_2 by (rewrite length_app; simpl; lia).
  - destruct l as [|x l].
    { simpl. by rewrite lookup_ge_None_2 by (rewrite length_app; simpl; lia). }
    cbn [remove_from].
    rewrite lookup_app_r, Nat.sub_diag by lia. cbn [lookup list_lookup].
    simpl in Hfuel. cbn [skip_remove]. destruct (equals o x).
    + assert (delete (length pre) (pre ++ x :: l) = pre ++ l) as ->.
      { rewrite delete_middle. done. }
      destruct l as [|y l].
      * destruct fuel; simpl;
          by rewrite lookup_ge_None_2 by (rewrite length_app; simpl; lia).
      * replace (pre ++ y :: l) with ((pre ++ [y]) ++ l)
          by by rewrite <- app_assoc.
        replace (S (length pre)) with (length (pre ++ [y]))
          by (rewrite length_app; simpl; lia).
        rewrite IH by (simpl in Hfuel; lia). by rewrite <- app_assoc.
    + replace (pre ++ x :: l) with ((pre ++ [x]) ++ l)
        by by rewrite <- app_assoc.
      replace (S (length pre)) with (length (pre ++ [x]))
        by (rewrite length_app; simpl; lia).
      rewrite IH by lia. by rewrite <- app_assoc.
Qed.

Lemma skip_remove_facts o n : ∀ l, (length l ≤ n)%nat →
  skip_remove equals o l `sublist_of` l ∧
  filter (λ x, equals o x = false) (skip_remove equals o l)
    = filter (λ x, equals o x = false) l ∧
  (no_adjacent equals o l →
   skip_remove equals o l = filter (λ x, equals o x = false) l).
Proof.
  induction n as [|n IH]; intros l Hn.
  { destruct l; [done|simpl in Hn; lia]. }
  destruct l as [|x l]; [done|]. simpl in Hn. cbn [skip_remove].
  destruct (equals o x) eqn:Hx.
  - rewrite !(filter_cons_False _ x) by congruence.
    destruct l as [|y l]; [split; [apply sublist_nil_l|done]|].
    simpl in Hn. destruct (IH l) as (Hsub & Hfil & Hadj); [lia|].
    split; [by apply sublist_cons, sublist_skip|]. split.
    + rewrite !filter_cons. destruct (decide (equals o y = false));
        by rewrite Hfil.
    + intros [Hxy Hrest]. rewrite filter_cons_True by auto.
      f_equal. apply Hadj. by destruct l as [|z l]; [|destruct Hrest].
  - rewrite !(filter_cons_True _ x) by done.
    destruct (IH l) as (Hsub & Hfil & Hadj); [lia|].
    split; [by apply sublist_skip|]. split.
    + by rewrite Hfil.
    + intros Hrest. f_equal. apply Hadj.
      by destruct l as [|y l]; [|destruct Hrest].
Qed.

(** X23: [foam.Array.remove(a, o)] moves on after a splice, so that it passes
    over the element that takes the place of the one removed.  The loop
    ends; it never removes or reorders an element that does not match [o];
    it removes every match when no two neighbours both match; and of two
    matches at the head of the array the second is left in. *)
Theorem Array_remove_skips a o :
  ∃ r, Array_remove equals a o = Some r ∧
    r `sublist_of` a ∧
    filter (λ x, equals o x = false) r = filter (λ x, equals o x = false) a ∧
    (no_adjacent equals o a → r = filter (λ x, equals o x = false) a) ∧
    (∀ x y, equals o x = true →
       Array_remove equals (x :: y :: a) o = Some (y :: r)).
Proof.
  assert (Hrun : ∀ l, Array_remove equals l o = Some (skip_remove equals o l)).
  { intros l. unfold Array_remove.
    exact (remove_from_skip (length l) o [] l (le_n _)). }
  exists (skip_remove equals o a). split; [apply Hrun|].
  destruct (skip_remove_facts o (length a) a) as (Hsub & Hfil & Hadj);
    [done|].
  split; [done|]. split; [done|]. split; [done|].
  intros x y Hx. rewrite Hrun. cbn [skip_remove]. by rewrite Hx.
Qed.

End Remove.

(** *** [foam.Array.compare] and [foam.Array.equals] *)

Section Compare.
Context {V : Type}.
Variable equals : V → V → bool.
Variable compare : V → V → Z.

Lemma Array_compare_cons x y a b :
  Array_compare compare (x :: a) (Some (y :: b)) =
    if decide (compare x y ≠ 0) then compare x y
    else Array_compare compare a (Some b).
Proof.
  unfold Array_compare. cbn [length Nat.min take zip_with first_nonzero].
  case_decide; [done|].
  destruct (first_nonzero _); [done|].
  repeat case_decide; try done; lia.
Qed.

Lemma Array_compare_nil_r a :
  Array_compare compare a (Some []) = if decide (a = []) then 0 else 1.
Proof.
  unfold Array_compare. rewrite Nat.min_0_r. simpl.
  destruct a; simpl; repeat case_decide; try done; simpl in *; lia.
Qed.

Lemma Array_compare_nil_l b :
  Array_compare compare [] (Some b) = if decide (b = []) then 0 else -1.
Proof.
  unfold Array_compare. simpl.
  destruct b; simpl; repeat case_decide; try done; simpl in *; lia.
Qed.

Lemma Array_equals_cons x y a b :
  Array_equals equals (x :: a) (y :: b) =
    if equals x y then Array_equals equals a b else false.
Proof.
  unfold Array_equals. simpl.
  destruct (equals x y); repeat case_decide; try done; lia.
Qed.

(** X24: [foam.Array.compare] orders arrays lexicographically.  When
    [foam.util.compare] is antisymmetric on the elements, so is
    [foam.Array.compare], an array compares as equal to itself, and an
    array comes before each of its proper extensions; a second argument
    that is not an array makes the result 1; and when [foam.util.compare]
    gives 0 exactly for the elements that [foam.util.equals] accepts,
    [foam.Array.compare] gives 0 exactly for the arrays that
    [foam.Array.equals] accepts. *)
Theorem Array_compare_lexicographic a b :
  (∀ x y, compare y x = - compare x y) →
  (∀ x y, compare x y = 0 ↔ equals x y = true) →
  Array_compare compare b (Some a) = - Array_compare compare a (Some b) ∧
  Array_compare compare a (Some a) = 0 ∧
  (∀ y l, Array_compare compare a (Some (a ++ y :: l)) = -1) ∧
  Array_compare compare a None = 1 ∧
  (Array_compare compare a (Some b) = 0 ↔ Array_equals equals a b = true).
Proof.
  intros Hanti Hzero.
  assert (Hrefl : ∀ x, compare x x = 0).
  { intros x. pose proof (Hanti x x). lia. }
  split; [|split; [|split; [|split]]].
  - revert b. induction a as [|x a IH]; intros b.
    + rewrite Array_compare_nil_r, Array_compare_nil_l.
      by case_decide.
    + destruct b as [|y b].
      * rewrite Array_compare_nil_r, Array_compare_nil_l.
        repeat case_decide; done.
      * rewrite !Array_compare_cons, IH, (Hanti x y).
        repeat case_decide; lia.
  - induction a as [|x a IH]; [done|].
    rewrite Array_compare_cons, Hrefl. by case_decide.
  - intros y l. induction a as [|x a IH].
    + by rewrite Array_compare_nil_l.
    + rewrite <- app_comm_cons, Array_compare_cons, Hrefl. by case_decide.
  - done.
  - revert b. induction a as [|x a IH]; intros b.
    + rewrite Array_compare_nil_l. unfold Array_equals.
      destruct b as [|y b]; simpl; repeat case_decide;
        (split; intros; first [done|lia|congruence]).
    + destruct b as [|y b].
      * rewrite Array_compare_nil_r. unfold Array_equals.
        simpl; repeat case_decide;
          (split; intros; first [done|lia|congruence]).
      * rewrite Array_compare_cons, Array_equals_cons.
        destruct (equals x y) eqn:He.
        -- apply Hzero in He. rewrite He. case_decide; [done|]. apply IH.
        -- case_decide as Hc; [split; [|done]|].
           ++ intros H0. rewrite H0 in Hc. done.
           ++ assert (compare x y = 0) as H0 by lia.
              apply Hzero in H0. congruence.
Qed.

End Compare.

Lemma Array_compare_lexicographic_witness :
  (∀ x y : Z, Number_compare y (Some x) = - Number_compare x (Some y)) ∧
  (∀ x y : Z, Number_compare x (Some y) = 0 ↔ Z.eqb x y = true) ∧
  Array_compare (λ x y, Number_compare x (Some y)) [1; 3] (Some [1; 2])
  = - Array_compare (λ x y, Number_compare x (Some y)) [1; 2] (Some [1; 3]).
Proof.
  assert (H1 : ∀ x y : Z,
            Number_compare y (Some x) = - Number_compare x (Some y)).
  { intros x y. unfold Number_compare. repeat case_decide; lia. }
  assert (H2 : ∀ x y : Z, Number_compare x (Some y) = 0 ↔ Z.eqb x y = true).
  { intros x y. rewrite Z.eqb_eq. unfold Number_compare.
    repeat case_decide; lia. }
  split; [exact H1|]. split; [exact H2|].
  exact (proj1 (Array_compare_lexicographic Z.eqb
                  (λ x y, Number_compare x (Some y)) [1; 2] [1; 3] H1 H2)).
Defined.

(** *** [foam.String.pad] *)

Section Pad.
Context {C : Type}.
Variable space : C.


End Pad.


End FoamStdlibTheory.

Module FoamObjectTheory.
Import FoamStdlib FoamObject.
Local Open Scope Z_scope.
Local Open Scope js_scope.

(** *** [$UID] *)

Lemma get_UID_eq o h ob :
  uobjects h !! o = Some ob →
  get_UID o h =
    match obj_UID__ ob with
    | Some u => (Return u, h)
    | None =>
        if obj_frozen ob
        then (Throw TypeError,
              mkUHeap (uobjects h) (unext_loc h) (uid_counter h + 1))
        else (Return (uid_counter h),
              mkUHeap (<[o := mkJSObject (Some (uid_counter h)) false]>
                         (uobjects h))
                      (unext_loc h) (uid_counter h + 1))
    end.
Proof.
  intros Ho. unfold get_UID, bind, get_state. rewrite Ho.
  destruct (obj_UID__ ob); [done|]. simpl. by destruct (obj_frozen ob).
Qed.

Lemma get_UID_missing o h :
  uobjects h !! o = None → get_UID o h = (Throw TypeError, h).
Proof. intros Ho. unfold get_UID, bind, get_state. by rewrite Ho. Qed.

Lemma uid_inv_empty : uid_inv empty_uheap.
Proof.
  split; [done|]. split; [|split]; simpl.
  - intros o ob u H. by rewrite lookup_empty in H.
  - intros o1 o2 ob1 ob2 u H. by rewrite lookup_empty in H.
  - intros o ob H. by rewrite lookup_empty in H.
Qed.

Lemma uid_inv_take h : uid_inv h → uid_inv (next_UID h).2.
Proof.
  intros (Hc & Hr & Hi & Hb). split; [simpl; lia|].
  split; [|split]; simpl; [|done..].
  intros o ob u Ho Hu. specialize (Hr _ _ _ Ho Hu). lia.
Qed.

Lemma uid_inv_new h : uid_inv h → uid_inv (new_object h).2.
Proof.
  intros (Hc & Hr & Hi & Hb). split; [done|]. split; [|split]; simpl.
  - intros o ob u. rewrite lookup_insert. case_decide; [by intros [= <-]|].
    apply Hr.
  - intros o1 o2 ob1 ob2 u. rewrite !lookup_insert.
    repeat case_decide; try (by intros [= <-]); try (by intros ? [= <-]).
    apply Hi.
  - intros o ob. rewrite lookup_insert. case_decide; [lia|].
    intros Ho. specialize (Hb _ _ Ho). lia.
Qed.

Lemma uid_inv_get o h : uid_inv h → uid_inv (get_UID o h).2.
Proof.
  intros Hinv. destruct (uobjects h !! o) as [ob|] eqn:Ho;
    [|by rewrite get_UID_missing].
  rewrite (get_UID_eq _ _ _ Ho). destruct (obj_UID__ ob) as [u|] eqn:Hu;
    [done|].
  destruct (obj_frozen ob); [by apply (uid_inv_take h)|].
  destruct Hinv as (Hc & Hr & Hi & Hb). split; [simpl; lia|].
  split; [|split]; simpl.
  - intros o' ob' u'. rewrite lookup_insert. case_decide.
    + intros [= <-] [= <-]. lia.
    + intros Ho' Hu'. specialize (Hr _ _ _ Ho' Hu'). lia.
  - intros o1 o2 ob1 ob2 u. rewrite !lookup_insert.
    repeat case_decide; subst.
    + done.
    + intros [= <-] Ho2 [= <-] Hu2. specialize (Hr _ _ _ Ho2 Hu2). lia.
    + intros Ho1 [= <-] Hu1 [= <-]. specialize (Hr _ _ _ Ho1 Hu1). lia.
    + apply Hi.
  - intros o' ob'. rewrite lookup_insert. case_decide; [|apply Hb].
    subst. intros _. by eapply Hb.
Qed.

Lemma uid_inv_freeze o h : uid_inv h → uid_inv (Object_freeze o h).2.
Proof.
  intros Hinv. unfold Object_freeze.
  destruct (uobjects h !! o) as [ob|] eqn:Ho; [|done].
  destruct Hinv as (Hc & Hr & Hi & Hb). split; [done|].
  split; [|split]; simpl.
  - intros o' ob' u'. rewrite lookup_insert. case_decide.
    + subst. intros [= <-]. simpl. by apply (Hr o' ob).
    + apply Hr.
  - intros o1 o2 ob1 ob2 u. rewrite !lookup_insert.
    repeat case_decide; subst.
    + done.
    + intros [= <-] Ho2. simpl. intros Hu1 Hu2.
      by apply (Hi o1 o2 ob ob2 u).
    + intros Ho1 [= <-]. simpl. intros Hu1 Hu2.
      by apply (Hi o1 o2 ob1 ob u).
    + apply Hi.
  - intros o' ob'. rewrite lookup_insert. case_decide; [|apply Hb].
    subst. intros _. by eapply Hb.
Qed.

Lemma uid_inv_foam_freeze o h : uid_inv h → uid_inv (foam_Object_freeze o h).2.
Proof.
  intros Hinv. unfold foam_Object_freeze, bind.
  pose proof (uid_inv_get o h Hinv) as H1.
  destruct (get_UID o h) as [[u|e] h1]; [|done].
  by apply uid_inv_freeze.
Qed.

Lemma uid_inv_compare a b h : uid_inv h → uid_inv (Object_compare a b h).2.
Proof.
  intros Hinv. unfold Object_compare, bind.
  pose proof (uid_inv_get a h Hinv) as H1.
  destruct (get_UID a h) as [[ua|e] h1]; [|done]. simpl in H1.
  destruct b as [b|]; [|done].
  pose proof (uid_inv_get b h1 H1) as H2.
  by destruct (get_UID b h1) as [[ub|e] h2].
Qed.

Lemma uid_inv_ops ops : uid_inv (run_uops ops).
Proof.
  unfold run_uops. induction ops as [|op ops IH] using rev_ind;
    [apply uid_inv_empty|].
  rewrite foldl_snoc. destruct op; simpl.
  - by apply uid_inv_new.
  - by apply uid_inv_take.
  - by apply uid_inv_get.
  - by apply uid_inv_freeze.
  - by apply uid_inv_foam_freeze.
  - by apply uid_inv_compare.
Qed.

Lemma get_UID_returns o h u h1 :
  get_UID o h = (Return u, h1) →
  ∃ ob1, uobjects h1 !! o = Some ob1 ∧ obj_UID__ ob1 = Some u ∧
    (∀ o' ob', o' ≠ o → uobjects h !! o' = Some ob' →
               uobjects h1 !! o' = Some ob').
Proof.
  intros Hget. destruct (uobjects h !! o) as [ob|] eqn:Ho;
    [|by rewrite get_UID_missing in Hget].
  rewrite (get_UID_eq _ _ _ Ho) in Hget.
  destruct (obj_UID__ ob) as [u0|] eqn:Hu.
  - injection Hget as <- <-. exists ob. done.
  - destruct (obj_frozen ob); [done|]. injection Hget as <- <-.
    eexists. simpl. split; [apply lookup_insert_eq|]. split; [done|].
    intros o' ob' Hne Ho'. by rewrite lookup_insert_ne.
Qed.

(** X26: The getter [$UID] numbers the objects apart.  After any steps of a
    program (new objects, calls of [foam.next$UID], reads of [$UID],
    freezes, comparisons) the ids in use are positive, below the counter
    and not shared; an id that a read of [$UID] returns is returned by
    every later read for that object, with no change to the store; and the
    read for another object returns another id. *)
Theorem UID_stable_and_unique ops :
  uid_inv (run_uops ops) ∧
  ∀ o1 u1 h1,
    get_UID o1 (run_uops ops) = (Return u1, h1) →
    get_UID o1 h1 = (Return u1, h1) ∧
    ∀ o2 u2 h2, o2 ≠ o1 →
      get_UID o2 h1 = (Return u2, h2) →
      u2 ≠ u1 ∧ get_UID o1 h2 = (Return u1, h2) ∧
      get_UID o2 h2 = (Return u2, h2).
Proof.
  pose proof (uid_inv_ops ops) as Hinv. split; [done|].
  set (h := run_uops ops) in *. intros o1 u1 h1 Hget1.
  pose proof (uid_inv_get o1 h Hinv) as Hinv1. rewrite Hget1 in Hinv1.
  destruct (get_UID_returns _ _ _ _ Hget1) as (ob1 & Ho1 & Hu1 & _).
  split; [by rewrite (get_UID_eq _ _ _ Ho1), Hu1|].
  intros o2 u2 h2 Hne Hget2.
  pose proof (uid_inv_get o2 h1 Hinv1) as Hinv2. rewrite Hget2 in Hinv2.
  destruct (get_UID_returns _ _ _ _ Hget2) as (ob2 & Ho2 & Hu2 & Hother).
  pose proof (Hother o1 ob1 ltac:(done) Ho1) as Ho1'.
  split; [|split].
  - intros ->. destruct Hinv2 as (_ & _ & Hi & _).
    apply Hne. by apply (Hi o2 o1 ob2 ob1 u1).
  - by rewrite (get_UID_eq _ _ _ Ho1'), Hu1.
  - by rewrite (get_UID_eq _ _ _ Ho2), Hu2.
Qed.

(** X27: [foam.Object.freeze] reads [$UID] before it freezes: the frozen object
    has its id, and reading it returns that id with no change to the
    store.  An object that [Object.freeze] alone froze before its [$UID]
    was ever read has none: the read fails, the definition of [$UID__]
    being refused, and the id it took is lost. *)
Theorem foam_Object_freeze_keeps_UID o h ob :
  uobjects h !! o = Some ob → obj_frozen ob = false →
  (∃ h' u,
     foam_Object_freeze o h = (Return tt, h') ∧
     uobjects h' !! o = Some (mkJSObject (Some u) true) ∧
     get_UID o h' = (Return u, h')) ∧
  (obj_UID__ ob = None →
   ∃ h',
     Object_freeze o h = (Return tt, h') ∧
     uobjects h' !! o = Some (mkJSObject None true) ∧
     get_UID o h' =
       (Throw TypeError,
        mkUHeap (uobjects h') (unext_loc h') (uid_counter h' + 1))).
Proof.
  intros Ho Hfr. split.
  - unfold foam_Object_freeze, bind. rewrite (get_UID_eq _ _ _ Ho), Hfr.
    destruct (obj_UID__ ob) as [u|] eqn:Hu.
    + unfold Object_freeze. rewrite Ho, Hu. eexists _, u.
      split; [done|]. simpl. split; [apply lookup_insert_eq|].
      erewrite get_UID_eq; [|apply lookup_insert_eq]. done.
    + unfold Object_freeze. simpl. rewrite lookup_insert_eq. simpl.
      eexists _, _. split; [done|]. simpl.
      split; [apply lookup_insert_eq|].
      erewrite get_UID_eq; [|apply lookup_insert_eq]. done.
  - intros Hu. unfold Object_freeze. rewrite Ho, Hu. eexists.
    split; [done|]. simpl. split; [apply lookup_insert_eq|].
    erewrite get_UID_eq; [|apply lookup_insert_eq]. done.
Qed.

Lemma foam_Object_freeze_keeps_UID_witness :
  uobjects (run_uops [UNew]) !! 0%nat = Some (mkJSObject None false) ∧
  ∃ h' u,
    foam_Object_freeze 0 (run_uops [UNew]) = (Return tt, h') ∧
    get_UID 0 h' = (Return u, h').
Proof.
  assert (Ho : uobjects (run_uops [UNew]) !! 0%nat
               = Some (mkJSObject None false)) by done.
  split; [exact Ho|].
  destruct (proj1 (foam_Object_freeze_keeps_UID 0 (run_uops [UNew]) _
                     Ho eq_refl)) as (h' & u & Hrun & _ & Hget).
  by exists h', u.
Defined.

(** X28: [foam.Object.compare] orders the objects by their [$UID]s.  In a
    state that the steps of a program reach, for two objects that can be
    given an id, the comparison returns -1, 0 or 1, and 0 exactly when the
    two are the same object; comparing them the other way round afterwards
    returns the opposite and changes nothing; and an object compares as
    greater than a falsy second argument. *)
Theorem Object_compare_by_UID ops a b c h' :
  Object_compare a (Some b) (run_uops ops) = (Return c, h') →
  (c = -1 ∨ c = 0 ∨ c = 1) ∧
  (c = 0 ↔ a = b) ∧
  Object_compare b (Some a) h' = (Return (- c), h') ∧
  Object_compare a (Some b) h' = (Return c, h') ∧
  Object_compare a None h' = (Return 1, h').
Proof.
  pose proof (uid_inv_ops ops) as Hinv. set (h := run_uops ops) in *.
  unfold Object_compare at 1. unfold bind.
  destruct (get_UID a h) as [[ua|e] h1] eqn:Ha; [|done].
  destruct (get_UID b h1) as [[ub|e] h2] eqn:Hb; [|done].
  intros [= <- <-].
  pose proof (uid_inv_get a h Hinv) as Hinv1. rewrite Ha in Hinv1.
  pose proof (uid_inv_get b h1 Hinv1) as Hinv2. rewrite Hb in Hinv2.
  simpl in Hinv1, Hinv2.
  destruct (get_UID_returns _ _ _ _ Ha) as (oba & Hoa & Hua & _).
  destruct (get_UID_returns _ _ _ _ Hb) as (obb & Hob & Hub & Hother).
  assert (Ha2 : get_UID a h2 = (Return ua, h2)).
  { destruct (decide (a = b)) as [->|Hne].
    - rewrite (get_UID_eq _ _ _ Hob), Hub.
      rewrite (get_UID_eq _ _ _ Hoa), Hua in Hb. by injection Hb as ->.
    - pose proof (Hother a oba Hne Hoa) as Hoa2.
      by rewrite (get_UID_eq _ _ _ Hoa2), Hua. }
  assert (Hb2 : get_UID b h2 = (Return ub, h2))
    by by rewrite (get_UID_eq _ _ _ Hob), Hub.
  assert (Hinj : ua = ub ↔ a = b).
  { split.
    - intros ->. destruct Hinv2 as (_ & _ & Hi & _).
      destruct (decide (a = b)) as [|Hne]; [done|].
      pose proof (Hother a oba Hne Hoa) as Hoa2.
      by apply (Hi a b oba obb ub).
    - intros ->. rewrite Ha2 in Hb2. by injection Hb2. }
  split; [|split; [|split; [|split]]].
  - unfold Number_compare. repeat case_decide; auto.
  - rewrite <- Hinj. unfold Number_compare. repeat case_decide; lia.
  - unfold Object_compare, bind. rewrite Hb2, Ha2. simpl.
    unfold ret. f_equal. f_equal. unfold Number_compare.
    repeat case_decide; lia.
  - unfold Object_compare, bind. by rewrite Ha2, Hb2.
  - unfold Object_compare, bind. rewrite Ha2. simpl.
    unfold ret. f_equal. f_equal. unfold Number_compare.
    destruct Hinv2 as (_ & Hr & _).
    destruct (get_UID_returns _ _ _ _ Ha2) as (oba2 & Hoa2 & Hua2 & _).
    pose proof (Hr _ _ _ Hoa2 Hua2). repeat case_decide; lia.
Qed.

Lemma Object_compare_by_UID_witness :
  Object_compare 0 (Some 1%nat) (run_uops [UNew; UNew])
    = (Return (-1), run_uops [UNew; UNew; UGet 0; UGet 1]) ∧
  Object_compare 1 (Some 0%nat) (run_uops [UNew; UNew; UGet 0; UGet 1])
    = (Return (- -1), run_uops [UNew; UNew; UGet 0; UGet 1]).
Proof.
  assert (Hrun : Object_compare 0 (Some 1%nat) (run_uops [UNew; UNew])
                 = (Return (-1), run_uops [UNew; UNew; UGet 0; UGet 1]))
    by (by vm_compute).
  split; [exact Hrun|].
  exact (proj1 (proj2 (proj2 (Object_compare_by_UID [UNew; UNew] 0 1 (-1) _
                                Hrun)))).
Defined.

End FoamObjectTheory.

Module FoamPackageTheory.
Import FoamObject.
Local Open Scope js_scope.

(** *** [foam.package] *)

Lemma pheap_extends_refl h : pheap_extends h h.
Proof. intros l o Ho. by exists o. Qed.

Lemma pheap_extends_trans h1 h2 h3 :
  pheap_extends h1 h2 → pheap_extends h2 h3 → pheap_extends h1 h3.
Proof.
  intros H12 H23 l o Ho. destruct (H12 _ _ Ho) as (o2 & Ho2 & Hsub).
  destruct (H23 _ _ Ho2) as (o3 & Ho3 & Hsub'). exists o3.
  split; [done|]. by etrans.
Qed.

Lemma ensure_step_spec node key h o :
  pheap_wf h → pobjects h !! node = Some o →
  ∃ n h' o', ensure_step node key h = (Return n, h') ∧
    pheap_wf h' ∧ pheap_extends h h' ∧
    pobjects h' !! node = Some o' ∧ o' !! key = Some n ∧
    is_Some (pobjects h' !! n) ∧
    (∀ v, o !! key = Some v → n = v ∧ h' = h).
Proof.
  intros Hwf Ho. unfold ensure_step. rewrite Ho.
  destruct (o !! key) as [v|] eqn:Hk.
  - exists v, h, o. split; [done|]. split; [done|].
    split; [apply pheap_extends_refl|]. split; [done|]. split; [done|].
    split; [by eapply Hwf|]. by intros ? [= <-].
  - destruct (Hwf _ _ Ho) as [Hlt Hprops].
    assert (Hfresh : pobjects h !! pnext_loc h = None).
    { destruct (pobjects h !! pnext_loc h) eqn:Hn; [|done].
      destruct (Hwf _ _ Hn). lia. }
    eexists _, _, (<[key := pnext_loc h]> o). split; [done|].
    split; [|split; [|split; [|split; [|split]]]]; simpl.
    + intros l o'. cbn [pobjects pnext_loc].
      rewrite lookup_insert. case_decide as H1.
      { subst l. intros [= <-]. split; [lia|]. intros k v Hv.
        by rewrite lookup_empty in Hv. }
      rewrite lookup_insert. case_decide as H2.
      * subst l. intros [= <-]. split; [lia|]. intros k v.
        rewrite lookup_insert. case_decide.
        -- intros [= <-]. rewrite lookup_insert_eq. by eexists.
        -- intros Hv. destruct (Hprops _ _ Hv) as [ov Hov].
           rewrite lookup_insert_ne by congruence.
           rewrite lookup_insert. case_decide; by eexists.
      * intros Hl. destruct (Hwf _ _ Hl) as [Hlt' Hprops'].
        split; [lia|]. intros k v Hv.
        destruct (Hprops' _ _ Hv) as [ov Hov].
        rewrite lookup_insert. case_decide; [by eexists|].
        rewrite lookup_insert. case_decide; by eexists.
    + intros l o' Hl. cbn [pobjects].
      assert (pnext_loc h ≠ l) by congruence.
      rewrite lookup_insert_ne by done. rewrite lookup_insert.
      case_decide.
      * subst l. rewrite Ho in Hl. injection Hl as <-. eexists.
        split; [done|]. by apply insert_subseteq.
      * by exists o'.
    + rewrite lookup_insert_ne by lia. apply lookup_insert_eq.
    + apply lookup_insert_eq.
    + rewrite lookup_insert_eq. by eexists.
    + done.
Qed.

Lemma pheap_extends_prop h h' l o k v :
  pheap_extends h h' → pobjects h !! l = Some o → o !! k = Some v →
  ∃ o', pobjects h' !! l = Some o' ∧ o' !! k = Some v.
Proof.
  intros Hext Ho Hk. destruct (Hext _ _ Ho) as (o' & Ho' & Hsub).
  exists o'. split; [done|]. by eapply lookup_weaken.
Qed.

Lemma ensure_walk_spec keys : ∀ node h,
  pheap_wf h → is_Some (pobjects h !! node) →
  ∃ n h', ensure_walk node keys h = (Return n, h') ∧
    pheap_wf h' ∧ pheap_extends h h' ∧
    resolve h' node keys = Some n ∧
    is_Some (pobjects h' !! n) ∧
    (∀ n0, resolve h node keys = Some n0 → n = n0 ∧ h' = h).
Proof.
  induction keys as [|key keys IH]; intros node h Hwf [o Ho].
  - exists node, h. simpl. split; [done|]. split; [done|].
    split; [apply pheap_extends_refl|]. split; [done|].
    split; [by eexists|]. by intros ? [= <-].
  - destruct (ensure_step_spec node key h o Hwf Ho)
      as (n1 & h1 & o1 & Hstep & Hwf1 & Hext1 & Ho1 & Hk1 & Hn1 & Hsame1).
    destruct (IH n1 h1 Hwf1 Hn1)
      as (n & h' & Hwalk & Hwf' & Hext' & Hres & Hn & Hsame).
    exists n, h'. cbn [ensure_walk]. unfold bind. rewrite Hstep.
    split; [done|]. split; [done|].
    split; [by eapply pheap_extends_trans|]. split; [|split; [done|]].
    + destruct (pheap_extends_prop _ _ _ _ _ _ Hext' Ho1 Hk1)
        as (o' & Ho' & Hk').
      cbn [resolve]. by rewrite Ho', Hk'.
    + intros n0. cbn [resolve]. rewrite Ho.
      destruct (o !! key) as [v|] eqn:Hk; [|done].
      destruct (Hsame1 v eq_refl) as [-> ->]. apply Hsame.
Qed.

Lemma ensurePackage_walk root path h :
  ensurePackage root path h = ensure_walk root (package_keys path) h.
Proof.
  unfold ensurePackage, package_keys.
  destruct path as [p|]; [|done]. by case_decide.
Qed.


Lemma pheap_wf_ex : pheap_wf ex_pheap.
Proof.
  intros l o. unfold ex_pheap. cbn [pobjects pnext_loc].
  rewrite lookup_insert. case_decide.
  - intros [= <-]. split; [lia|]. intros k v Hv.
    by rewrite lookup_empty in Hv.
  - rewrite lookup_singleton. case_decide; [|done].
    intros [= <-]. split; [lia|]. intros k v Hv.
    by rewrite lookup_empty in Hv.
Qed.


Lemma resolve_frame h h' keys : ∀ node,
  (∀ l o k v, pobjects h !! l = Some o → o !! k = Some v → k ∈ keys →
     ∃ o', pobjects h' !! l = Some o' ∧ o' !! k = Some v) →
  ∀ n, resolve h node keys = Some n → resolve h' node keys = Some n.
Proof.
  induction keys as [|key keys IH]; intros node Hframe n; [done|].
  cbn [resolve].
  destruct (pobjects h !! node) as [o|] eqn:Ho; [|done].
  destruct (o !! key) as [v|] eqn:Hk; [|done].
  destruct (Hframe _ _ _ _ Ho Hk) as (o' & -> & ->); [by left|].
  apply IH. intros l o0 k v0 Hl Hv Hin. apply (Hframe l o0 k v0 Hl Hv).
  by right.
Qed.

Lemma resolve_app h node keys1 keys2 n1 :
  resolve h node keys1 = Some n1 →
  resolve h node (keys1 ++ keys2) = resolve h n1 keys2.
Proof.
  revert node. induction keys1 as [|key keys1 IH]; intros node; simpl.
  - by intros [= <-].
  - destruct (pobjects h !! node) as [o|]; [|done].
    destruct (o !! key) as [v|]; [|done]. apply IH.
Qed.



End FoamPackageTheory.
